(** * libopeninv (STM32F4 port): the CAN message map, field codec, transmit
    queue, flash persistence and SDO handler of [stm32_can.cpp]

    A shallow embedding of [src/src/stm32_can.cpp] and
    [src/include/stm32_can.h].  C arrays are lists read with [!!] and
    written with [<[ i := x ]>]; pointers into an array are indices; fixed
    width integers are [Z] with the conversions written out; [float] is
    IEEE-754 binary32 over the Standard Library's [SpecFloat].  A C++
    operation whose behaviour the language leaves undefined (an access
    past the end of an array, a shift by the width of the type or more, a
    float to integer conversion out of range, an overflow of signed
    arithmetic) ends the computation in [Undefined].  Where a statement
    is about what such an access does on the target, the table is also
    followed as the words of its memory ([Add_mem]). *)

From Stdlib Require Import ZArith Bool Lia.
From Stdlib Require Import Floats.SpecFloat.
From stdpp Require Import base tactics option list.

Local Open Scope Z_scope.

(** ** Fixed width integers *)

Definition u8 (x : Z) : Z := x mod 2 ^ 8.
Definition u16 (x : Z) : Z := x mod 2 ^ 16.
Definition u32 (x : Z) : Z := x mod 2 ^ 32.

(** Conversion to a signed type of [w] bits (two's complement, as on the
    target). *)
Definition sint (w : Z) (x : Z) : Z :=
  (x + 2 ^ (w - 1)) mod 2 ^ w - 2 ^ (w - 1).

Definition s8 : Z -> Z := sint 8.
Definition s16 : Z -> Z := sint 16.
Definition s32 : Z -> Z := sint 32.

(** ** Outcomes *)

Inductive fault : Type :=
| OutOfBounds      (* an object is read or written past the end of its array *)
| ShiftRange       (* shift count negative or not below the operand's width *)
| FloatRange       (* float to integer conversion of a value out of range *)
| IntOverflow.     (* result of signed arithmetic not a value of the type *)

Inductive result (A : Type) : Type :=
| Ok (a : A)
| Undefined (f : fault).

Arguments Ok {A} a.
Arguments Undefined {A} f.

Definition bind {A B : Type} (r : result A) (k : A -> result B) : result B :=
  match r with
  | Ok a => k a
  | Undefined f => Undefined f
  end.

Notation "'do' x <- r ; k" := (bind r (fun x => k))
  (at level 10, x pattern, r at level 100, k at level 200).

(** ** stm32_can.h: constants and structures *)

Definition CAN_ERR_INVALID_ID : Z := -1.
Definition CAN_ERR_INVALID_OFS : Z := -2.
Definition CAN_ERR_INVALID_LEN : Z := -3.
Definition CAN_ERR_MAXMESSAGES : Z := -4.
Definition CAN_ERR_MAXITEMS : Z := -5.

Definition MAX_ITEMS_PER_MESSAGE : nat := 10.
Definition MAX_MESSAGES : nat := 10.
Definition SENDBUFFER_LEN : nat := 20.
Definition MAX_USER_MESSAGES : nat := 10.

Definition CANID_UNSET : Z := 0xffffffff.
Definition NUMBITS_LASTMARKER : Z := -1.

(** [struct CANPOS].  [gain] is a [float]; the record keeps its 32-bit
    pattern, which is what the flash image stores, and the codec reads it
    through [B32.of_bits]. *)
Record CANPOS : Type := mkCANPOS {
  mapParam : Z;     (* uint16_t *)
  offset : Z;       (* int16_t  *)
  gain : Z;         (* float, as its bit pattern *)
  offsetBits : Z;   (* uint8_t  *)
  numBits : Z       (* int8_t   *)
}.

(** [struct CANIDMAP]: [items] has [MAX_ITEMS_PER_MESSAGE] elements. *)
Record CANIDMAP : Type := mkCANIDMAP {
  canId : Z;        (* uint32_t *)
  items : list CANPOS
}.

#[global] Instance CANPOS_eq_dec : EqDecision CANPOS.
Proof. solve_decision. Defined.

#[global] Instance CANIDMAP_eq_dec : EqDecision CANIDMAP.
Proof. solve_decision. Defined.

Definition set_numBits (n : Z) (p : CANPOS) : CANPOS :=
  mkCANPOS (mapParam p) (offset p) (gain p) (offsetBits p) n.

Definition set_mapParam (v : Z) (p : CANPOS) : CANPOS :=
  mkCANPOS v (offset p) (gain p) (offsetBits p) (numBits p).

Definition set_canId (id : Z) (m : CANIDMAP) : CANIDMAP :=
  mkCANIDMAP id (items m).

Definition set_items (l : list CANPOS) (m : CANIDMAP) : CANIDMAP :=
  mkCANIDMAP (canId m) l.

(** [a[i].items[j] = p] *)
Definition set_item (i j : nat) (p : CANPOS) (a : list CANIDMAP) : list CANIDMAP :=
  alter (fun m => set_items (<[ j := p ]> (items m)) m) i a.

(** ** The two iteration macros *)

Fixpoint take_while {A : Type} (f : A -> bool) (l : list A) : list A :=
  match l with
  | [] => []
  | x :: l' => if f x then x :: take_while f l' else []
  end.

Definition msg_active (m : CANIDMAP) : bool := canId m <? CANID_UNSET.
Definition pos_active (p : CANPOS) : bool := 0 <? numBits p.

(** [forEachCanMap(c, m)]: from [m[0]] while the index is below
    [MAX_MESSAGES] and [c->canId < CANID_UNSET]. *)
Definition forEachCanMap (m : list CANIDMAP) : list CANIDMAP :=
  take_while msg_active (take MAX_MESSAGES m).

(** [forEachPosMap(c, m)]: from [m->items[0]] while the index is below
    [MAX_ITEMS_PER_MESSAGE] and [c->numBits > 0]. *)
Definition forEachPosMap (m : CANIDMAP) : list CANPOS :=
  take_while pos_active (take MAX_ITEMS_PER_MESSAGE (items m)).

(** ** Can::ClearMap *)

(** A loop [for (k = 0; k < n; k++) a[k] = f(a[k])]. *)
Definition for_upto {A : Type} (n : nat) (f : A -> A) (a : list A) : list A :=
  (f <$> take n a) ++ drop n a.

Definition ClearMap (canMap : list CANIDMAP) : list CANIDMAP :=
  for_upto MAX_MESSAGES
    (fun m => mkCANIDMAP CANID_UNSET
                (for_upto MAX_ITEMS_PER_MESSAGE (set_numBits 0) (items m)))
    canMap.

(** ** Can::FindById

    The returned pointer is the index of the element. *)
Definition FindById (canMap : list CANIDMAP) (id : Z) : option nat :=
  fst <$> list_find (fun m => canId m = id) (take MAX_MESSAGES canMap).

(** ** Can::Add

    [canId], [offsetBits] and [length] are [int]; [offset] is [int16_t].
    The comparison with [canMap[i].canId] and the store into it convert
    [canId] to [uint32_t]; the stores into the item convert to the
    fields' types.  The scan [for (; freeItem->numBits > 0; freeItem++);]
    has no bound of its own: when every element of [items] has
    [numBits > 0] it leaves the array. *)
Definition Add (canMap : list CANIDMAP)
    (param canId offsetBits length gain offset : Z) : result (Z * list CANIDMAP) :=
  if 0x1fffffff <? canId then Ok (CAN_ERR_INVALID_ID, canMap)
  else if 63 <? offset then Ok (CAN_ERR_INVALID_OFS, canMap)
  else if 32 <? length then Ok (CAN_ERR_INVALID_LEN, canMap)
  else
    let found :=
      match FindById canMap (u32 canId) with
      | Some e => Some (e, canMap)
      | None =>
          match FindById canMap CANID_UNSET with
          | Some e => Some (e, alter (set_canId (u32 canId)) e canMap)
          | None => None
          end
      end in
    match found with
    | None => Ok (CAN_ERR_MAXMESSAGES, canMap)
    | Some (e, canMap1) =>
        match canMap1 !! e with
        | None => Undefined OutOfBounds
        | Some existingMap =>
            match list_find (fun p => numBits p <= 0) (items existingMap) with
            | None => Undefined OutOfBounds
            | Some (j, freeItem) =>
                if numBits freeItem =? NUMBITS_LASTMARKER
                then Ok (CAN_ERR_MAXITEMS, canMap1)
                else
                  let canMap2 :=
                    set_item e j
                      (mkCANPOS (u16 param) offset gain (u8 offsetBits) (s8 length))
                      canMap1 in
                  Ok (Z.of_nat (List.length (forEachCanMap canMap2)), canMap2)
            end
        end
    end.

(** ** Can::CopyIdMapExcept *)

(** The inner [forEachPosMap] loop, over the items still to visit:
    [j], [discardId] and [removed] are the loop's variables. *)
Fixpoint copy_pos (param : Z) (poss : list CANPOS) (dest : list CANIDMAP)
    (i j : nat) (discardId : bool) (removed : Z) : list CANIDMAP * bool * Z :=
  match poss with
  | [] => (dest, discardId, removed)
  | curPos :: rest =>
      if mapParam curPos =? param
      then copy_pos param rest dest i j discardId (removed + 1)
      else copy_pos param rest (set_item i j curPos dest) i (S j) false removed
  end.

(** The outer [forEachCanMap] loop, over the messages still to visit. *)
Fixpoint copy_maps (param : Z) (maps : list CANIDMAP) (dest : list CANIDMAP)
    (i : nat) (removed : Z) : list CANIDMAP * Z :=
  match maps with
  | [] => (dest, removed)
  | curMap :: rest =>
      let '(dest1, discardId, removed1) :=
        copy_pos param (forEachPosMap curMap) dest i 0 true removed in
      if discardId
      then copy_maps param rest dest1 i removed1
      else copy_maps param rest (alter (set_canId (canId curMap)) i dest1) (S i) removed1
  end.

Definition CopyIdMapExcept (source dest : list CANIDMAP) (param : Z)
    : list CANIDMAP * Z :=
  copy_maps param (forEachCanMap source) dest 0 0.

(** ** Can::RemoveFromMap

    [copyMap] is a local array without initialiser: [scratch] is whatever
    the stack holds there. *)
Definition RemoveFromMap (scratch canMap : list CANIDMAP) (param : Z)
    : Z * list CANIDMAP :=
  let copyMap := ClearMap scratch in
  let '(copyMap1, removed) := CopyIdMapExcept canMap copyMap param in
  let canMap1 := ClearMap canMap in
  let '(canMap2, _) := CopyIdMapExcept copyMap1 canMap1 param in
  (removed, canMap2).

(** ** Can::FindMap

    One pass of the outer loop, over one table.  The identifier leaves
    through [int& canId]: [canId = curMap->canId] converts the
    [uint32_t] to [int]. *)

Definition find_pos (param : Z) (canMap : list CANIDMAP) : option (Z * Z * Z * Z) :=
  (fun '(curMap, curPos) =>
     (s32 (canId curMap), offsetBits curPos, numBits curPos, gain curPos)) <$>
  head (curMap ← forEachCanMap canMap;
        curPos ← filter (fun p => mapParam p = param) (forEachPosMap curMap);
        [(curMap, curPos)]).

(** The result is [(canId, offset, length, gain, rx)], or [None] for
    [false]. *)
Definition FindMap (canSendMap canRecvMap : list CANIDMAP) (param : Z)
    : option (Z * Z * Z * Z * bool) :=
  match find_pos param canSendMap with
  | Some r => Some (r, false)
  | None =>
      match find_pos param canRecvMap with
      | Some r => Some (r, true)
      | None => None
      end
  end.

(** ** [float]: IEEE-754 binary32 *)

Module B32.

Definition prec : Z := 24.
Definition emax : Z := 128.

(** The value a 32-bit pattern denotes. *)
Definition of_bits (b : Z) : spec_float :=
  let s := Z.testbit b 31 in
  let e := Z.land (Z.shiftr b 23) 0xff in
  let m := Z.land b 0x7fffff in
  if e =? 0 then
    match m with
    | Zpos p => S754_finite s p (-149)
    | _ => S754_zero s
    end
  else if e =? 255 then
    if m =? 0 then S754_infinity s else S754_nan
  else
    match m + 2 ^ 23 with
    | Zpos p => S754_finite s p (e - 150)
    | _ => S754_nan
    end.

(** The pattern of a float in canonical form (as the operations below
    return it). *)
Definition to_bits (f : spec_float) : Z :=
  let sign (s : bool) : Z := if s then 2 ^ 31 else 0 in
  match f with
  | S754_zero s => sign s
  | S754_infinity s => sign s + 0x7f800000
  | S754_nan => 0x7fc00000
  | S754_finite s m e =>
      if Zpos m <? 2 ^ 23 then sign s + Zpos m
      else sign s + (e + 150) * 2 ^ 23 + (Zpos m - 2 ^ 23)
  end.

(** Integer to float conversion (round to nearest, ties to even). *)
Definition of_Z (n : Z) : spec_float := binary_normalize prec emax n 0 false.

Definition mul : spec_float -> spec_float -> spec_float := SFmul prec emax.
Definition add : spec_float -> spec_float -> spec_float := SFadd prec emax.

(** The integer part (rounding toward zero) of a finite float. *)
Definition trunc (f : spec_float) : option Z :=
  match f with
  | S754_zero _ => Some 0
  | S754_finite s m e =>
      let a := if 0 <=? e then Zpos m * 2 ^ e else Zpos m / 2 ^ (- e) in
      Some (if s then - a else a)
  | _ => None
  end.

(** Float to integer conversion: undefined unless the integer part is a
    value of the destination type. *)
Definition to_int (lo hi : Z) (f : spec_float) : result Z :=
  match trunc f with
  | Some n => if (lo <=? n) && (n <? hi) then Ok n else Undefined FloatRange
  | None => Undefined FloatRange
  end.

Definition to_u32 : spec_float -> result Z := to_int 0 (2 ^ 32).
Definition to_s32 : spec_float -> result Z := to_int (- 2 ^ 31) (2 ^ 31).

End B32.

(** ** Shifts on 32-bit operands *)

Definition shift_ok (n : Z) : bool := (0 <=? n) && (n <? 32).

(** [a << n] on [int]. *)
Definition shl_int (a n : Z) : result Z :=
  if shift_ok n then Ok (s32 (Z.shiftl a n)) else Undefined ShiftRange.

(** [a << n] on [uint32_t]. *)
Definition shl_u32 (a n : Z) : result Z :=
  if shift_ok n then Ok (u32 (Z.shiftl a n)) else Undefined ShiftRange.

(** [a >> n] on [uint32_t]. *)
Definition shr_u32 (a n : Z) : result Z :=
  if shift_ok n then Ok (Z.shiftr a n) else Undefined ShiftRange.

(** ** The field codec of Can::SendAll and Can::HandleRx *)

(** The result of signed arithmetic on [int]. *)
Definition int_result (x : Z) : result Z :=
  if (- 2 ^ 31 <=? x) && (x <? 2 ^ 31) then Ok x else Undefined IntOverflow.

(** [(1 << curPos->numBits) - 1], converted to [uint32_t] by the [&] with
    an unsigned operand.  For [numBits = 31] the shift gives [INT_MIN]
    and the subtraction overflows. *)
Definition field_mask (numBits : Z) : result Z :=
  do m <- shl_int 1 numBits;
  do m1 <- int_result (m - 1);
  Ok (u32 m1).

(** The body of the inner loop of [SendAll], after the [isSaving] test:
    [fval] is what [Param::GetFloat] returned, [data] is [(data[0], data[1])]. *)
Definition encode_value (curPos : CANPOS) (fval : spec_float) : result Z :=
  let fval := B32.mul fval (B32.of_bits (gain curPos)) in
  let fval := B32.add fval (B32.of_Z (offset curPos)) in
  B32.to_u32 fval.

Definition pack_field (data : Z * Z) (curPos : CANPOS) (val : Z) : result (Z * Z) :=
  do mask <- field_mask (numBits curPos);
  let val := Z.land val mask in
  if 31 <? offsetBits curPos then
    do sh <- shl_u32 val (offsetBits curPos - 32);
    Ok (fst data, Z.lor (snd data) sh)
  else
    do sh <- shl_u32 val (offsetBits curPos);
    Ok (Z.lor (fst data) sh, snd data).

Definition encode_field (data : Z * Z) (curPos : CANPOS) (fval : spec_float)
    : result (Z * Z) :=
  do val <- encode_value curPos fval;
  pack_field data curPos val.

(** Modelled from the spec: [my_fp.h] (the type [s32fp] and the macro
    [FP_FROMINT]) is not among the sources.  The spec calls the values
    fixed-point; [s32fp] is a signed 32-bit integer holding the value
    scaled by [2 ^ frac], and [FP_FROMINT (a)] is [(s32fp)((a) << frac)].
    The number of fractional bits [frac] stays a parameter. *)
Definition FP_FROMINT (frac : Z) (a : Z) : Z := s32 (u32 (Z.shiftl a frac)).

(** The body of the inner loop of [HandleRx] up to the call of
    [Param::Set]: first the unsigned integer taken out of the payload, *)
Definition unpack_field (data : Z * Z) (curPos : CANPOS) : result Z :=
  if 31 <? offsetBits curPos then
    do sh <- shr_u32 (snd data) (offsetBits curPos - 32);
    do mask <- field_mask (numBits curPos);
    Ok (Z.land sh mask)
  else
    do sh <- shr_u32 (fst data) (offsetBits curPos);
    do mask <- field_mask (numBits curPos);
    Ok (Z.land sh mask).

(** then [val += curPos->offset; val *= curPos->gain;] on the [s32fp]:
    an addition on [int], and a multiplication on [float] whose result
    is converted back. *)
Definition decode_value (frac : Z) (curPos : CANPOS) (raw : Z) : result Z :=
  let val := FP_FROMINT frac raw in
  do val <- int_result (val + offset curPos);
  B32.to_s32 (B32.mul (B32.of_Z val) (B32.of_bits (gain curPos))).

Definition decode_field (frac : Z) (data : Z * Z) (curPos : CANPOS) : result Z :=
  do raw <- unpack_field data curPos;
  decode_value frac curPos raw.

(** ** The transmit path: Can::Send and Can::HandleTx *)

(** [struct SENDBUFFER] (fields [id], [len], [data[2]]). *)
Record SENDBUFFER : Type := mkSENDBUFFER {
  buf_id : Z;
  buf_len : Z;
  buf_data : Z * Z
}.

#[global] Instance SENDBUFFER_eq_dec : EqDecision SENDBUFFER.
Proof. solve_decision. Defined.

(** Modelled from the spec: the hardware transport primitive
    (libopencm3's [can_transmit], [can_enable_irq], [can_disable_irq]) is
    not among the sources.  "attempt-transmit -> accepted/rejected":
    [mbox] lists what the coming calls of [can_transmit] return (a
    mailbox number, or a negative number when no mailbox is free; an
    exhausted list rejects), [wire] collects the frames the mailboxes
    accepted, oldest first, and [TMEIE] is the transmit-complete
    notification enable bit. *)
Record CanHw : Type := mkCanHw {
  mbox : list Z;
  wire : list SENDBUFFER;
  TMEIE : bool
}.

Definition can_transmit (hw : CanHw) (f : SENDBUFFER) : Z * CanHw :=
  match mbox hw with
  | [] => (-1, hw)
  | r :: rest =>
      (r, mkCanHw rest (if r <? 0 then wire hw else wire hw ++ [f]) (TMEIE hw))
  end.

Definition set_TMEIE (b : bool) (hw : CanHw) : CanHw :=
  mkCanHw (mbox hw) (wire hw) b.

(** The members of [class Can] that the modelled functions use. *)
Record Can : Type := mkCan {
  canSendMap : list CANIDMAP;
  canRecvMap : list CANIDMAP;
  sendBuffer : list SENDBUFFER;
  sendCnt : nat;
  nodeId : Z;
  isSaving : bool;
  canDev : CanHw
}.

Definition with_maps (s r : list CANIDMAP) (c : Can) : Can :=
  mkCan s r (sendBuffer c) (sendCnt c) (nodeId c) (isSaving c) (canDev c).

Definition with_queue (b : list SENDBUFFER) (n : nat) (hw : CanHw) (c : Can) : Can :=
  mkCan (canSendMap c) (canRecvMap c) b n (nodeId c) (isSaving c) hw.

(** [Can::Send(canId, data, len)] *)
Definition Send (c : Can) (canId : Z) (data : Z * Z) (len : Z) : Can :=
  let f := mkSENDBUFFER canId len data in
  let hw := set_TMEIE false (canDev c) in
  let '(r, hw) := can_transmit hw f in
  let '(b, n) :=
    if (r <? 0) && (sendCnt c <? SENDBUFFER_LEN)%nat
    then (<[ sendCnt c := f ]> (sendBuffer c), S (sendCnt c))
    else (sendBuffer c, sendCnt c) in
  let hw := if (0 <? n)%nat then set_TMEIE true hw else hw in
  with_queue b n hw c.

(** The loop of [HandleTx]: [while (sendCnt > 0 && can_transmit(b[sendCnt - 1]) >= 0) sendCnt--;] *)
Fixpoint drain (b : list SENDBUFFER) (sendCnt : nat) (hw : CanHw) : result (nat * CanHw) :=
  match sendCnt with
  | O => Ok (O, hw)
  | S n =>
      match b !! n with
      | None => Undefined OutOfBounds
      | Some f =>
          let '(r, hw1) := can_transmit hw f in
          if 0 <=? r then drain b n hw1 else Ok (S n, hw1)
      end
  end.

Definition HandleTx (c : Can) : result Can :=
  do (n, hw) <- drain (sendBuffer c) (sendCnt c) (canDev c);
  let hw := if (n =? 0)%nat then set_TMEIE false hw else hw in
  Ok (with_queue (sendBuffer c) n hw c).

(** ** The parameter store *)

(** Modelled from the spec: [params.h] (class [Param]) is not among the
    sources.  "get(paramRef) -> fixed-point value; set(paramRef, value)
    -> success/failure; setFixed for stable-id passthrough;
    attribute/unique-id lookup in both directions; enumeration validity
    check."  [Param_Set] returns [0] on success. *)
Class Params : Type := {
  PARAM_LAST : Z;
  pstore : Type;
  Param_Set : pstore -> Z -> Z -> Z * pstore;
  Param_SetFixed : pstore -> Z -> Z -> pstore;
  Param_Get : pstore -> Z -> Z;
  Param_GetFloat : pstore -> Z -> spec_float;
  Param_IsParam : Z -> bool;
  Param_NumFromId : Z -> Z;
  (* [Param::GetAttrib(p)->id] *)
  Param_AttribId : Z -> Z
}.

(** ** Can::SendAll *)

Section WithParams.
Context `{Params}.

(** The inner loop; [None] is the [return] taken when [isSaving] is set. *)
Fixpoint SendAll_items (saving : bool) (ps : pstore) (poss : list CANPOS)
    (data : Z * Z) : result (option (Z * Z)) :=
  match poss with
  | [] => Ok (Some data)
  | curPos :: rest =>
      if saving then Ok None
      else
        do data1 <- encode_field data curPos (Param_GetFloat ps (mapParam curPos));
        SendAll_items saving ps rest data1
  end.

Fixpoint SendAll_maps (ps : pstore) (maps : list CANIDMAP) (c : Can) : result Can :=
  match maps with
  | [] => Ok c
  | curMap :: rest =>
      do r <- SendAll_items (isSaving c) ps (forEachPosMap curMap) (0, 0);
      match r with
      | None => Ok c
      | Some data => SendAll_maps ps rest (Send c (canId curMap) data 8)
      end
  end.

Definition SendAll (ps : pstore) (c : Can) : result Can :=
  SendAll_maps ps (forEachCanMap (canSendMap c)) c.

End WithParams.

(** ** Can::Clear, Can::Remove, Can::AddSend, Can::AddRecv

    [ConfigureFilters], which [Clear] and [AddRecv] call last, only
    programs the identifier filter banks of the peripheral; they are not
    part of [CanHw]. *)

Definition Clear (c : Can) : Can :=
  with_maps (ClearMap (canSendMap c)) (ClearMap (canRecvMap c)) c.

(** [scratch1] and [scratch2] are the contents of the stack where the two
    calls of [RemoveFromMap] place [copyMap]. *)
Definition Remove (scratch1 scratch2 : list CANIDMAP) (c : Can) (param : Z) : Z * Can :=
  let '(removed1, s) := RemoveFromMap scratch1 (canSendMap c) param in
  let '(removed2, r) := RemoveFromMap scratch2 (canRecvMap c) param in
  (removed1 + removed2, with_maps s r c).

Definition AddSend (c : Can) (param canId offsetBits length gain offset : Z)
    : result (Z * Can) :=
  do (res, s) <- Add (canSendMap c) param canId offsetBits length gain offset;
  Ok (res, with_maps s (canRecvMap c) c).

Definition AddRecv (c : Can) (param canId offsetBits length gain offset : Z)
    : result (Z * Can) :=
  do (res, r) <- Add (canRecvMap c) param canId offsetBits length gain offset;
  Ok (res, with_maps (canSendMap c) r c).

(** ** Persistence: Can::Save, Can::SaveToFlash, Can::LoadFromFlash *)

(** The tables as the 32-bit words [(uint32_t * )canSendMap] reads
    (little endian, natural alignment): a [CANPOS] is three words,
    [mapParam | offset << 16], [gain], [offsetBits | numBits << 8], a
    [CANIDMAP] is [canId] followed by its items.  The two padding bytes
    that end a [CANPOS] are no member of the structure; the image takes
    them as zero, their value in zero-initialised storage.  [read_maps]
    ignores them, so what is read back of an image does not depend on
    them. *)
Definition CANPOS_words (p : CANPOS) : list Z :=
  [ mapParam p + 2 ^ 16 * u16 (offset p);
    gain p;
    offsetBits p + 2 ^ 8 * u8 (numBits p) ].

Definition CANIDMAP_words (m : CANIDMAP) : list Z :=
  canId m :: (items m ≫= CANPOS_words).

Definition table_words (canMap : list CANIDMAP) : list Z :=
  canMap ≫= CANIDMAP_words.

Definition CANIDMAP_WORDS : nat := 1 + 3 * MAX_ITEMS_PER_MESSAGE.
Definition SENDMAP_WORDS : nat := MAX_MESSAGES * CANIDMAP_WORDS.
Definition RECVMAP_WORDS : nat := MAX_MESSAGES * CANIDMAP_WORDS.

(** The other direction, [memcpy32] into a table. *)
Definition words_CANPOS (w0 w1 w2 : Z) : CANPOS :=
  mkCANPOS (w0 mod 2 ^ 16) (s16 (w0 / 2 ^ 16)) w1 (w2 mod 2 ^ 8) (s8 (w2 / 2 ^ 8)).

Fixpoint read_items (n : nat) (ws : list Z) : list CANPOS :=
  match n, ws with
  | S n', w0 :: w1 :: w2 :: rest => words_CANPOS w0 w1 w2 :: read_items n' rest
  | _, _ => []
  end.

Fixpoint read_maps (n : nat) (ws : list Z) : list CANIDMAP :=
  match n, ws with
  | S n', id :: rest =>
      mkCANIDMAP id (read_items MAX_ITEMS_PER_MESSAGE rest)
      :: read_maps n' (drop (3 * MAX_ITEMS_PER_MESSAGE) rest)
  | _, _ => []
  end.

(** Modelled from the spec: the non-volatile storage primitive
    ([flash_program_word]) is not among the sources.  "word-program
    (address, value)" on a page the caller has erased.  The flash is
    addressed in words from [GetFlashAddress ()]. *)
Definition flash_program_word (fl : nat -> Z) (idx : nat) (w : Z) : nat -> Z :=
  fun k => if decide (k = idx) then w else fl k.

Definition flash_read (fl : nat -> Z) (base n : nat) : list Z :=
  fl <$> seq base n.

(** Modelled from the spec: the checksum primitive ([crc_reset],
    [crc_calculate], [crc_calculate_block]) is not among the sources.
    "reset; accumulate one word": [crc_feed dr w] is the data register
    after the word [w] is written to it when it held [dr]. *)
Class Crc : Type := {
  crc_reset_value : Z;
  crc_feed : Z -> Z -> Z
}.

Section WithCrcAndParams.
Context `{Crc} `{Params}.

Definition crc_calculate_block (dr : Z) (data : list Z) : Z :=
  fold_left crc_feed data dr.

(** [SaveToFlash (baseAddress, data, len)]: [dr] is the data register of
    the checksum unit, [crc] the local variable. *)
Fixpoint SaveToFlash_from (fl : nat -> Z) (dr : Z) (idx : nat) (data : list Z)
    (crc : Z) : Z * Z * (nat -> Z) :=
  match data with
  | [] => (crc, dr, fl)
  | w :: rest =>
      let dr1 := crc_feed dr w in
      SaveToFlash_from (flash_program_word fl idx w) dr1 (S idx) rest dr1
  end.

Definition SaveToFlash (fl : nat -> Z) (dr : Z) (baseAddress : nat)
    (data : list Z) (len : nat) : Z * Z * (nat -> Z) :=
  SaveToFlash_from fl dr baseAddress (take len data) 0.

(** Both loops of [ReplaceParamEnumByUid] and [ReplaceParamUidByEnum]
    rewrite [mapParam] of the items the two macros visit. *)
Definition replace_params (f : Z -> Z) (canMap : list CANIDMAP) : list CANIDMAP :=
  for_upto (List.length (forEachCanMap canMap))
    (fun m =>
       set_items
         (for_upto (List.length (forEachPosMap m))
            (fun p => set_mapParam (f (mapParam p)) p) (items m)) m)
    canMap.

Definition ReplaceParamEnumByUid : list CANIDMAP -> list CANIDMAP :=
  replace_params (fun p => u16 (Param_AttribId p)).

Definition ReplaceParamUidByEnum : list CANIDMAP -> list CANIDMAP :=
  replace_params (fun p => u16 (Param_NumFromId p)).

Definition Save (c : Can) (fl : nat -> Z) : Can * (nat -> Z) :=
  let dr := crc_reset_value in
  let s := ReplaceParamEnumByUid (canSendMap c) in
  let r := ReplaceParamEnumByUid (canRecvMap c) in
  let '(_, dr, fl) := SaveToFlash fl dr 0 (table_words s) SENDMAP_WORDS in
  let '(crc, dr, fl) := SaveToFlash fl dr SENDMAP_WORDS (table_words r) RECVMAP_WORDS in
  let '(_, _, fl) := SaveToFlash fl dr (SENDMAP_WORDS + RECVMAP_WORDS) [crc] 1 in
  (mkCan (ReplaceParamUidByEnum s) (ReplaceParamUidByEnum r)
     (sendBuffer c) (sendCnt c) (nodeId c) false (canDev c), fl).

Definition LoadFromFlash (c : Can) (fl : nat -> Z) : Z * Can :=
  let storedCrc := fl (SENDMAP_WORDS + RECVMAP_WORDS)%nat in
  let crc := crc_calculate_block crc_reset_value
               (flash_read fl 0 (SENDMAP_WORDS + RECVMAP_WORDS)) in
  if storedCrc =? crc then
    let s := read_maps MAX_MESSAGES (flash_read fl 0 SENDMAP_WORDS) in
    let r := read_maps MAX_MESSAGES (flash_read fl SENDMAP_WORDS RECVMAP_WORDS) in
    (1, with_maps (ReplaceParamUidByEnum s) (ReplaceParamUidByEnum r) c)
  else (0, c).

(** The first two statements of the constructor [Can::Can]:
    [Clear (); LoadFromFlash ();]. *)
Definition Can_load (c : Can) (fl : nat -> Z) : Z * Can :=
  LoadFromFlash (Clear c) fl.

End WithCrcAndParams.

(** ** Can::ProcessSDO *)

Definition SDO_WRITE : Z := 0x40.
Definition SDO_READ : Z := 0x22.
Definition SDO_ABORT : Z := 0x80.
Definition SDO_WRITE_REPLY : Z := 0x23.
Definition SDO_READ_REPLY : Z := 0x43.
Definition SDO_ERR_INVIDX : Z := 0x06020000.
Definition SDO_ERR_RANGE : Z := 0x06090030.

(** [struct CAN_SDO], packed, laid over [uint32_t data[2]]. *)
Record CAN_SDO : Type := mkCAN_SDO {
  cmd : Z;          (* uint8_t  *)
  index : Z;        (* uint16_t *)
  subIndex : Z;     (* uint8_t  *)
  sdo_data : Z      (* uint32_t, the member [data] *)
}.

Definition CAN_SDO_of_data (data : Z * Z) : CAN_SDO :=
  mkCAN_SDO (Z.land (fst data) 0xff)
            (Z.land (Z.shiftr (fst data) 8) 0xffff)
            (Z.land (Z.shiftr (fst data) 24) 0xff)
            (snd data).

Definition data_of_CAN_SDO (sdo : CAN_SDO) : Z * Z :=
  (cmd sdo + 2 ^ 8 * index sdo + 2 ^ 24 * subIndex sdo, sdo_data sdo).

Section WithParams2.
Context `{Params}.

(** [ProcessSDO] up to its last statement: the object, the parameter
    store and the structure as they are when [Send] is called. *)
Definition SDO_reply (c : Can) (ps : pstore) (sdo : CAN_SDO)
    : result (Can * pstore * CAN_SDO) :=
  if (0x2000 <=? index sdo) && (index sdo <=? 0x2001) && (subIndex sdo <? PARAM_LAST)
  then
    let paramIdx :=
      if index sdo =? 0x2001 then Param_NumFromId (subIndex sdo) else subIndex sdo in
    if cmd sdo =? SDO_WRITE then
      let '(r, ps1) := Param_Set ps paramIdx (s32 (sdo_data sdo)) in
      if r =? 0
      then Ok (c, ps1, mkCAN_SDO SDO_WRITE_REPLY (index sdo) (subIndex sdo) (sdo_data sdo))
      else Ok (c, ps1, mkCAN_SDO SDO_ABORT (index sdo) (subIndex sdo) SDO_ERR_RANGE)
    else if cmd sdo =? SDO_READ then
      Ok (c, ps, mkCAN_SDO SDO_READ_REPLY (index sdo) (subIndex sdo)
                   (u32 (Param_Get ps paramIdx)))
    else Ok (c, ps, sdo)
  else if (0x3000 <=? index sdo) && (index sdo <? 0x4800) && (subIndex sdo <? PARAM_LAST)
  then
    if cmd sdo =? SDO_WRITE then
      let offset := Z.land (sdo_data sdo) 0xff in
      let len := Z.land (Z.shiftr (sdo_data sdo) 8) 0xff in
      let gain := s32 (Z.shiftr (sdo_data sdo) 16) in
      let fgain := B32.to_bits (B32.of_Z gain) in
      do (result, c1) <-
        (if Z.land (index sdo) 0x4000 =? 0x4000
         then AddRecv c (subIndex sdo) (Z.land (index sdo) 0x7ff) offset len fgain 0
         else AddSend c (subIndex sdo) (Z.land (index sdo) 0x7ff) offset len fgain 0);
      if 0 <=? result
      then Ok (c1, ps, mkCAN_SDO SDO_WRITE_REPLY (index sdo) (subIndex sdo) (sdo_data sdo))
      else Ok (c1, ps, mkCAN_SDO SDO_ABORT (index sdo) (subIndex sdo) SDO_ERR_RANGE)
    else Ok (c, ps, sdo)
  else Ok (c, ps, mkCAN_SDO SDO_ABORT (index sdo) (subIndex sdo) SDO_ERR_INVIDX).

Definition ProcessSDO (c : Can) (ps : pstore) (data : Z * Z) : result (Can * pstore) :=
  do (cp, sdo) <- SDO_reply c ps (CAN_SDO_of_data data);
  Ok (Send (fst cp) (0x580 + nodeId c) (data_of_CAN_SDO sdo) 8, snd cp).

(** ** Can::HandleRx, for one frame [can_receive] delivered *)

Fixpoint HandleRx_items (frac : Z) (ps : pstore) (poss : list CANPOS)
    (data : Z * Z) : result pstore :=
  match poss with
  | [] => Ok ps
  | curPos :: rest =>
      do val <- decode_field frac data curPos;
      let ps1 :=
        if Param_IsParam (mapParam curPos)
        then snd (Param_Set ps (mapParam curPos) val)
        else Param_SetFixed ps (mapParam curPos) val in
      HandleRx_items frac ps1 rest data
  end.

(** The third component is the call of [recvCallback], if any. *)
Definition HandleRx_frame (frac : Z) (c : Can) (ps : pstore)
    (id len : Z) (data : Z * Z) : result (Can * pstore * option (Z * (Z * Z))) :=
  if (id =? 0x600 + nodeId c) && (len =? 8) then
    do (c1, ps1) <- ProcessSDO c ps data;
    Ok (c1, ps1, None)
  else if isSaving c then Ok (c, ps, None)
  else
    match FindById (canRecvMap c) id with
    | Some e =>
        match canRecvMap c !! e with
        | Some recvMap =>
            do ps1 <- HandleRx_items frac ps (forEachPosMap recvMap) data;
            Ok (c, ps1, None)
        | None => Undefined OutOfBounds
        end
    | None => Ok (c, ps, Some (id, data))
    end.

End WithParams2.

(** ** Concrete tables and collaborators used in examples *)

(** Table memory filled with zero bytes, and the table [ClearMap] makes of
    it. *)
Definition zeroed_map : list CANIDMAP :=
  replicate MAX_MESSAGES
    (mkCANIDMAP 0 (replicate MAX_ITEMS_PER_MESSAGE (mkCANPOS 0 0 0 0 0))).

Definition empty_map : list CANIDMAP := ClearMap zeroed_map.

(** [1.0f] *)
Definition gain_one : Z := 0x3f800000.

(** A table whose first message, [0x100], holds [MAX_ITEMS_PER_MESSAGE]
    one-bit fields of the parameters [0 .. 9]. *)
Definition full_message : CANIDMAP :=
  mkCANIDMAP 0x100
    ((fun k => mkCANPOS k 0 gain_one k 1) <$> seqZ 0 (Z.of_nat MAX_ITEMS_PER_MESSAGE)).

Definition full_map : list CANIDMAP := full_message :: drop 1 empty_map.

(** [n] calls [Add (canMap, k, canId, k, 1, 1.0f, 0)], [k = 0 .. n - 1]. *)
Fixpoint add_fields (n : nat) (canId : Z) (canMap : list CANIDMAP)
    : result (Z * list CANIDMAP) :=
  match n with
  | O => Ok (0, canMap)
  | S k =>
      do rt <- add_fields k canId canMap;
      Add (snd rt) (Z.of_nat k) canId (Z.of_nat k) 1 gain_one 0
  end.

#[global] Instance fault_eq_dec : EqDecision fault.
Proof. solve_decision. Defined.

#[global] Instance result_eq_dec {A : Type} `{EqDecision A} : EqDecision (result A).
Proof. solve_decision. Defined.

(** ** The round trip the spec asks of the field codec

    "encode a value V with gain G and translation T at offset O width W,
    decode the resulting payload, recovers V to within the fixed-point
    rounding of one unit".  [fixed_of] is V as a fixed-point number
    ([FP_FROMFLT]); the tolerance is taken at its widest, one whole unit
    ([2 ^ frac] steps of the fixed-point scale). *)
Definition fixed_of (frac : Z) (fval : spec_float) : result Z :=
  B32.to_s32 (B32.mul fval (B32.of_Z (2 ^ frac))).

Definition recovers_within_unit (frac : Z) (curPos : CANPOS) (fval : spec_float)
    : Prop :=
  match encode_field (0, 0) curPos fval with
  | Ok data =>
      match decode_field frac data curPos, fixed_of frac fval with
      | Ok val, Ok v => Z.abs (val - v) <= 2 ^ frac
      | _, _ => False
      end
  | Undefined _ => False
  end.

(** ** Views of the transmit queue and of the mailbox oracle *)

(** The queued frames, bottom of the stack first. *)
Definition pending (c : Can) : list SENDBUFFER :=
  take (sendCnt c) (sendBuffer c).

(** What the next call of [can_transmit] returns. *)
Definition next_answer (hw : CanHw) : Z := default (-1) (head (mbox hw)).

(** How many of the coming calls of [can_transmit] are accepted before
    the first rejection, among the first [n]. *)
Definition accepted (n : nat) (hw : CanHw) : nat :=
  length (take_while (fun r => 0 <=? r) (take n (mbox hw))).

(** A [Can] object right after construction on erased flash: both tables
    empty, nothing queued, node 1; [answers] is the mailbox oracle. *)
Definition can0 (answers : list Z) : Can :=
  mkCan empty_map empty_map
        (replicate SENDBUFFER_LEN (mkSENDBUFFER 0 0 (0, 0))) 0 1 false
        (mkCanHw answers [] false).

(** A parameter store with four parameters, valued [s32fp], whose unique
    ids are the numbers [100 .. 103]; [Param_Set] accepts every value. *)
Definition example_params : Params := {|
  PARAM_LAST := 4;
  pstore := list Z;
  Param_Set := fun ps p v =>
    if (0 <=? p) && (p <? 4) then (0, <[ Z.to_nat p := v ]> ps) else (-1, ps);
  Param_SetFixed := fun ps p v => ps;
  Param_Get := fun ps p => default 0 (ps !! Z.to_nat p);
  Param_GetFloat := fun ps p => B32.of_Z (default 0 (ps !! Z.to_nat p));
  Param_IsParam := fun p => (0 <=? p) && (p <? 4);
  Param_NumFromId := fun id => if (100 <=? id) && (id <? 104) then id - 100 else 4;
  Param_AttribId := fun p => p + 100
|}.

(** ** Shape and contents of a table *)

(** The arrays have their declared sizes. *)
Definition table_shape (canMap : list CANIDMAP) : Prop :=
  length canMap = MAX_MESSAGES /\
  Forall (fun m => length (items m) = MAX_ITEMS_PER_MESSAGE) canMap.

(** The active field mappings of a table that are bound to [param], in
    the order [FindMap] and [CopyIdMapExcept] meet them. *)
Definition mapped_items (param : Z) (canMap : list CANIDMAP) : list CANPOS :=
  curMap ← forEachCanMap canMap;
  filter (fun p => mapParam p = param) (forEachPosMap curMap).

(** What [CopyIdMapExcept] keeps of a message, *)
Definition keep (param : Z) (m : CANIDMAP) : list CANPOS :=
  filter (fun p => mapParam p <> param) (forEachPosMap m).

(** and of a list of messages: identifier and kept items of each message
    of which an item is kept. *)
Definition kept (param : Z) (maps : list CANIDMAP) : list (Z * list CANPOS) :=
  omap (fun m => if decide (keep param m = []) then None
                 else Some (canId m, keep param m)) maps.

(** [dest[i].canId = id] after [dest[i].items[0 ..] = l]. *)
Definition put_msg (e : Z * list CANPOS) (m : CANIDMAP) : CANIDMAP :=
  mkCANIDMAP (fst e) (snd e ++ drop (length (snd e)) (items m)).

(** The messages [ks] written over the first elements of [dest]. *)
Definition placed (ks : list (Z * list CANPOS)) (dest : list CANIDMAP)
    : list CANIDMAP :=
  zip_with put_msg ks dest ++ drop (length ks) dest.

(** What [ClearMap] makes of one message. *)
Definition clear_msg (m : CANIDMAP) : CANIDMAP :=
  mkCANIDMAP CANID_UNSET (set_numBits 0 <$> items m).

(** A table in the state [Clear], [Remove] and [Add] with a width of at
    least one leave it in: in every message the active fields come first
    and the other slots hold [numBits = 0]; every active message holds an
    active field; the messages after the active ones are unused
    ([CANID_UNSET], no field). *)
Definition tidy_items (l : list CANPOS) : Prop :=
  Forall (fun p => numBits p = 0) (drop (length (take_while pos_active l)) l).

Definition tidy (canMap : list CANIDMAP) : Prop :=
  Forall (fun m => tidy_items (items m)) canMap /\
  Forall (fun m => forEachPosMap m <> []) (forEachCanMap canMap) /\
  Forall (fun m => canId m = CANID_UNSET /\ Forall (fun p => numBits p = 0) (items m))
         (drop (length (forEachCanMap canMap)) canMap).

(** The send table after [AddSend (1, 0x100, 0, 8, 1.0f)],
    [AddSend (2, 0x100, 8, 8, 1.0f)] and [AddSend (1, 0x200, 0, 16, 1.0f)]. *)
Definition two_message_map : list CANIDMAP :=
  set_item 1 0 (mkCANPOS 1 0 gain_one 0 16)
    (alter (set_canId 0x200) 1%nat
       (set_item 0 1 (mkCANPOS 2 0 gain_one 8 8)
          (set_item 0 0 (mkCANPOS 1 0 gain_one 0 8)
             (alter (set_canId 0x100) 0%nat empty_map)))).

(** The send table after [AddSend (1, 0x100, 0, 0, 1.0f)] on an empty
    table: the message [0x100] is allocated and holds no active field. *)
Definition fieldless_map : list CANIDMAP :=
  set_item 0 0 (mkCANPOS 1 0 gain_one 0 0)
    (alter (set_canId 0x100) 0%nat empty_map).

Definition can_with (s r : list CANIDMAP) : Can := with_maps s r (can0 []).

(** The fields of an item hold values of their C types. *)
Definition CANPOS_typed (p : CANPOS) : Prop :=
  0 <= mapParam p < 2 ^ 16 /\ - 2 ^ 15 <= offset p < 2 ^ 15 /\
  0 <= offsetBits p < 2 ^ 8 /\ - 2 ^ 7 <= numBits p < 2 ^ 7.

Definition table_typed (canMap : list CANIDMAP) : Prop :=
  Forall (fun m => Forall CANPOS_typed (items m)) canMap.

(** The parameters of the active field mappings of a table. *)
Definition active_params (canMap : list CANIDMAP) : list Z :=
  mapParam <$> (forEachCanMap canMap ≫= forEachPosMap).

(** A stand-in for the checksum unit, for examples. *)
Definition example_crc : Crc := {|
  crc_reset_value := 0xffffffff;
  crc_feed := fun dr w => (dr * 33 + w + 1) mod 2 ^ 32
|}.

(** Erased flash. *)
Definition erased_flash : nat -> Z := fun _ => 0xffffffff.

#[global] Instance CANPOS_typed_dec (p : CANPOS) : Decision (CANPOS_typed p).
Proof. unfold CANPOS_typed. apply _. Defined.

#[global] Instance table_shape_dec (canMap : list CANIDMAP) :
  Decision (table_shape canMap).
Proof. unfold table_shape. apply _. Defined.


(** ** Notions used in the statements *)

(** [e] is the first element of [canMap] whose identifier is [id]. *)
Definition first_with_id (canMap : list CANIDMAP) (id : Z) (e : nat) (m : CANIDMAP)
    : Prop :=
  canMap !! e = Some m /\ canId m = id /\
  forall k m', canMap !! k = Some m' -> (k < e)%nat -> canId m' <> id.

(** [j] is the first element of [l] with [numBits <= 0]. *)
Definition first_free (l : list CANPOS) (j : nat) (p : CANPOS) : Prop :=
  l !! j = Some p /\ numBits p <= 0 /\
  forall k q, l !! k = Some q -> (k < j)%nat -> 0 < numBits q.

(** The number of messages [forEachCanMap] visits. *)
Definition active_messages (canMap : list CANIDMAP) : Z :=
  Z.of_nat (length (forEachCanMap canMap)).

(** The number of items a pass over [maps] removes. *)
Definition removed_in (param : Z) (maps : list CANIDMAP) : Z :=
  Z.of_nat (length (curMap ← maps;
                    filter (fun p => mapParam p = param) (forEachPosMap curMap))).

(** An entry [CopyIdMapExcept] writes: an active identifier with at least
    one item, all of them active and bound to other parameters. *)
Definition good_entry (param : Z) (e : Z * list CANPOS) : Prop :=
  fst e < CANID_UNSET /\ snd e <> [] /\
  Forall (fun p => pos_active p = true) (snd e) /\
  Forall (fun p => mapParam p <> param) (snd e) /\
  (length (snd e) <= MAX_ITEMS_PER_MESSAGE)%nat.

(** What [ReplaceParamEnumByUid] and [ReplaceParamUidByEnum] do to one
    item and to one message. *)
Definition replace_item (f : Z -> Z) (p : CANPOS) : CANPOS :=
  set_mapParam (f (mapParam p)) p.

Definition replace_msg (f : Z -> Z) (m : CANIDMAP) : CANIDMAP :=
  set_items (for_upto (length (forEachPosMap m)) (replace_item f) (items m)) m.

(** ** The invariant of a message table

    Each identifier other than [CANID_UNSET] occurs once; no message
    after the ones [forEachCanMap] visits is active; in each message no
    item after the ones [forEachPosMap] visits is active. *)
Definition ids_unique (canMap : list CANIDMAP) : Prop :=
  NoDup (filter (fun id => id <> CANID_UNSET) (canId <$> canMap)).

Definition messages_packed (canMap : list CANIDMAP) : Prop :=
  Forall (fun m => msg_active m = false)
         (drop (length (forEachCanMap canMap)) canMap).

Definition fields_packed (m : CANIDMAP) : Prop :=
  Forall (fun p => pos_active p = false)
         (drop (length (forEachPosMap m)) (items m)).

Definition table_invariant (canMap : list CANIDMAP) : Prop :=
  ids_unique canMap /\ messages_packed canMap /\ Forall fields_packed canMap.

#[global] Instance fields_packed_dec (m : CANIDMAP) : Decision (fields_packed m).
Proof. unfold fields_packed. apply _. Defined.

#[global] Instance table_invariant_dec (canMap : list CANIDMAP) :
  Decision (table_invariant canMap).
Proof. unfold table_invariant, ids_unique, messages_packed. apply _. Defined.

(** ** Can::IterateCanMap

    The calls of [callback], in order: [(param, canId, offsetBits,
    numBits, gain, rx)].  The callback takes the identifier as [int]. *)
Definition visit_map (rx : bool) (canMap : list CANIDMAP)
    : list (Z * Z * Z * Z * Z * bool) :=
  curMap ← forEachCanMap canMap;
  curPos ← forEachPosMap curMap;
  [(mapParam curPos, s32 (canId curMap), offsetBits curPos, numBits curPos,
    gain curPos, rx)].

Definition IterateCanMap (c : Can) : list (Z * Z * Z * Z * Z * bool) :=
  visit_map false (canSendMap c) ++ visit_map true (canRecvMap c).

(** ** Can::SDOWrite

    [remoteNodeId] and [subIndex] are [uint8_t], [index] is [uint16_t],
    [data] is [uint32_t]; the frame goes out through [Send (canId, data)],
    that is with length 8. *)
Definition SDOWrite (c : Can) (remoteNodeId index subIndex data : Z) : Can :=
  Send c (0x600 + u8 remoteNodeId)
       (data_of_CAN_SDO (mkCAN_SDO SDO_WRITE (u16 index) (u8 subIndex) (u32 data)))
       8.

(** ** Can::HandleRx, for the frames [can_receive] delivers in one call

    A frame is [(id, length, data)]; the result lists the calls of
    [recvCallback] in order. *)
Section WithParams3.
Context `{Params}.

Fixpoint HandleRx (frac : Z) (c : Can) (ps : pstore)
    (frames : list (Z * Z * (Z * Z)))
    : result (Can * pstore * list (Z * (Z * Z))) :=
  match frames with
  | [] => Ok (c, ps, [])
  | (id, len, data) :: rest =>
      do (cp, call) <- HandleRx_frame frac c ps id len data;
      do (cp1, calls) <- HandleRx frac (fst cp) (snd cp) rest;
      Ok (cp1, from_option (fun x => [x]) [] call ++ calls)
  end.

End WithParams3.

(** ** Can::RegisterUserMessage, Can::SetFilterBank, Can::ConfigureFilters *)

Definition IDS_PER_BANK : nat := 4.

(** Modelled from the spec: the hardware transport primitive
    (libopencm3's [can_filter_id_list_16bit_init]) is not among the
    sources.  "program N four-identifier filter banks": a call is kept
    with its arguments, the bank number, the four 16-bit identifier
    patterns, the FIFO the bank feeds and the enable flag. *)
Record FilterBank : Type := mkFilterBank {
  bank_nr : Z;
  bank_ids : list Z;
  bank_fifo : Z;
  bank_enable : bool
}.

#[global] Instance FilterBank_eq_dec : EqDecision FilterBank.
Proof. solve_decision. Defined.

(** The locals [idIndex], [filterId] and [idList] of [ConfigureFilters],
    which [SetFilterBank] takes by reference, and the banks programmed so
    far. *)
Record FilterState : Type := mkFilterState {
  idIndex : nat;
  filterId : Z;
  idList : list Z;
  banks : list FilterBank
}.

(** [idList[k] << 5] is passed as a [uint16_t]. *)
Definition left_align (id : Z) : Z := u16 (Z.shiftl id 5).

Definition SetFilterBank (s : FilterState) : FilterState :=
  mkFilterState 0 (filterId s + 1) (replicate IDS_PER_BANK 0)
    (banks s ++ [mkFilterBank (filterId s) (left_align <$> idList s)
                              (Z.land (filterId s) 1) true]).

(** The body of the two loops: [idList[idIndex] = id; idIndex++;
    if (idIndex == IDS_PER_BANK) SetFilterBank (...)].  [idList] is an
    array of [uint16_t]. *)
Definition add_filter_id (s : FilterState) (id : Z) : FilterState :=
  let s1 := mkFilterState (S (idIndex s)) (filterId s)
                          (<[ idIndex s := u16 id ]> (idList s)) (banks s) in
  if decide (idIndex s1 = IDS_PER_BANK) then SetFilterBank s1 else s1.

(** The members [userIds] and [nextUserMessageIndex]. *)
Record UserIds : Type := mkUserIds {
  userIds : list Z;
  nextUserMessageIndex : nat
}.

(** The identifiers the two loops of [ConfigureFilters] visit. *)
Definition listened_ids (c : Can) (u : UserIds) : list Z :=
  take (nextUserMessageIndex u) (userIds u)
  ++ (canId <$> forEachCanMap (canRecvMap c)).

(** [first] is the initial [filterId]: [0] for [CAN1], the start bank of
    [CAN2] read from [CAN_FMR] otherwise.  The result lists the banks
    programmed, in order. *)
Definition ConfigureFilters (first : Z) (c : Can) (u : UserIds) : list FilterBank :=
  let s0 := mkFilterState 1 first
              (<[ 0%nat := u16 (0x600 + nodeId c) ]> (replicate IDS_PER_BANK 0)) [] in
  let s1 := foldl add_filter_id s0 (listened_ids c u) in
  banks (if (0 <? idIndex s1)%nat then SetFilterBank s1 else s1).

(** [canId] is [int]; the result is the returned flag, the members and
    the banks [ConfigureFilters] programmed. *)
Definition RegisterUserMessage (first : Z) (c : Can) (u : UserIds) (canId : Z)
    : bool * UserIds * list FilterBank :=
  if (nextUserMessageIndex u <? MAX_USER_MESSAGES)%nat then
    let u1 := mkUserIds (<[ nextUserMessageIndex u := u16 canId ]> (userIds u))
                        (S (nextUserMessageIndex u)) in
    (true, u1, ConfigureFilters first c u1)
  else (false, u, []).

(** A freshly constructed object's user list. *)
Definition no_users : UserIds := mkUserIds (replicate MAX_USER_MESSAGES 0) 0.

(** The identifiers are values of [uint32_t]. *)
Definition ids_typed (canMap : list CANIDMAP) : Prop :=
  Forall (fun m => 0 <= canId m < 2 ^ 32) canMap.

#[global] Instance ids_typed_dec (canMap : list CANIDMAP) :
  Decision (ids_typed canMap).
Proof. unfold ids_typed. apply _. Defined.

Definition id_active (id : Z) : bool := id <? CANID_UNSET.

(** What a table holds: the active messages, each with its identifier
    and its active items. *)
Definition contents (canMap : list CANIDMAP) : list (Z * list CANPOS) :=
  (fun m => (canId m, forEachPosMap m)) <$> forEachCanMap canMap.

#[global] Instance ids_unique_dec (canMap : list CANIDMAP) :
  Decision (ids_unique canMap).
Proof. unfold ids_unique. apply _. Defined.

(** A mapping added to what a table holds: at the end of the first
    message with the identifier, or as a new last message. *)
Fixpoint add_content (id : Z) (item : CANPOS) (cs : list (Z * list CANPOS))
    : list (Z * list CANPOS) :=
  match cs with
  | [] => [(id, [item])]
  | e :: cs' =>
      if decide (fst e = id) then (fst e, snd e ++ [item]) :: cs'
      else e :: add_content id item cs'
  end.

#[global] Instance tidy_dec (canMap : list CANIDMAP) : Decision (tidy canMap).
Proof. unfold tidy, tidy_items. apply _. Defined.

(** What [FindMap] reports of the mappings of [param] among what a table
    holds, in order. *)
Definition hits (param : Z) (cs : list (Z * list CANPOS)) : list (Z * Z * Z * Z) :=
  e ← cs;
  (fun p => (s32 (fst e), offsetBits p, numBits p, gain p)) <$>
    filter (fun p => mapParam p = param) (snd e).


(** ** Further notions used in the statements *)

(** A call of the callback of [IterateCanMap]: its parameter, and the
    call made for an item of a message. *)
Definition visited_param (v : Z * Z * Z * Z * Z * bool) : Z :=
  fst (fst (fst (fst (fst v)))).

Definition visit_of (rx : bool) (mp : CANIDMAP * CANPOS) : Z * Z * Z * Z * Z * bool :=
  (mapParam (snd mp), s32 (canId (fst mp)), offsetBits (snd mp),
   numBits (snd mp), gain (snd mp), rx).

(** A bank as [SetFilterBank] programs it. *)
Definition bank_ok (b : FilterBank) : Prop :=
  length (bank_ids b) = IDS_PER_BANK /\
  bank_fifo b = Z.land (bank_nr b) 1 /\ bank_enable b = true.

(** The state of the loops of [ConfigureFilters] after the identifiers
    [ids] (the one of the SDO requests included). *)
Definition filter_inv (first : Z) (ids : list Z) (s : FilterState) : Prop :=
  length (idList s) = IDS_PER_BANK /\ (idIndex s < IDS_PER_BANK)%nat /\
  Forall (fun x => x = 0) (drop (idIndex s) (idList s)) /\
  filterId s = first + Z.of_nat (length (banks s)) /\
  bank_nr <$> banks s = seqZ first (Z.of_nat (length (banks s))) /\
  Forall bank_ok (banks s) /\
  (length (banks s) * IDS_PER_BANK + idIndex s = length ids)%nat /\
  concat (bank_ids <$> banks s) ++ (left_align <$> take (idIndex s) (idList s))
  = left_align <$> ids.

(** The members of a [CAN_SDO] hold values of their types. *)
Definition CAN_SDO_typed (sdo : CAN_SDO) : Prop :=
  0 <= cmd sdo < 2 ^ 8 /\ 0 <= index sdo < 2 ^ 16 /\
  0 <= subIndex sdo < 2 ^ 8 /\ 0 <= sdo_data sdo < 2 ^ 32.

(** The frame is not an SDO request for this node. *)
Definition not_sdo_request (c : Can) (f : Z * Z * (Z * Z)) : Prop :=
  ~ (fst (fst f) = 0x600 + nodeId c /\ snd (fst f) = 8).

(** The message holds no active field. *)
Definition no_field (m : CANIDMAP) : bool := bool_decide (forEachPosMap m = []).

(** [Send (canId, data)] of an all-zero payload for each of [maps]. *)
Definition send_empty (c : Can) (maps : list CANIDMAP) : Can :=
  foldl (fun c m => Send c (canId m) (0, 0) 8) c maps.

(** What a message holds. *)
Definition content_of (m : CANIDMAP) : Z * list CANPOS :=
  (canId m, forEachPosMap m).

(** ** The tables as memory

    [Add] scans [freeItem->numBits] with no bound of its own, and the
    language gives no meaning to an access past [items].  On the target
    a table is contiguous memory, and the element after
    [canMap[i].items[MAX_ITEMS_PER_MESSAGE - 1]] is the start of
    [canMap[i + 1]].  The definitions below follow [ClearMap],
    [FindById] and [Add] on a table as the 32-bit words of its memory
    (little endian, natural alignment: the layout [read_maps] decodes).
    A pointer to a message or to an item is the index of its first word,
    and only an access outside the words of the table is left without a
    result. *)
Definition mem_word (mem : list Z) (k : nat) : result Z :=
  match mem !! k with
  | Some w => Ok w
  | None => Undefined OutOfBounds
  end.

(** [&canMap[i]] and [&canMap[i].items[j]] *)
Definition mem_message (i : nat) : nat := (i * CANIDMAP_WORDS)%nat.
Definition mem_item (i j : nat) : nat := (mem_message i + 1 + 3 * j)%nat.

(** [p->numBits], the second byte of the third word of the item at [p]. *)
Definition mem_numBits (mem : list Z) (p : nat) : result Z :=
  do w2 <- mem_word mem (p + 2);
  Ok (s8 (w2 / 2 ^ 8)).

(** [p->numBits = n]: the other three bytes of the word stay. *)
Definition mem_set_numBits (n : Z) (p : nat) (mem : list Z) : list Z :=
  alter (fun w2 => w2 mod 2 ^ 8 + 2 ^ 8 * u8 n + 2 ^ 16 * (w2 / 2 ^ 16))
        (p + 2)%nat mem.

Definition ClearMap_mem (mem : list Z) : list Z :=
  foldl (fun mem i =>
           foldl (fun mem j => mem_set_numBits 0 (mem_item i j) mem)
                 (<[ mem_message i := CANID_UNSET ]> mem)
                 (seq 0 MAX_ITEMS_PER_MESSAGE))
        mem (seq 0 MAX_MESSAGES).

Definition FindById_mem (mem : list Z) (id : Z) : option nat :=
  snd <$> list_find (fun i => mem !! mem_message i = Some id) (seq 0 MAX_MESSAGES).

(** [for (; freeItem->numBits > 0; freeItem++);] from the item at [p].
    Every step moves three words on, so [length mem] steps leave the
    table. *)
Fixpoint mem_free_item (steps : nat) (mem : list Z) (p : nat) : result nat :=
  do n <- mem_numBits mem p;
  if 0 <? n then
    match steps with
    | O => Undefined OutOfBounds
    | S steps' => mem_free_item steps' mem (p + 3)
    end
  else Ok p.

(** The five stores into [*freeItem]; the two padding bytes of the item
    are not written. *)
Definition mem_store_item (p : nat) (param offset gain offsetBits length : Z)
    (mem : list Z) : list Z :=
  alter (fun w2 => u8 offsetBits + 2 ^ 8 * u8 length + 2 ^ 16 * (w2 / 2 ^ 16))
        (p + 2)%nat
        (<[ (p + 1)%nat := gain ]>
           (<[ p := u16 param + 2 ^ 16 * u16 offset ]> mem)).

(** [forEachCanMap(curMap, canMap) count++;] *)
Definition mem_count (mem : list Z) : nat :=
  length (take_while (fun i => match mem !! mem_message i with
                               | Some w => w <? CANID_UNSET
                               | None => false
                               end)
                     (seq 0 MAX_MESSAGES)).

Definition Add_mem (mem : list Z) (param canId offsetBits length gain offset : Z)
    : result (Z * list Z) :=
  if 0x1fffffff <? canId then Ok (CAN_ERR_INVALID_ID, mem)
  else if 63 <? offset then Ok (CAN_ERR_INVALID_OFS, mem)
  else if 32 <? length then Ok (CAN_ERR_INVALID_LEN, mem)
  else
    let found :=
      match FindById_mem mem (u32 canId) with
      | Some i => Some (i, mem)
      | None =>
          match FindById_mem mem CANID_UNSET with
          | Some i => Some (i, <[ mem_message i := u32 canId ]> mem)
          | None => None
          end
      end in
    match found with
    | None => Ok (CAN_ERR_MAXMESSAGES, mem)
    | Some (i, mem1) =>
        do p <- mem_free_item (List.length mem1) mem1 (mem_item i 0);
        do n <- mem_numBits mem1 p;
        if n =? NUMBITS_LASTMARKER then Ok (CAN_ERR_MAXITEMS, mem1)
        else
          let mem2 := mem_store_item p param offset gain offsetBits length mem1 in
          Ok (Z.of_nat (mem_count mem2), mem2)
    end.

(** [n] calls [Add (canMap, k, canId, k, 1, 1.0f, 0)], [k = 0 .. n - 1]. *)
Fixpoint add_fields_mem (n : nat) (canId : Z) (mem : list Z) : result (Z * list Z) :=
  match n with
  | O => Ok (0, mem)
  | S k =>
      do rt <- add_fields_mem k canId mem;
      Add_mem (snd rt) (Z.of_nat k) canId (Z.of_nat k) 1 gain_one 0
  end.

(** The memory of a table in zero-initialised storage after [ClearMap]. *)
Definition cleared_mem : list Z :=
  ClearMap_mem (replicate (MAX_MESSAGES * CANIDMAP_WORDS) 0).

(** * Properties *)

(** * Properties *)

(** ** Lists *)

Lemma take_while_all {A} (f : A -> bool) (l : list A) :
  Forall (fun x => f x = true) l -> take_while f l = l.
Proof.
  induction 1 as [|x l Hx _ IH]; simpl; [done|]. by rewrite Hx, IH.
Qed.

Lemma take_while_app {A} (f : A -> bool) (l1 l2 : list A) :
  Forall (fun x => f x = true) l1 ->
  take_while f (l1 ++ l2) = l1 ++ take_while f l2.
Proof.
  induction 1 as [|x l Hx _ IH]; simpl; [done|]. by rewrite Hx, IH.
Qed.

Lemma take_while_Forall {A} (f : A -> bool) (l : list A) :
  Forall (fun x => f x = true) (take_while f l).
Proof.
  induction l as [|x l IH]; simpl; [constructor|].
  destruct (f x) eqn:Hx; constructor; done.
Qed.

Lemma take_while_length {A} (f : A -> bool) (l : list A) :
  (length (take_while f l) <= length l)%nat.
Proof.
  induction l as [|x l IH]; simpl; [lia|]. destruct (f x); simpl; lia.
Qed.

Lemma take_while_stop {A} (f : A -> bool) (l1 l2 : list A) (x : A) :
  Forall (fun x => f x = true) l1 -> f x = false ->
  take_while f (l1 ++ x :: l2) = l1.
Proof.
  intros H1 Hx. rewrite take_while_app by done. simpl. rewrite Hx.
  by rewrite app_nil_r.
Qed.

(** ** Can::FindById and the scan of Can::Add *)

Lemma FindById_Some canMap id e :
  length canMap = MAX_MESSAGES ->
  FindById canMap id = Some e <-> exists m, first_with_id canMap id e m.
Proof.
  intros Hlen. unfold FindById, first_with_id.
  rewrite firstn_all2 by lia.
  split.
  - intros Hf. apply fmap_Some in Hf as [[e' m] [Hf ->]]. simpl.
    apply list_find_Some in Hf as (Hl & Hid & Hbefore). eauto.
  - intros (m & Hl & Hid & Hbefore).
    apply fmap_Some. exists (e, m). split; [|done].
    apply list_find_Some. eauto.
Qed.

Lemma FindById_None canMap id :
  length canMap = MAX_MESSAGES ->
  FindById canMap id = None <-> forall m, m ∈ canMap -> canId m <> id.
Proof.
  intros Hlen. unfold FindById. rewrite firstn_all2 by lia.
  rewrite fmap_None, list_find_None, Forall_forall. done.
Qed.

Lemma first_free_find l j p :
  first_free l j p <-> list_find (fun p => numBits p <= 0) l = Some (j, p).
Proof.
  unfold first_free. rewrite list_find_Some.
  split; intros (?&?&Hb); repeat split; try done.
  - intros k q Hk Hlt. specialize (Hb k q Hk Hlt). simpl in Hb. lia.
  - intros k q Hk Hlt. specialize (Hb k q Hk Hlt). simpl. lia.
Qed.

Lemma no_free_find l :
  Forall (fun p => 0 < numBits p) l ->
  list_find (fun p => numBits p <= 0) l = None.
Proof.
  intros Hall. apply list_find_None. eapply Forall_impl; [exact Hall|].
  simpl. intros. lia.
Qed.

(** ** Can::Add: the validation *)

(** Add answers [CAN_ERR_INVALID_OFS] exactly when the identifier passes
    and the translation [offset] exceeds 63, whatever [offsetBits] is. *)
Lemma Add_INVALID_OFS_iff canMap param cid obits len g ofs :
  (exists t, Add canMap param cid obits len g ofs
             = Ok (CAN_ERR_INVALID_OFS, t))
  <-> cid <= 0x1fffffff /\ 63 < ofs.
Proof.
  unfold Add.
  destruct (Z.ltb_spec 0x1fffffff cid) as [Hid|Hid].
  { split; [intros [t Ht]; discriminate | lia]. }
  destruct (Z.ltb_spec 63 ofs) as [Hofs|Hofs].
  { split; [lia | eauto]. }
  split; [|lia]. intros [t Ht]. exfalso. revert Ht.
  destruct (Z.ltb_spec 32 len); [discriminate|].
  repeat case_match; intros Ht; try discriminate.
  all: injection Ht as Hr _; unfold CAN_ERR_INVALID_OFS in Hr; lia.
Qed.

(** C1 (code defect).  On an empty table [Add] accepts a field at bit
    offset 64: it stores [offsetBits = 64] in the first slot of a new
    message and returns the message count 1, where the claim has
    InvalidOffset.  The guard [offset > 63] reads the translation
    argument: the same call with bit offset 0 and translation 64 is the
    one that is answered with [CAN_ERR_INVALID_OFS]. *)
Theorem Add_offsetBits_64_accepted :
  Add empty_map 5 0x100 64 8 gain_one 0
  = Ok (1, set_item 0 0 (mkCANPOS 5 0 gain_one 64 8)
             (alter (set_canId 0x100) 0%nat empty_map))
  /\ Add empty_map 5 0x100 0 8 gain_one 64 = Ok (CAN_ERR_INVALID_OFS, empty_map).
Proof. split; vm_compute; reflexivity. Qed.

(** ** Can::Add: a message whose field array is full *)

Lemma Add_full_message canMap param cid obits len g ofs e m :
  length canMap = MAX_MESSAGES ->
  cid <= 0x1fffffff -> ofs <= 63 -> len <= 32 ->
  first_with_id canMap (u32 cid) e m ->
  Forall (fun p => 0 < numBits p) (items m) ->
  Add canMap param cid obits len g ofs = Undefined OutOfBounds.
Proof.
  intros Hlen Hid Hofs Hl Hfirst Hfull. unfold Add.
  destruct (Z.ltb_spec 0x1fffffff cid); [lia|].
  destruct (Z.ltb_spec 63 ofs); [lia|].
  destruct (Z.ltb_spec 32 len); [lia|].
  assert (FindById canMap (u32 cid) = Some e) as ->
    by (apply FindById_Some; eauto).
  destruct Hfirst as (-> & _ & _).
  by rewrite no_free_find.
Qed.

(** The table [full_map] is what ten calls of [Add] for the identifier
    [0x100] leave of an empty table. *)
Lemma full_map_reached : add_fields 10 0x100 empty_map = Ok (1, full_map).
Proof. vm_compute. reflexivity. Qed.

(** C2 (code defect).  The message [0x100] of [full_map] holds
    [MAX_ITEMS_PER_MESSAGE] active fields.  One more [Add] for [0x100]
    does not return [CAN_ERR_MAXITEMS]: no element of [items] stops the
    scan, which reads [items[MAX_ITEMS_PER_MESSAGE]], past the end of the
    array. *)
Theorem Add_to_full_message_leaves_items :
  Forall (fun p => 0 < numBits p) (items full_message)
  /\ length (items full_message) = MAX_ITEMS_PER_MESSAGE
  /\ Add full_map 77 0x100 10 1 gain_one 0 = Undefined OutOfBounds.
Proof.
  split; [|split].
  - vm_compute. repeat constructor.
  - reflexivity.
  - vm_compute. reflexivity.
Qed.

(** ** Can::Add: calls with a valid identifier, width and bit offset *)

(** C5 (code defect, the one of C1).  In [two_message_map] the
    identifier [0x100] is the one of message 0, and [0x300] is in no
    message while slot 2 is the first unused one.  The calls
    [Add (3, 0x100, 16, 8, 1.0f, 64)] and [Add (3, 0x300, 16, 8, 1.0f, 64)]
    have a valid identifier, width and bit offset.  The first is not
    appended to the message [0x100] and the second allocates no slot:
    both return [CAN_ERR_INVALID_OFS] and leave the table as it was,
    because the guard [offset > 63] reads the translation.  With the
    translation 63 the same calls are served as the claim has it, and
    return the number of active messages. *)
Theorem Add_valid_call_rejected :
  FindById two_message_map 0x100 = Some 0%nat
  /\ Add two_message_map 3 0x100 16 8 gain_one 64
     = Ok (CAN_ERR_INVALID_OFS, two_message_map)
  /\ FindById two_message_map 0x300 = None
  /\ FindById two_message_map CANID_UNSET = Some 2%nat
  /\ Add two_message_map 3 0x300 16 8 gain_one 64
     = Ok (CAN_ERR_INVALID_OFS, two_message_map)
  /\ (exists t,
        Add two_message_map 3 0x100 16 8 gain_one 63 = Ok (2, t)
        /\ content_of <$> forEachCanMap t
           = [(0x100, [mkCANPOS 1 0 gain_one 0 8; mkCANPOS 2 0 gain_one 8 8;
                       mkCANPOS 3 63 gain_one 16 8]);
              (0x200, [mkCANPOS 1 0 gain_one 0 16])])
  /\ (exists t,
        Add two_message_map 3 0x300 16 8 gain_one 63 = Ok (3, t)
        /\ content_of <$> forEachCanMap t
           = [(0x100, [mkCANPOS 1 0 gain_one 0 8; mkCANPOS 2 0 gain_one 8 8]);
              (0x200, [mkCANPOS 1 0 gain_one 0 16]);
              (0x300, [mkCANPOS 3 63 gain_one 16 8])]).
Proof.
  split; [vm_compute; reflexivity|].
  split; [vm_compute; reflexivity|].
  split; [vm_compute; reflexivity|].
  split; [vm_compute; reflexivity|].
  split; [vm_compute; reflexivity|].
  split; eexists; (split; [vm_compute; reflexivity|]); vm_compute; reflexivity.
Qed.

(** ** The field mask *)

Lemma field_mask_defined n :
  1 <= n <= 30 -> field_mask n = Ok (2 ^ n - 1).
Proof.
  intros Hn.
  assert (Forall (fun n => field_mask n = Ok (2 ^ n - 1)) (seqZ 1 30)) as Hall
    by (apply (bool_decide_unpack _); vm_compute; exact I).
  rewrite Forall_forall in Hall. apply Hall. apply elem_of_seqZ. lia.
Qed.

(** C10 (code defect).  [Add] admits a width of 32 (its check is
    [length > 32]) and stores [numBits = 32]; for that field both the
    encode and the decode path evaluate [1 << 32] on a 32-bit [int],
    which C++ leaves undefined, so no mask [2^32 - 1] is computed. *)
Theorem field_mask_32_undefined :
  Add empty_map 5 0x100 0 32 gain_one 0
  = Ok (1, set_item 0 0 (mkCANPOS 5 0 gain_one 0 32)
             (alter (set_canId 0x100) 0%nat empty_map))
  /\ field_mask 32 = Undefined ShiftRange
  /\ pack_field (0, 0) (mkCANPOS 5 0 gain_one 0 32) 0x12345678 = Undefined ShiftRange
  /\ unpack_field (0x12345678, 0) (mkCANPOS 5 0 gain_one 0 32) = Undefined ShiftRange.
Proof. repeat split; vm_compute; reflexivity. Qed.

(** ** The field codec *)

Lemma to_int_range lo hi f n : B32.to_int lo hi f = Ok n -> lo <= n < hi.
Proof.
  unfold B32.to_int. destruct (B32.trunc f) as [k|]; [|discriminate].
  destruct (Z.leb_spec lo k), (Z.ltb_spec k hi); simpl; intros [=]. lia.
Qed.

Lemma encode_value_range curPos fval val :
  encode_value curPos fval = Ok val -> 0 <= val < 2 ^ 32.
Proof. apply to_int_range. Qed.

(** A field of [w] bits at shift [sh] inside one 32-bit word. *)
Lemma word_field_roundtrip val sh w :
  0 <= sh -> 0 <= w -> sh + w <= 32 ->
  Z.land (Z.shiftr (Z.lor 0 (u32 (Z.shiftl (Z.land val (2 ^ w - 1)) sh))) sh)
         (2 ^ w - 1)
  = val mod 2 ^ w.
Proof.
  intros Hsh Hw Hfit.
  change (2 ^ w - 1) with (Z.pred (2 ^ w)). rewrite <- Z.ones_equiv.
  rewrite !Z.land_ones by lia. rewrite Z.lor_0_l.
  rewrite Z.shiftl_mul_pow2, Z.shiftr_div_pow2 by lia.
  assert (0 <= val mod 2 ^ w < 2 ^ w) as Hv by (apply Z.mod_pos_bound; lia).
  assert (0 < 2 ^ sh) by lia.
  assert (2 ^ w * 2 ^ sh <= 2 ^ 32).
  { rewrite <- Z.pow_add_r by lia. apply Z.pow_le_mono_r; lia. }
  unfold u32. rewrite (Z.mod_small (_ * _)) by nia.
  rewrite Z.div_mul by lia. apply Z.mod_small. lia.
Qed.

Lemma pack_unpack curPos val :
  0 <= offsetBits curPos <= 63 ->
  1 <= numBits curPos <= 30 ->
  offsetBits curPos mod 32 + numBits curPos <= 32 ->
  exists data,
    pack_field (0, 0) curPos val = Ok data /\
    unpack_field data curPos = Ok (val mod 2 ^ numBits curPos).
Proof.
  intros Hofs Hw Hfit. unfold pack_field, unpack_field.
  rewrite field_mask_defined by done. simpl.
  destruct (Z.ltb_spec 31 (offsetBits curPos)) as [Hhi|Hlo].
  - assert (offsetBits curPos mod 32 = offsetBits curPos - 32) as Hm.
    { symmetry. apply Z.mod_unique_pos with (q := 1); lia. }
    unfold shl_u32, shr_u32, shift_ok.
    destruct (Z.leb_spec 0 (offsetBits curPos - 32)); [|lia].
    destruct (Z.ltb_spec (offsetBits curPos - 32) 32); [|lia].
    simpl. eexists. split; [reflexivity|]. simpl. f_equal.
    apply word_field_roundtrip; lia.
  - assert (offsetBits curPos mod 32 = offsetBits curPos) as Hm
      by (apply Z.mod_small; lia).
    unfold shl_u32, shr_u32, shift_ok.
    destruct (Z.leb_spec 0 (offsetBits curPos)); [|lia].
    destruct (Z.ltb_spec (offsetBits curPos) 32); [|lia].
    simpl. eexists. split; [reflexivity|]. simpl. f_equal.
    apply word_field_roundtrip; lia.
Qed.

(** The codec on the integers [0 .. 4095], with gain [1.0f], translation
    0 and 0 to 8 fractional bits, value by value: the encoder's
    arithmetic gives the integer itself, the decoder's arithmetic and the
    conversion to fixed point both give it scaled by [2 ^ frac]. *)
Lemma unit_gain_values :
  forallb (fun k =>
    forallb (fun frac =>
      bool_decide (encode_value (mkCANPOS 0 0 gain_one 0 0) (B32.of_Z k) = Ok k)
      && bool_decide (decode_value frac (mkCANPOS 0 0 gain_one 0 0) k
                      = Ok (k * 2 ^ frac))
      && bool_decide (fixed_of frac (B32.of_Z k) = Ok (k * 2 ^ frac)))
      (seqZ 0 9))
    (seqZ 0 4096) = true.
Proof. vm_compute. reflexivity. Qed.

Lemma unit_gain_codec frac curPos k :
  gain curPos = gain_one -> offset curPos = 0 ->
  0 <= frac <= 8 -> 0 <= k < 4096 ->
  encode_value curPos (B32.of_Z k) = Ok k
  /\ decode_value frac curPos k = Ok (k * 2 ^ frac)
  /\ fixed_of frac (B32.of_Z k) = Ok (k * 2 ^ frac).
Proof.
  intros Hg Ho Hfrac Hk.
  pose proof unit_gain_values as Hall.
  rewrite forallb_forall in Hall.
  assert (Hin : In k (seqZ 0 4096)) by (apply list_elem_of_In, elem_of_seqZ; lia).
  specialize (Hall k Hin). rewrite forallb_forall in Hall.
  assert (Hin' : In frac (seqZ 0 9)) by (apply list_elem_of_In, elem_of_seqZ; lia).
  specialize (Hall frac Hin').
  apply andb_prop in Hall as [Hall H3]. apply andb_prop in Hall as [H1 H2].
  apply bool_decide_eq_true in H1, H2, H3.
  unfold encode_value, decode_value in *. rewrite Hg, Ho. simpl in H1, H2. auto.
Qed.




(** ** The transmit queue *)

Lemma can_transmit_spec hw f :
  can_transmit hw f
  = (next_answer hw,
     mkCanHw (tail (mbox hw))
             (if next_answer hw <? 0 then wire hw else wire hw ++ [f])
             (TMEIE hw)).
Proof.
  unfold can_transmit, next_answer. destruct hw as [[|r rest] w t]; simpl; done.
Qed.

Lemma Send_spec c id data len :
  length (sendBuffer c) = SENDBUFFER_LEN ->
  let f := mkSENDBUFFER id len data in
  let c' := Send c id data len in
  (0 <= next_answer (canDev c) ->
     wire (canDev c') = wire (canDev c) ++ [f] /\
     sendBuffer c' = sendBuffer c /\ sendCnt c' = sendCnt c)
  /\ (next_answer (canDev c) < 0 -> (sendCnt c < SENDBUFFER_LEN)%nat ->
     wire (canDev c') = wire (canDev c) /\ pending c' = pending c ++ [f])
  /\ (next_answer (canDev c) < 0 -> (SENDBUFFER_LEN <= sendCnt c)%nat ->
     wire (canDev c') = wire (canDev c) /\
     sendBuffer c' = sendBuffer c /\ sendCnt c' = sendCnt c)
  /\ TMEIE (canDev c') = bool_decide (0 < sendCnt c')%nat
  /\ mbox (canDev c') = tail (mbox (canDev c)).
Proof.
  intros Hlen f c'. subst c'. unfold Send. fold f.
  rewrite can_transmit_spec.
  change (next_answer (set_TMEIE false (canDev c))) with (next_answer (canDev c)).
  change (wire (set_TMEIE false (canDev c))) with (wire (canDev c)).
  change (mbox (set_TMEIE false (canDev c))) with (mbox (canDev c)).
  destruct (Z.ltb_spec (next_answer (canDev c)) 0) as [Hrej|Hacc]; simpl.
  - destruct (Nat.ltb_spec (sendCnt c) SENDBUFFER_LEN) as [Hroom|Hfull]; simpl.
    + repeat split; try lia.
      * unfold pending. simpl.
        rewrite (take_S_r _ _ f) by (apply list_lookup_insert_eq; lia).
        by rewrite take_insert_ge by lia.
    + destruct (Nat.ltb_spec 0 (sendCnt c)); simpl;
        repeat split; try lia; try done;
        by (symmetry; apply bool_decide_eq_true_2 + apply bool_decide_eq_false_2; lia).
  - destruct (Nat.ltb_spec 0 (sendCnt c)); simpl;
      repeat split; try lia; try done;
      by (symmetry; apply bool_decide_eq_true_2 + apply bool_decide_eq_false_2; lia).
Qed.

Lemma drain_spec b : forall n hw,
  (n <= length b)%nat ->
  let k := accepted n hw in
  exists hw',
    drain b n hw = Ok ((n - k)%nat, hw') /\
    wire hw' = wire hw ++ reverse (drop (n - k) (take n b)) /\
    TMEIE hw' = TMEIE hw /\
    ((0 < n - k)%nat -> next_answer (mkCanHw (drop k (mbox hw)) [] false) < 0).
Proof.
  induction n as [|n IH]; intros hw Hn k.
  - exists hw. subst k. unfold accepted. simpl.
    rewrite app_nil_r. repeat split; try done. lia.
  - destruct (lookup_lt_is_Some_2 b n) as [f Hf]; [lia|].
    simpl. rewrite Hf, can_transmit_spec.
    assert (take (S n) b = take n b ++ [f]) as Htake by by apply take_S_r.
    destruct (Z.leb_spec 0 (next_answer hw)) as [Hacc|Hrej].
    + (* accepted: the top frame leaves, the loop goes on *)
      destruct (Z.ltb_spec (next_answer hw) 0); [lia|].
      destruct hw as [[|r rest] w t]; unfold next_answer in *; simpl in *; [lia|].
      destruct (IH (mkCanHw rest (w ++ [f]) t)) as (hw' & Hd & Hw & Ht & Hnext); [lia|].
      assert (k = S (accepted n (mkCanHw rest (w ++ [f]) t))) as Hk.
      { subst k. unfold accepted. simpl.
        destruct (Z.leb_spec 0 r); [done|lia]. }
      set (k' := accepted n (mkCanHw rest (w ++ [f]) t)) in *.
      assert (k' <= n)%nat.
      { subst k'. unfold accepted. etrans; [apply take_while_length|].
        rewrite length_take. lia. }
      exists hw'. rewrite Hk. simpl. split; [exact Hd|]. split; [|split; [done|]].
      * rewrite Hw. simpl. rewrite Htake.
        rewrite drop_app_le by (rewrite length_take; lia).
        rewrite reverse_app. simpl. by rewrite <- app_assoc.
      * exact Hnext.
    + (* rejected: the loop stops *)
      destruct (Z.ltb_spec (next_answer hw) 0); [|lia].
      assert (k = 0%nat) as ->.
      { subst k. unfold accepted. destruct hw as [[|r rest] w t]; simpl; [done|].
        unfold next_answer in Hrej. simpl in Hrej.
        destruct (Z.leb_spec 0 r); [lia|done]. }
      eexists. split; [reflexivity|]. simpl. split; [|split; [done|]].
      * rewrite drop_ge by (rewrite length_take; lia).
        by rewrite app_nil_r.
      * intros _. rewrite drop_0. exact Hrej.
Qed.

(** C7.  [Send] hands the frame to the hardware first; a rejected frame
    is pushed on top of the pending frames when fewer than
    [SENDBUFFER_LEN] are queued and is dropped otherwise; the
    transmit-complete notification ends enabled exactly when frames are
    pending.  [HandleTx] transmits from the top of the stack: with [k] the
    number of accepted attempts before the first rejection, the last [k]
    frames pushed leave in reverse order of arrival, the others stay, the
    attempt after them (if any frame is left) was rejected, and the
    notification is disabled exactly when no frame is left. *)
Theorem transmit_queue_LIFO c :
  length (sendBuffer c) = SENDBUFFER_LEN ->
  (sendCnt c <= SENDBUFFER_LEN)%nat ->
  (forall id data len,
     let f := mkSENDBUFFER id len data in
     let c' := Send c id data len in
     (0 <= next_answer (canDev c) ->
        wire (canDev c') = wire (canDev c) ++ [f] /\ pending c' = pending c)
     /\ (next_answer (canDev c) < 0 -> (sendCnt c < SENDBUFFER_LEN)%nat ->
        wire (canDev c') = wire (canDev c) /\ pending c' = pending c ++ [f])
     /\ (next_answer (canDev c) < 0 -> sendCnt c = SENDBUFFER_LEN ->
        wire (canDev c') = wire (canDev c) /\ pending c' = pending c)
     /\ TMEIE (canDev c') = bool_decide (pending c' <> []))
  /\ (let k := accepted (sendCnt c) (canDev c) in
      exists c',
        HandleTx c = Ok c' /\
        wire (canDev c') = wire (canDev c) ++ reverse (drop (sendCnt c - k) (pending c)) /\
        pending c' = take (sendCnt c - k) (pending c) /\
        (pending c' <> [] ->
           next_answer (mkCanHw (drop k (mbox (canDev c))) [] false) < 0) /\
        TMEIE (canDev c') = (if bool_decide (pending c' = []) then false
                             else TMEIE (canDev c))).
Proof.
  intros Hlen Hcnt. split.
  - intros id data len f c'.
    destruct (Send_spec c id data len Hlen)
      as (Hacc & Hpush & Hdrop & Hirq & _).
    fold f c' in Hacc, Hpush, Hdrop, Hirq.
    assert (forall c0 : Can, (sendCnt c0 <= length (sendBuffer c0))%nat ->
              pending c0 <> [] <-> (0 < sendCnt c0)%nat) as Hne.
    { intros c0 Hc0. unfold pending. rewrite <- length_zero_iff_nil.
      rewrite length_take. lia. }
    repeat split.
    + apply Hacc; done.
    + unfold pending. destruct (Hacc H) as (_ & -> & ->). done.
    + apply Hpush; done.
    + apply Hpush; done.
    + apply Hdrop; [done|lia].
    + unfold pending. destruct (Hdrop H ltac:(lia)) as (_ & -> & ->). done.
    + rewrite Hirq. apply bool_decide_ext. symmetry. apply Hne.
      subst c'. unfold Send. rewrite can_transmit_spec.
      destruct (_ && _) eqn:Hb; simpl.
      * rewrite length_insert. apply andb_true_iff in Hb as [_ Hb].
        apply Nat.ltb_lt in Hb. lia.
      * lia.
  - intros k. unfold HandleTx.
    destruct (drain_spec (sendBuffer c) (sendCnt c) (canDev c))
      as (hw' & Hd & Hw & Ht & Hnext); [lia|].
    fold k in Hd, Hw, Hnext. rewrite Hd. simpl.
    eexists. split; [reflexivity|]. unfold pending. simpl.
    assert (k <= sendCnt c)%nat.
    { subst k. unfold accepted. etrans; [apply take_while_length|].
      rewrite length_take. lia. }
    assert (take (sendCnt c - k) (take (sendCnt c) (sendBuffer c)) = []
            <-> (sendCnt c - k = 0)%nat) as Hnil.
    { rewrite <- length_zero_iff_nil, !length_take. lia. }
    assert (take (sendCnt c - k) (sendBuffer c)
            = take (sendCnt c - k) (take (sendCnt c) (sendBuffer c))) as Heq
      by (rewrite take_take; f_equal; lia).
    repeat split.
    + destruct (_ =? _)%nat; simpl; exact Hw.
    + exact Heq.
    + intros Hne. apply Hnext. rewrite Heq, Hnil in Hne. lia.
    + rewrite Heq. destruct (Nat.eqb_spec (sendCnt c - k) 0) as [Hz|Hz]; simpl.
      * rewrite bool_decide_eq_true_2; [done|]. by apply Hnil.
      * rewrite bool_decide_eq_false_2; [done|]. by rewrite Hnil.
Qed.

Lemma transmit_queue_LIFO_witness :
  let f1 := mkSENDBUFFER 0x101 8 (1, 0) in
  let f2 := mkSENDBUFFER 0x102 8 (2, 0) in
  let c2 := Send (Send (can0 [-1; -1; 0; 1; 2]) 0x101 (1, 0) 8) 0x102 (2, 0) 8 in
  pending c2 = [f1; f2] /\ wire (canDev c2) = [] /\ TMEIE (canDev c2) = true /\
  exists c3,
    HandleTx c2 = Ok c3 /\ wire (canDev c3) = [f2; f1] /\ pending c3 = [] /\
    TMEIE (canDev c3) = false /\
    wire (canDev (Send c3 0x103 (3, 0) 8)) = [f2; f1; mkSENDBUFFER 0x103 8 (3, 0)].
Proof.
  intros f1 f2 c2.
  split; [reflexivity|]. split; [reflexivity|]. split; [reflexivity|].
  destruct (proj2 (transmit_queue_LIFO c2 eq_refl ltac:(vm_compute; lia)))
    as (c3 & Hc3 & Hw & Hp & _ & Hirq).
  exists c3. split; [exact Hc3|].
  vm_compute in Hc3. injection Hc3 as <-.
  repeat split; reflexivity.
Defined.

(** ** Can::ProcessSDO *)

Section SDO.
Context `{Params}.

Lemma Add_other_members c param cid obits len g ofs res c' :
  AddSend c param cid obits len g ofs = Ok (res, c') \/
  AddRecv c param cid obits len g ofs = Ok (res, c') ->
  sendBuffer c' = sendBuffer c /\ sendCnt c' = sendCnt c /\
  nodeId c' = nodeId c /\ canDev c' = canDev c.
Proof.
  unfold AddSend, AddRecv.
  intros [Hadd|Hadd];
    destruct (Add _ param cid obits len g ofs) as [[r t]|]; simpl in Hadd;
    try discriminate; injection Hadd as _ <-; done.
Qed.

Lemma SDO_reply_other_members c ps sdo c' ps' reply :
  SDO_reply c ps sdo = Ok (c', ps', reply) ->
  sendBuffer c' = sendBuffer c /\ sendCnt c' = sendCnt c /\
  nodeId c' = nodeId c /\ canDev c' = canDev c.
Proof.
  unfold SDO_reply. intros Hr.
  repeat case_match; simplify_eq; try done.
  all: match goal with
       | Hb : bind ?a _ = Ok _ |- _ =>
           destruct a as [[r c1]|] eqn:Hadd; simpl in Hb; [|discriminate]
       end.
  all: repeat case_match; simplify_eq.
  all: eapply Add_other_members; eauto.
Qed.

(** C8, as amended.  A request whose index is outside [0x2000, 0x2001]
    and [0x3000, 0x4800), or whose sub-index is not below [PARAM_LAST],
    is answered with [SDO_ABORT] and [SDO_ERR_INVIDX].  A request inside
    one of the two ranges whose command is none the range handles
    ([SDO_WRITE] or [SDO_READ] in the first, [SDO_WRITE] in the second)
    is answered with the request itself, unchanged.  Whatever the reply,
    [ProcessSDO] passes it to [Send] with the identifier
    [0x580 + nodeId] and length 8, so that it is the next frame on the
    wire when the hardware accepts it. *)
Theorem SDO_reply_spec c ps data :
  let sdo := CAN_SDO_of_data data in
  let in_params :=
    (0x2000 <= index sdo <= 0x2001) /\ subIndex sdo < PARAM_LAST in
  let in_mapping :=
    (0x3000 <= index sdo < 0x4800) /\ subIndex sdo < PARAM_LAST in
  (~ in_params -> ~ in_mapping ->
     SDO_reply c ps sdo
     = Ok (c, ps, mkCAN_SDO SDO_ABORT (index sdo) (subIndex sdo) SDO_ERR_INVIDX))
  /\ (in_params -> cmd sdo <> SDO_WRITE -> cmd sdo <> SDO_READ ->
     SDO_reply c ps sdo = Ok (c, ps, sdo))
  /\ (in_mapping -> cmd sdo <> SDO_WRITE ->
     SDO_reply c ps sdo = Ok (c, ps, sdo))
  /\ (forall c' ps',
     ProcessSDO c ps data = Ok (c', ps') ->
     exists c1 reply,
       SDO_reply c ps sdo = Ok (c1, ps', reply) /\
       c' = Send c1 (0x580 + nodeId c) (data_of_CAN_SDO reply) 8 /\
       (0 <= next_answer (canDev c) ->
        wire (canDev c')
        = wire (canDev c)
          ++ [mkSENDBUFFER (0x580 + nodeId c) 8 (data_of_CAN_SDO reply)])).
Proof.
  intros sdo in_params in_mapping. subst in_params in_mapping.
  assert (exists d, d = data /\ sdo = CAN_SDO_of_data d) as (d & Hd & Hsdo) by eauto.
  clearbody sdo. subst data.
  repeat split.
  - intros Hp Hm. unfold SDO_reply.
    assert ((0x2000 <=? index sdo) && (index sdo <=? 0x2001)
            && (subIndex sdo <? PARAM_LAST) = false) as ->.
    { apply not_true_is_false. rewrite !andb_true_iff, !Z.leb_le, Z.ltb_lt.
      intros [[? ?] ?]. apply Hp. auto. }
    assert ((0x3000 <=? index sdo) && (index sdo <? 0x4800)
            && (subIndex sdo <? PARAM_LAST) = false) as ->.
    { apply not_true_is_false. rewrite !andb_true_iff, Z.leb_le, !Z.ltb_lt.
      intros [[? ?] ?]. apply Hm. auto. }
    reflexivity.
  - intros [[Hi1 Hi2] Hs] Hw Hr. unfold SDO_reply.
    assert ((0x2000 <=? index sdo) && (index sdo <=? 0x2001)
            && (subIndex sdo <? PARAM_LAST) = true) as ->.
    { rewrite !andb_true_iff, !Z.leb_le, Z.ltb_lt. auto. }
    apply Z.eqb_neq in Hw, Hr. rewrite Hw, Hr. reflexivity.
  - intros [[Hi1 Hi2] Hs] Hw. unfold SDO_reply.
    assert ((0x2000 <=? index sdo) && (index sdo <=? 0x2001)
            && (subIndex sdo <? PARAM_LAST) = false) as ->.
    { apply not_true_is_false. rewrite !andb_true_iff, !Z.leb_le, Z.ltb_lt.
      intros [[? Hle] ?]. revert Hi1 Hle. clear. intros. lia. }
    assert ((0x3000 <=? index sdo) && (index sdo <? 0x4800)
            && (subIndex sdo <? PARAM_LAST) = true) as ->.
    { rewrite !andb_true_iff, Z.leb_le, !Z.ltb_lt. auto. }
    apply Z.eqb_neq in Hw. rewrite Hw. reflexivity.
  - intros c' ps'. unfold ProcessSDO. rewrite <- Hsdo.
    destruct (SDO_reply c ps sdo) as [[[c1 ps1] reply]|] eqn:Hr; simpl; [|done].
    intros [= <- <-]. exists c1, reply. split; [done|]. split; [done|].
    destruct (SDO_reply_other_members _ _ _ _ _ _ Hr) as (_ & _ & _ & Hdev).
    intros Hacc. unfold Send. rewrite can_transmit_spec, Hdev.
    change (next_answer (set_TMEIE false (canDev c))) with (next_answer (canDev c)).
    destruct (Z.ltb_spec (next_answer (canDev c)) 0); [lia|].
    simpl. by destruct (0 <? sendCnt c1)%nat.
Qed.

End SDO.

(** C8, as stated, fails.  With four parameters, the request
    [{cmd = 0x00, index = 0x2000, subIndex = 0}] and the read request
    [{cmd = 0x22, index = 0x3000, subIndex = 0}] each name a recognized
    index with a command that index does not handle; the reply is the
    request, byte for byte, not [SDO_ABORT]. *)
Lemma SDO_unknown_command_echoed :
  let c := can0 [0; 1] in
  let ps := [0; 0; 0; 0] in
  @SDO_reply example_params c ps (CAN_SDO_of_data (0x200000, 0x1234))
  = Ok (c, ps, mkCAN_SDO 0x00 0x2000 0 0x1234)
  /\ @SDO_reply example_params c ps (CAN_SDO_of_data (0x300022, 0x1234))
     = Ok (c, ps, mkCAN_SDO SDO_READ 0x3000 0 0x1234)
  /\ (canDev <$> (fst <$>
        match @ProcessSDO example_params c ps (0x300022, 0x1234) with
        | Ok r => Some r
        | Undefined _ => None
        end))
     = Some (mkCanHw [1] [mkSENDBUFFER 0x581 8 (0x300022, 0x1234)] false).
Proof. repeat split; vm_compute; reflexivity. Qed.

(** ** Can::CopyIdMapExcept and Can::RemoveFromMap *)

Lemma set_items_items m : set_items (items m) m = m.
Proof. by destruct m. Qed.

Lemma forEachPosMap_length m :
  (length (forEachPosMap m) <= MAX_ITEMS_PER_MESSAGE)%nat.
Proof.
  unfold forEachPosMap. etrans; [apply take_while_length|].
  rewrite length_take. lia.
Qed.

Lemma keep_length param m : (length (keep param m) <= MAX_ITEMS_PER_MESSAGE)%nat.
Proof.
  unfold keep. etrans; [apply length_filter|]. apply forEachPosMap_length.
Qed.

Lemma keep_cons_eq param (p : CANPOS) l :
  mapParam p = param ->
  filter (fun p => mapParam p <> param) (p :: l)
  = filter (fun p => mapParam p <> param) l
  /\ filter (fun p => mapParam p = param) (p :: l)
    = p :: filter (fun p => mapParam p = param) l.
Proof.
  intros Heq. rewrite !filter_cons.
  destruct (decide (mapParam p <> param)), (decide (mapParam p = param)); done.
Qed.

Lemma keep_cons_ne param (p : CANPOS) l :
  mapParam p <> param ->
  filter (fun p => mapParam p <> param) (p :: l)
  = p :: filter (fun p => mapParam p <> param) l
  /\ filter (fun p => mapParam p = param) (p :: l)
    = filter (fun p => mapParam p = param) l.
Proof.
  intros Hne. rewrite !filter_cons.
  destruct (decide (mapParam p <> param)), (decide (mapParam p = param)); done.
Qed.

Lemma copy_pos_spec param poss : forall dest i j d r m,
  dest !! i = Some m ->
  (j + length (filter (fun p => mapParam p <> param) poss) <= length (items m))%nat ->
  copy_pos param poss dest i j d r
  = (<[ i := set_items
             (take j (items m)
              ++ filter (fun p => mapParam p <> param) poss
              ++ drop (j + length (filter (fun p => mapParam p <> param) poss))
                   (items m)) m ]> dest,
     d && bool_decide (filter (fun p => mapParam p <> param) poss = []),
     r + Z.of_nat (length (filter (fun p => mapParam p = param) poss))).
Proof.
  induction poss as [|curPos rest IH]; intros dest i j d r m Hm Hlen.
  - simpl. rewrite Nat.add_0_r, take_drop, set_items_items.
    rewrite list_insert_id by done. rewrite andb_true_r. f_equal. lia.
  - simpl. destruct (Z.eqb_spec (mapParam curPos) param) as [Heq|Hne].
    + destruct (keep_cons_eq param curPos rest Heq) as [-> ->].
      destruct (keep_cons_eq param curPos rest Heq) as [Hk _].
      rewrite Hk in Hlen.
      rewrite (IH dest i j d (r + 1) m Hm Hlen). f_equal. simpl length. lia.
    + destruct (keep_cons_ne param curPos rest Hne) as [-> ->].
      destruct (keep_cons_ne param curPos rest Hne) as [Hk _].
      rewrite Hk in Hlen. simpl in Hlen.
      set (ks := filter (fun p => mapParam p <> param) rest) in *.
      set (m' := set_items (<[ j := curPos ]> (items m)) m).
      assert (set_item i j curPos dest = <[ i := m' ]> dest) as Hset.
      { unfold set_item. apply list_eq. intros k.
        destruct (decide (k = i)) as [->|Hki].
        - rewrite list_lookup_alter_eq, Hm, list_lookup_insert_eq; [done|].
          by eapply lookup_lt_Some.
        - by rewrite list_lookup_alter_ne, list_lookup_insert_ne. }
      rewrite Hset.
      rewrite (IH (<[ i := m' ]> dest) i (S j) false r m').
      * rewrite list_insert_insert_eq. simpl. rewrite andb_false_r.
        assert (take (S j) (<[ j := curPos ]> (items m)) ++
                ks ++ drop (S (j + length ks)) (<[ j := curPos ]> (items m))
                = take j (items m) ++
                  curPos :: ks ++ drop (j + S (length ks)) (items m)) as Hitems.
        { rewrite (take_S_r _ _ curPos) by (apply list_lookup_insert_eq; lia).
          rewrite take_insert_ge by lia.
          rewrite drop_insert_lt by lia.
          rewrite <- app_assoc. simpl.
          by replace (j + S (length ks))%nat with (S (j + length ks)) by lia. }
        unfold set_items. subst m'. simpl. rewrite Hitems. done.
      * apply list_lookup_insert_eq. by eapply lookup_lt_Some.
      * subst m'. simpl. rewrite length_insert. fold ks. lia.
Qed.

Lemma placed_nil dest : placed [] dest = dest.
Proof. unfold placed. simpl. by rewrite drop_0. Qed.

Lemma placed_cons e ks m dest :
  placed (e :: ks) (m :: dest) = put_msg e m :: placed ks dest.
Proof. done. Qed.

Lemma copy_pos_none param poss : forall dest i j d r,
  filter (fun p => mapParam p <> param) poss = [] ->
  copy_pos param poss dest i j d r
  = (dest, d, r + Z.of_nat (length (filter (fun p => mapParam p = param) poss))).
Proof.
  induction poss as [|p poss IH]; intros dest i j d r Hf; simpl.
  - f_equal. lia.
  - destruct (Z.eqb_spec (mapParam p) param) as [Heq|Hne].
    + destruct (keep_cons_eq param p poss Heq) as [Hk ->]. rewrite Hk in Hf.
      rewrite IH by done. f_equal. simpl length. lia.
    + destruct (keep_cons_ne param p poss Hne) as [Hk _]. rewrite Hk in Hf.
      discriminate.
Qed.

Lemma removed_in_cons param curMap rest :
  removed_in param (curMap :: rest)
  = Z.of_nat (length (filter (fun p => mapParam p = param) (forEachPosMap curMap)))
    + removed_in param rest.
Proof. unfold removed_in. rewrite bind_cons, length_app, Nat2Z.inj_add. done. Qed.

Lemma kept_cons param curMap rest :
  kept param (curMap :: rest)
  = (if decide (keep param curMap = []) then []
     else [(canId curMap, keep param curMap)]) ++ kept param rest.
Proof. unfold kept. simpl. by destruct (decide (keep param curMap = [])). Qed.

Lemma copy_maps_spec param maps : forall pre dest r,
  Forall (fun m => length (items m) = MAX_ITEMS_PER_MESSAGE) dest ->
  (length (kept param maps) <= length dest)%nat ->
  copy_maps param maps (pre ++ dest) (length pre) r
  = (pre ++ placed (kept param maps) dest, r + removed_in param maps).
Proof.
  induction maps as [|curMap rest IH]; intros pre dest r Hshape Hlen.
  - simpl. rewrite placed_nil. f_equal. unfold removed_in. simpl. lia.
  - rewrite kept_cons in Hlen |- *. rewrite removed_in_cons.
    cbn [copy_maps].
    destruct (decide (keep param curMap = [])) as [Hnil|Hcons].
    + (* nothing of the message is kept: no slot is written *)
      rewrite copy_pos_none by exact Hnil. simpl app.
      rewrite (IH pre dest _ Hshape Hlen). f_equal. lia.
    + (* the slot [length pre] takes the message *)
      simpl in Hlen. destruct dest as [|m dest']; [simpl in Hlen; lia|].
      apply Forall_cons in Hshape as [Hm Hshape].
      pose proof (keep_length param curMap) as Hkl.
      rewrite (copy_pos_spec param _ _ _ _ _ _ m); cycle 1.
      { rewrite lookup_app_r, Nat.sub_diag by lia. done. }
      { fold (keep param curMap). lia. }
      fold (keep param curMap).
      rewrite bool_decide_eq_false_2 by done. cbn [andb].
      rewrite (insert_app_r_alt _ _ (length pre)) by lia.
      rewrite (alter_app_r_alt _ _ _ (length pre)) by lia.
      rewrite Nat.sub_diag. cbn [take app Nat.add].
      change (alter ?f 0%nat (<[0%nat:=?x]> (m :: dest'))) with (f x :: dest').
      replace (pre ++ _ :: dest')
        with ((pre ++ [put_msg (canId curMap, keep param curMap) m]) ++ dest')
        by (rewrite <- app_assoc; done).
      replace (S (length pre))
        with (length (pre ++ [put_msg (canId curMap, keep param curMap) m]))
        by (rewrite length_app; simpl; lia).
      rewrite (IH _ dest' _ Hshape) by (simpl in Hlen; lia).
      rewrite <- app_assoc. simpl. f_equal. lia.
Qed.

(** ** Can::ClearMap *)

Lemma for_upto_all {A} n (f : A -> A) l :
  (length l <= n)%nat -> for_upto n f l = f <$> l.
Proof.
  intros Hl. unfold for_upto. rewrite take_ge, drop_ge by lia.
  by rewrite app_nil_r.
Qed.

Lemma ClearMap_shape canMap :
  table_shape canMap -> ClearMap canMap = clear_msg <$> canMap.
Proof.
  intros [Hlen Hitems]. unfold ClearMap. rewrite for_upto_all by lia.
  apply list_fmap_ext. intros i m Hm. unfold clear_msg. f_equal.
  apply for_upto_all. rewrite Forall_forall in Hitems.
  rewrite Hitems; [done|]. by eapply list_elem_of_lookup_2.
Qed.

Lemma clear_msg_shape m :
  length (items m) = MAX_ITEMS_PER_MESSAGE ->
  length (items (clear_msg m)) = MAX_ITEMS_PER_MESSAGE.
Proof. intros. unfold clear_msg. simpl. by rewrite length_fmap. Qed.

Lemma ClearMap_table_shape canMap :
  table_shape canMap -> table_shape (ClearMap canMap).
Proof.
  intros Hs. rewrite ClearMap_shape by done. destruct Hs as [Hlen Hitems].
  split; [by rewrite length_fmap|].
  apply Forall_fmap. eapply Forall_impl; [exact Hitems|].
  intros m Hm. by apply clear_msg_shape.
Qed.

Lemma take_while_false_head {A} (f : A -> bool) (l : list A) :
  Forall (fun x => f x = false) l -> take_while f l = [].
Proof. destruct 1 as [|x l Hx _]; simpl; [done|]. by rewrite Hx. Qed.

Lemma forEachCanMap_shape canMap :
  (length canMap <= MAX_MESSAGES)%nat ->
  forEachCanMap canMap = take_while msg_active canMap.
Proof. intros. unfold forEachCanMap. by rewrite take_ge by lia. Qed.

Lemma forEachPosMap_shape m :
  (length (items m) <= MAX_ITEMS_PER_MESSAGE)%nat ->
  forEachPosMap m = take_while pos_active (items m).
Proof. intros. unfold forEachPosMap. by rewrite take_ge by lia. Qed.

Lemma forEachCanMap_ClearMap canMap :
  table_shape canMap -> forEachCanMap (ClearMap canMap) = [].
Proof.
  intros Hs. rewrite ClearMap_shape by done.
  rewrite forEachCanMap_shape by (rewrite length_fmap; destruct Hs; lia).
  apply take_while_false_head. apply Forall_fmap, Forall_forall. done.
Qed.

Lemma forEachCanMap_length canMap :
  (length (forEachCanMap canMap) <= MAX_MESSAGES)%nat.
Proof.
  unfold forEachCanMap. etrans; [apply take_while_length|].
  rewrite length_take. lia.
Qed.

Lemma kept_length param maps : (length (kept param maps) <= length maps)%nat.
Proof.
  induction maps as [|m maps IH]; [done|]. rewrite kept_cons, length_app.
  destruct (decide _); simpl; lia.
Qed.

Lemma CopyIdMapExcept_spec source dest param :
  table_shape dest ->
  CopyIdMapExcept source dest param
  = (placed (kept param (forEachCanMap source)) dest,
     removed_in param (forEachCanMap source)).
Proof.
  intros [Hlen Hitems]. unfold CopyIdMapExcept.
  rewrite (copy_maps_spec param _ [] dest 0 Hitems).
  - done.
  - etrans; [apply kept_length|]. rewrite Hlen. apply forEachCanMap_length.
Qed.

(** ** What a rebuilt table looks like *)

Lemma kept_good param maps :
  Forall (fun m => msg_active m = true) maps ->
  Forall (good_entry param) (kept param maps).
Proof.
  induction 1 as [|m maps Hm _ IH]; [constructor|].
  rewrite kept_cons. destruct (decide (keep param m = [])) as [|Hne]; [done|].
  simpl. constructor; [|done].
  unfold good_entry. simpl. repeat split.
  - unfold msg_active in Hm. by apply Z.ltb_lt.
  - done.
  - unfold keep. apply Forall_forall. intros p Hp.
    apply list_elem_of_filter in Hp as [_ Hp].
    unfold forEachPosMap in Hp.
    pose proof (take_while_Forall pos_active (take MAX_ITEMS_PER_MESSAGE (items m))) as Hall.
    rewrite Forall_forall in Hall. by apply Hall.
  - unfold keep. apply Forall_forall. intros p Hp.
    by apply list_elem_of_filter in Hp as [Hp _].
  - apply keep_length.
Qed.

Lemma forEachPosMap_put_msg param e m :
  good_entry param e ->
  length (items m) = MAX_ITEMS_PER_MESSAGE ->
  forEachPosMap (put_msg e (clear_msg m)) = snd e.
Proof.
  intros (_ & _ & Hact & _ & Hlen) Hm.
  rewrite forEachPosMap_shape.
  - unfold put_msg. simpl. rewrite take_while_app by done.
    rewrite take_while_false_head; [by rewrite app_nil_r|].
    apply Forall_drop, Forall_fmap, Forall_forall. done.
  - unfold put_msg. simpl. rewrite length_app, length_drop, length_fmap. lia.
Qed.

Lemma put_msg_shape e m :
  (length (snd e) <= MAX_ITEMS_PER_MESSAGE)%nat ->
  length (items m) = MAX_ITEMS_PER_MESSAGE ->
  length (items (put_msg e m)) = MAX_ITEMS_PER_MESSAGE.
Proof.
  intros. unfold put_msg. simpl. rewrite length_app, length_drop. lia.
Qed.

Lemma placed_length ks dest :
  (length ks <= length dest)%nat -> length (placed ks dest) = length dest.
Proof.
  intros. unfold placed. rewrite length_app, length_zip_with, length_drop. lia.
Qed.

Lemma forEachCanMap_placed param ks canMap :
  Forall (good_entry param) ks ->
  (length ks <= length canMap)%nat ->
  length canMap = MAX_MESSAGES ->
  forEachCanMap (placed ks (clear_msg <$> canMap))
  = zip_with put_msg ks (clear_msg <$> canMap).
Proof.
  intros Hgood Hlen Hmax.
  rewrite forEachCanMap_shape
    by (rewrite placed_length; rewrite length_fmap; lia).
  unfold placed. rewrite take_while_app.
  - rewrite take_while_false_head; [by rewrite app_nil_r|].
    apply Forall_drop, Forall_fmap, Forall_forall. done.
  - clear Hlen Hmax. revert canMap.
    induction Hgood as [|e ks He _ IH]; intros [|m canMap]; simpl; try constructor.
    + unfold msg_active. simpl. apply Z.ltb_lt. apply He.
    + apply IH.
Qed.

Lemma filter_all_ne param (l : list CANPOS) :
  Forall (fun p => mapParam p <> param) l ->
  filter (fun p => mapParam p <> param) l = l
  /\ filter (fun p => mapParam p = param) l = [].
Proof.
  induction 1 as [|p l Hp _ [IH1 IH2]]; [done|].
  destruct (keep_cons_ne param p l Hp) as [-> ->]. by rewrite IH1, IH2.
Qed.

Lemma keep_all param l m :
  forEachPosMap m = l -> Forall (fun p => mapParam p <> param) l ->
  keep param m = l /\ filter (fun p => mapParam p = param) (forEachPosMap m) = [].
Proof. intros <- Hall. unfold keep. by apply filter_all_ne. Qed.

Lemma kept_zip param ks : forall canMap,
  Forall (good_entry param) ks ->
  Forall (fun m => length (items m) = MAX_ITEMS_PER_MESSAGE) canMap ->
  (length ks <= length canMap)%nat ->
  kept param (zip_with put_msg ks (clear_msg <$> canMap)) = ks
  /\ removed_in param (zip_with put_msg ks (clear_msg <$> canMap)) = 0.
Proof.
  induction ks as [|e ks IH]; intros canMap Hgood Hshape Hlen; [done|].
  destruct canMap as [|m canMap]; [simpl in Hlen; lia|].
  apply Forall_cons in Hgood as [He Hgood].
  apply Forall_cons in Hshape as [Hm Hshape].
  change (zip_with put_msg (e :: ks) (clear_msg <$> m :: canMap))
    with (put_msg e (clear_msg m) :: zip_with put_msg ks (clear_msg <$> canMap)).
  rewrite kept_cons, removed_in_cons.
  destruct (IH canMap Hgood Hshape) as [-> ->]; [simpl in Hlen; lia|].
  pose proof (forEachPosMap_put_msg param e m He Hm) as Hpos.
  destruct He as (_ & Hne & _ & Hpar & _).
  destruct (keep_all param (snd e) _ Hpos Hpar) as [-> ->].
  destruct (decide (snd e = [])); [done|]. simpl. by destruct e.
Qed.

(** [RemoveFromMap] leaves the kept messages, in their order, over a
    cleared table, and returns the number of items it met that are bound
    to [param]. *)
Lemma RemoveFromMap_spec scratch canMap param :
  table_shape scratch -> table_shape canMap ->
  RemoveFromMap scratch canMap param
  = (removed_in param (forEachCanMap canMap),
     placed (kept param (forEachCanMap canMap)) (clear_msg <$> canMap)).
Proof.
  intros Hscratch Hmap. unfold RemoveFromMap.
  rewrite (CopyIdMapExcept_spec canMap) by by apply ClearMap_table_shape.
  rewrite (CopyIdMapExcept_spec _ (ClearMap canMap)) by by apply ClearMap_table_shape.
  rewrite !ClearMap_shape by done.
  set (ks := kept param (forEachCanMap canMap)).
  assert (Forall (good_entry param) ks) as Hgood
    by (apply kept_good, take_while_Forall).
  assert (length ks <= MAX_MESSAGES)%nat as Hks.
  { subst ks. etrans; [apply kept_length|]. apply forEachCanMap_length. }
  destruct Hscratch as [Hl1 Hi1], Hmap as [Hl2 Hi2].
  rewrite (forEachCanMap_placed param) by (done || lia).
  destruct (kept_zip param ks scratch Hgood Hi1) as [-> _]; [lia|].
  done.
Qed.

(** ** Can::FindMap and Can::Remove *)

Lemma bind_nil_Forall {A B} (f : A -> list B) (l : list A) :
  l ≫= f = [] <-> Forall (fun x => f x = []) l.
Proof.
  induction l as [|x l IH]; [by split; [constructor|]|].
  rewrite bind_cons, Forall_cons, <- IH. split.
  - by intros [-> ->]%app_eq_nil.
  - by intros [-> ->].
Qed.

Lemma find_pos_None param canMap :
  find_pos param canMap = None <-> mapped_items param canMap = [].
Proof.
  unfold find_pos, mapped_items. rewrite fmap_None, head_None.
  rewrite !bind_nil_Forall. apply Forall_iff. intros m.
  rewrite bind_nil_Forall. split.
  - intros Hall. destruct (filter _ _) as [|p l]; [done|].
    apply Forall_cons in Hall as [? _]. done.
  - intros ->. constructor.
Qed.

Lemma FindMap_None s r param :
  FindMap s r param = None
  <-> mapped_items param s = [] /\ mapped_items param r = [].
Proof.
  unfold FindMap. rewrite <- !find_pos_None.
  destruct (find_pos param s), (find_pos param r); split; (done || intros [? ?]; done).
Qed.

Lemma removed_in_mapped param canMap :
  removed_in param (forEachCanMap canMap)
  = Z.of_nat (length (mapped_items param canMap)).
Proof. done. Qed.

Lemma rebuilt_unmapped param ks canMap :
  Forall (good_entry param) ks ->
  (length ks <= MAX_MESSAGES)%nat ->
  table_shape canMap ->
  mapped_items param (placed ks (clear_msg <$> canMap)) = [].
Proof.
  intros Hgood Hks [Hlen Hitems].
  apply length_zero_iff_nil, Nat2Z.inj. rewrite <- removed_in_mapped.
  rewrite (forEachCanMap_placed param) by (done || lia).
  by destruct (kept_zip param ks canMap Hgood Hitems) as [_ ->]; [lia|].
Qed.

Lemma take_while_drop {A} (f : A -> bool) (l : list A) :
  take_while f l ++ drop (length (take_while f l)) l = l.
Proof.
  induction l as [|x l IH]; simpl; [done|].
  destruct (f x); simpl; [by rewrite IH | done].
Qed.

Lemma filter_eq_nil_keep param (l : list CANPOS) :
  filter (fun p => mapParam p = param) l = [] ->
  filter (fun p => mapParam p <> param) l = l.
Proof.
  induction l as [|p l IH]; [done|].
  destruct (decide (mapParam p = param)) as [Heq|Hne].
  - destruct (keep_cons_eq param p l Heq) as [_ ->]. done.
  - destruct (keep_cons_ne param p l Hne) as [-> ->]. intros Hf. by rewrite IH.
Qed.

Lemma kept_all param maps :
  Forall (fun m => filter (fun p => mapParam p = param) (forEachPosMap m) = []) maps ->
  Forall (fun m => forEachPosMap m <> []) maps ->
  kept param maps = (fun m => (canId m, forEachPosMap m)) <$> maps.
Proof.
  induction 1 as [|m maps Hm _ IH]; intros Hne; [done|].
  apply Forall_cons in Hne as [Hne1 Hne].
  rewrite kept_cons, fmap_cons, IH by done.
  unfold keep. rewrite (filter_eq_nil_keep _ _ Hm).
  by destruct (decide (forEachPosMap m = [])).
Qed.

Lemma zip_put_clear (g : CANIDMAP -> Z * list CANPOS) (maps rest : list CANIDMAP) :
  zip_with put_msg (g <$> maps) ((clear_msg <$> maps) ++ rest)
  = (fun m => put_msg (g m) (clear_msg m)) <$> maps.
Proof. induction maps as [|m maps IH]; csimpl; [done|]. by rewrite IH. Qed.

Lemma set_numBits_zero p : numBits p = 0 -> set_numBits 0 p = p.
Proof. destruct p. simpl. by intros ->. Qed.

Lemma fmap_zero_id (l : list CANPOS) :
  Forall (fun p => numBits p = 0) l -> set_numBits 0 <$> l = l.
Proof.
  induction 1 as [|p l Hp _ IH]; csimpl; [done|].
  by rewrite IH, set_numBits_zero.
Qed.

Lemma put_clear_tidy m :
  length (items m) = MAX_ITEMS_PER_MESSAGE ->
  tidy_items (items m) ->
  put_msg (canId m, forEachPosMap m) (clear_msg m) = m.
Proof.
  intros Hlen Htidy. unfold put_msg, clear_msg. simpl.
  rewrite forEachPosMap_shape by lia.
  destruct m as [id l]. simpl in *. f_equal.
  rewrite <- fmap_drop, fmap_zero_id by exact Htidy.
  apply take_while_drop.
Qed.

Lemma clear_unused m :
  canId m = CANID_UNSET -> Forall (fun p => numBits p = 0) (items m) ->
  clear_msg m = m.
Proof.
  destruct m as [id l]. unfold clear_msg. simpl. intros -> Hall.
  by rewrite fmap_zero_id.
Qed.

Lemma placed_split (g : CANIDMAP -> Z * list CANPOS) (A R : list CANIDMAP) :
  placed (g <$> A) (clear_msg <$> (A ++ R))
  = ((fun m => put_msg (g m) (clear_msg m)) <$> A) ++ (clear_msg <$> R).
Proof.
  unfold placed. rewrite fmap_app, zip_put_clear, length_fmap.
  by rewrite drop_app_length' by by rewrite length_fmap.
Qed.

(** Rebuilding a tidy table from which nothing is removed gives the table
    back. *)
Lemma rebuilt_same param canMap :
  table_shape canMap -> tidy canMap ->
  mapped_items param canMap = [] ->
  placed (kept param (forEachCanMap canMap)) (clear_msg <$> canMap) = canMap.
Proof.
  intros [Hlen Hitems] (Htidy & Hfield & Hunused) Hnone.
  unfold mapped_items in Hnone. rewrite bind_nil_Forall in Hnone.
  rewrite (kept_all param _ Hnone Hfield).
  assert (forEachCanMap canMap ++ drop (length (forEachCanMap canMap)) canMap
          = canMap) as Hsplit.
  { rewrite forEachCanMap_shape by lia. apply take_while_drop. }
  revert Hunused Hsplit.
  generalize (drop (length (forEachCanMap canMap)) canMap) as R.
  generalize (forEachCanMap canMap) as A.
  intros A R Hunused Hsplit. subst canMap.
  apply Forall_app in Hitems as [HA1 _]. apply Forall_app in Htidy as [HA2 _].
  rewrite placed_split. f_equal.
  - rewrite <- list_fmap_id. apply list_fmap_ext. intros i m Hm. simpl.
    rewrite Forall_forall in HA1, HA2.
    apply put_clear_tidy; [apply HA1 | apply HA2]; by eapply list_elem_of_lookup_2.
  - rewrite <- list_fmap_id. apply list_fmap_ext. intros i m Hm. simpl.
    rewrite Forall_forall in Hunused.
    destruct (Hunused m) as [Hid Hz]; [by eapply list_elem_of_lookup_2|].
    by apply clear_unused.
Qed.

Lemma with_maps_same c : with_maps (canSendMap c) (canRecvMap c) c = c.
Proof. by destruct c. Qed.

(** C6, as amended.  After [Remove (param)], [FindMap (param)] finds
    nothing; the value returned is the number of active field mappings
    bound to [param] in the two tables; and when [param] is not mapped
    and both tables are tidy (in particular every active message holds a
    field), the value is 0 and the object is unchanged. *)
Theorem Remove_spec scratch1 scratch2 c param removed c' :
  table_shape scratch1 -> table_shape scratch2 ->
  table_shape (canSendMap c) -> table_shape (canRecvMap c) ->
  Remove scratch1 scratch2 c param = (removed, c') ->
  FindMap (canSendMap c') (canRecvMap c') param = None
  /\ removed = Z.of_nat (length (mapped_items param (canSendMap c))
                         + length (mapped_items param (canRecvMap c)))
  /\ (FindMap (canSendMap c) (canRecvMap c) param = None ->
      tidy (canSendMap c) -> tidy (canRecvMap c) ->
      removed = 0 /\ c' = c).
Proof.
  intros Hs1 Hs2 Hsend Hrecv. unfold Remove.
  rewrite !RemoveFromMap_spec by done. rewrite !removed_in_mapped.
  intros [= <- <-]. simpl.
  assert (forall t, (length (kept param (forEachCanMap t)) <= MAX_MESSAGES)%nat)
    as Hk.
  { intros t. etrans; [apply kept_length|]. apply forEachCanMap_length. }
  split; [|split].
  - apply FindMap_None. split; apply rebuilt_unmapped; try done;
      apply kept_good, take_while_Forall.
  - lia.
  - intros [Hns Hnr]%FindMap_None Hts Htr.
    rewrite !rebuilt_same by done. rewrite Hns, Hnr. simpl.
    split; [done|]. apply with_maps_same.
Qed.

Lemma zeroed_map_shape : table_shape zeroed_map.
Proof. split; [done|]. apply (bool_decide_unpack _). vm_compute. exact I. Qed.

Lemma Remove_spec_witness :
  let c := can_with two_message_map empty_map in
  let c1 := snd (Remove zeroed_map zeroed_map c 1) in
  Remove zeroed_map zeroed_map c 1 = (2, c1)
  /\ FindMap (canSendMap c1) (canRecvMap c1) 1 = None
  /\ FindMap (canSendMap c1) (canRecvMap c1) 2 = Some (0x100, 8, 8, gain_one, false)
  /\ 2 = Z.of_nat (length (mapped_items 1 (canSendMap c))
                   + length (mapped_items 1 (canRecvMap c))).
Proof.
  intros c c1.
  assert (table_shape (canSendMap c) /\ table_shape (canRecvMap c)) as [Hs Hr].
  { split; (split; [done|]); apply (bool_decide_unpack _); vm_compute; exact I. }
  assert (Remove zeroed_map zeroed_map c 1 = (2, c1)) as Hrem
    by (vm_compute; reflexivity).
  destruct (Remove_spec zeroed_map zeroed_map c 1 2 c1
              zeroed_map_shape zeroed_map_shape Hs Hr Hrem) as (Hfind & Hcount & _).
  split; [exact Hrem|]. split; [exact Hfind|]. split; [|exact Hcount].
  vm_compute. reflexivity.
Defined.

(** C6, as stated, fails.  [fieldless_map] is the send table after
    [AddSend] with a width of 0, which [Add] accepts: the message [0x100]
    is active and has no active field.  Parameter 2 is mapped nowhere, yet
    [Remove (2)], which returns 0, does not leave the table unchanged: the
    rebuild drops the message [0x100]. *)
Lemma Remove_absent_drops_fieldless_message :
  let c := can_with fieldless_map empty_map in
  let c1 := snd (Remove zeroed_map zeroed_map c 2) in
  Add empty_map 1 0x100 0 0 gain_one 0 = Ok (1, fieldless_map)
  /\ FindMap (canSendMap c) (canRecvMap c) 2 = None
  /\ fst (Remove zeroed_map zeroed_map c 2) = 0
  /\ c1 <> c
  /\ canId <$> forEachCanMap (canSendMap c) = [0x100]
  /\ forEachCanMap (canSendMap c1) = []
  /\ FindById (canSendMap c) 0x100 = Some 0%nat
  /\ FindById (canSendMap c1) 0x100 = None.
Proof.
  repeat split; try (vm_compute; reflexivity).
  intros Heq. apply (f_equal (fun c => FindById (canSendMap c) 0x100)) in Heq.
  vm_compute in Heq. discriminate.
Qed.

(** ** Persistence *)

Lemma sint_of_unsigned w x :
  0 < w -> - 2 ^ (w - 1) <= x < 2 ^ (w - 1) -> sint w (x mod 2 ^ w) = x.
Proof.
  intros Hw Hx. unfold sint.
  assert (2 ^ w = 2 * 2 ^ (w - 1)) as Hpow.
  { rewrite <- Z.pow_succ_r by lia. f_equal. lia. }
  rewrite Zplus_mod_idemp_l, Z.mod_small by lia. lia.
Qed.

Lemma words_CANPOS_words p :
  CANPOS_typed p ->
  match CANPOS_words p with
  | [w0; w1; w2] => words_CANPOS w0 w1 w2 = p
  | _ => False
  end.
Proof.
  intros (Hm & Ho & Hb & Hn). destruct p as [mp ofs g ob nb]. simpl in *.
  unfold words_CANPOS, u16, u8, s16, s8. f_equal.
  - rewrite Z.mul_comm, Z_mod_plus_full. apply Z.mod_small. lia.
  - rewrite Z.mul_comm, Z.div_add by lia.
    rewrite (Z.div_small mp) by lia. simpl (0 + _).
    apply sint_of_unsigned; simpl; lia.
  - rewrite Z.mul_comm, Z_mod_plus_full. apply Z.mod_small. lia.
  - rewrite Z.mul_comm, Z.div_add by lia.
    rewrite (Z.div_small ob) by lia. simpl (0 + _).
    apply sint_of_unsigned; simpl; lia.
Qed.

Lemma read_items_words l : forall rest,
  Forall CANPOS_typed l ->
  read_items (length l) ((l ≫= CANPOS_words) ++ rest) = l.
Proof.
  induction l as [|p l IH]; intros rest Hall; [done|].
  apply Forall_cons in Hall as [Hp Hall].
  pose proof (words_CANPOS_words p Hp) as Hw.
  rewrite bind_cons.
  destruct (CANPOS_words p) as [|w0 [|w1 [|w2 [|]]]] eqn:Hws; try done.
  simpl. rewrite Hw. f_equal. by apply IH.
Qed.

Lemma items_words_length (l : list CANPOS) :
  length (l ≫= CANPOS_words) = (3 * length l)%nat.
Proof.
  induction l as [|p l IH]; [done|].
  rewrite bind_cons, length_app, IH. simpl. lia.
Qed.

Lemma read_maps_words canMap : forall rest,
  Forall (fun m => length (items m) = MAX_ITEMS_PER_MESSAGE) canMap ->
  table_typed canMap ->
  read_maps (length canMap) (table_words canMap ++ rest) = canMap.
Proof.
  induction canMap as [|m canMap IH]; intros rest Hshape Htyped; [done|].
  apply Forall_cons in Hshape as [Hm Hshape].
  apply Forall_cons in Htyped as [Htm Htyped].
  unfold table_words. rewrite bind_cons. fold (table_words canMap).
  unfold CANIDMAP_words at 1.
  cbn [length read_maps app].
  rewrite <- !app_assoc.
  rewrite <- Hm at 1. rewrite read_items_words by done.
  rewrite drop_app_length' by (rewrite items_words_length; lia).
  rewrite IH by done. by destruct m.
Qed.

Lemma table_words_length canMap :
  table_shape canMap -> length (table_words canMap) = SENDMAP_WORDS.
Proof.
  intros [Hlen Hitems]. unfold SENDMAP_WORDS. rewrite <- Hlen. clear Hlen.
  induction Hitems as [|m canMap Hm _ IH]; [done|].
  unfold table_words. rewrite bind_cons, length_app. fold (table_words canMap).
  rewrite IH. unfold CANIDMAP_words. simpl length.
  rewrite items_words_length, Hm. unfold CANIDMAP_WORDS. lia.
Qed.

(** *** Loops over a prefix *)

Lemma for_upto_cons {A} k (f : A -> A) x l :
  for_upto (S k) f (x :: l) = f x :: for_upto k f l.
Proof. done. Qed.

Lemma for_upto_0 {A} (f : A -> A) l : for_upto 0 f l = l.
Proof. unfold for_upto. by rewrite take_0, drop_0. Qed.

Lemma for_upto_nil {A} k (f : A -> A) : for_upto k f [] = [].
Proof. unfold for_upto. by rewrite take_nil, drop_nil. Qed.

Lemma for_upto_length {A} k (f : A -> A) l :
  length (for_upto k f l) = length l.
Proof.
  unfold for_upto. rewrite length_app, length_fmap, length_take, length_drop. lia.
Qed.

Lemma for_upto_Forall {A} (P : A -> Prop) k (f : A -> A) l :
  (forall x, P x -> P (f x)) -> Forall P l -> Forall P (for_upto k f l).
Proof.
  intros Hf Hl. unfold for_upto. apply Forall_app. split.
  - apply Forall_fmap. eapply Forall_impl; [by apply Forall_take|]. done.
  - by apply Forall_drop.
Qed.

Lemma for_upto_compose {A} k (f g : A -> A) l :
  for_upto k g (for_upto k f l) = for_upto k (g ∘ f) l.
Proof.
  revert k. induction l as [|x l IH]; intros k.
  - by rewrite !for_upto_nil.
  - destruct k as [|k]; [by rewrite !for_upto_0|].
    by rewrite !for_upto_cons, IH.
Qed.

Lemma for_upto_id {A} k (f : A -> A) l :
  Forall (fun x => f x = x) (take k l) -> for_upto k f l = l.
Proof.
  revert k. induction l as [|x l IH]; intros k Hall.
  - by rewrite for_upto_nil.
  - destruct k as [|k]; [by rewrite for_upto_0|].
    simpl in Hall. apply Forall_cons in Hall as [Hx Hall].
    by rewrite for_upto_cons, Hx, IH.
Qed.

Lemma take_length_take_while {A} n (a : A -> bool) l :
  take (length (take_while a (take n l))) l = take_while a (take n l).
Proof.
  revert n. induction l as [|x l IH]; intros n.
  - rewrite take_nil. simpl. by rewrite take_nil.
  - destruct n as [|n]; [done|]. simpl.
    destruct (a x); simpl; [by rewrite IH | done].
Qed.

Lemma take_while_for_upto {A} n (a : A -> bool) (f : A -> A) l :
  (forall x, a (f x) = a x) ->
  take_while a (take n (for_upto (length (take_while a (take n l))) f l))
  = f <$> take_while a (take n l).
Proof.
  intros Hf. revert n. induction l as [|x l IH]; intros n.
  - by rewrite take_nil, for_upto_nil, take_nil.
  - destruct n as [|n]; [done|].
    cbn [take take_while]. destruct (a x) eqn:Hx.
    + cbn [length]. rewrite for_upto_cons. cbn [take take_while].
      rewrite Hf, Hx, IH. done.
    + cbn [length]. rewrite for_upto_0. cbn [take take_while].
      by rewrite Hx.
Qed.

(** *** ReplaceParamEnumByUid and ReplaceParamUidByEnum *)

Lemma replace_params_unfold f canMap :
  replace_params f canMap
  = for_upto (length (forEachCanMap canMap)) (replace_msg f) canMap.
Proof. done. Qed.

Lemma forEachPosMap_replace f m :
  forEachPosMap (replace_msg f m) = replace_item f <$> forEachPosMap m.
Proof. unfold replace_msg, forEachPosMap. simpl. by apply take_while_for_upto. Qed.

Lemma forEachCanMap_replace f canMap :
  forEachCanMap (replace_params f canMap) = replace_msg f <$> forEachCanMap canMap.
Proof.
  rewrite replace_params_unfold. unfold forEachCanMap.
  by apply take_while_for_upto.
Qed.

Lemma replace_msg_compose f g m :
  replace_msg g (replace_msg f m) = replace_msg (g ∘ f) m.
Proof.
  unfold replace_msg at 1. rewrite forEachPosMap_replace, length_fmap.
  unfold replace_msg. simpl. rewrite for_upto_compose. done.
Qed.

Lemma replace_params_compose f g canMap :
  replace_params g (replace_params f canMap) = replace_params (g ∘ f) canMap.
Proof.
  rewrite (replace_params_unfold g), forEachCanMap_replace, length_fmap.
  rewrite !replace_params_unfold, for_upto_compose.
  unfold for_upto. f_equal. apply list_fmap_ext. intros i m _. simpl.
  apply replace_msg_compose.
Qed.

Lemma replace_item_id f p : f (mapParam p) = mapParam p -> replace_item f p = p.
Proof. destruct p. unfold replace_item, set_mapParam. simpl. by intros ->. Qed.

Lemma replace_params_id f canMap :
  Forall (fun p => f p = p) (active_params canMap) ->
  replace_params f canMap = canMap.
Proof.
  intros Hall. rewrite replace_params_unfold. apply for_upto_id.
  unfold forEachCanMap at 1. rewrite take_length_take_while.
  fold (forEachCanMap canMap).
  unfold active_params in Hall. rewrite Forall_fmap in Hall.
  induction (forEachCanMap canMap) as [|m maps IH]; [constructor|].
  rewrite bind_cons in Hall. apply Forall_app in Hall as [Hm Hall].
  constructor; [|by apply IH].
  unfold replace_msg. rewrite for_upto_id; [apply set_items_items|].
  unfold forEachPosMap at 1.
  rewrite take_length_take_while. fold (forEachPosMap m).
  eapply Forall_impl; [exact Hm|]. intros p Hp. by apply replace_item_id.
Qed.

Lemma replace_params_shape f canMap :
  table_shape canMap -> table_shape (replace_params f canMap).
Proof.
  intros [Hlen Hitems]. rewrite replace_params_unfold. split.
  - by rewrite for_upto_length.
  - apply for_upto_Forall; [|done]. intros m Hm.
    unfold replace_msg. simpl. by rewrite for_upto_length.
Qed.

Lemma replace_params_typed f canMap :
  (forall x, 0 <= f x < 2 ^ 16) ->
  table_typed canMap -> table_typed (replace_params f canMap).
Proof.
  intros Hf Ht. rewrite replace_params_unfold.
  apply for_upto_Forall; [|done]. intros m Hm.
  unfold replace_msg. simpl. apply for_upto_Forall; [|done].
  intros p (_ & ? & ? & ?). unfold replace_item, CANPOS_typed. simpl. auto.
Qed.

(** *** SaveToFlash *)

Lemma flash_read_app fl a n m :
  flash_read fl a (n + m) = flash_read fl a n ++ flash_read fl (a + n) m.
Proof. unfold flash_read. by rewrite seq_app, fmap_app. Qed.

Lemma flash_read_ext fl1 fl2 a n :
  (forall k, (a <= k < a + n)%nat -> fl1 k = fl2 k) ->
  flash_read fl1 a n = flash_read fl2 a n.
Proof.
  intros Hext. unfold flash_read. apply list_fmap_ext.
  intros i k Hk. apply lookup_seq in Hk as [-> ?]. apply Hext. lia.
Qed.

Section Persist.
Context `{Crc} `{Params}.

Lemma SaveToFlash_from_spec data : forall fl dr idx crc,
  let r := SaveToFlash_from fl dr idx data crc in
  fst (fst r) = (match data with [] => crc | _ => fold_left crc_feed data dr end)
  /\ snd (fst r) = fold_left crc_feed data dr
  /\ (forall k, (k < idx \/ idx + length data <= k)%nat -> snd r k = fl k)
  /\ flash_read (snd r) idx (length data) = data.
Proof.
  induction data as [|w rest IH]; intros fl dr idx crc; [done|].
  simpl. destruct (IH (flash_program_word fl idx w) (crc_feed dr w) (S idx)
                      (crc_feed dr w)) as (Hc & Hd & Hout & Hin).
  set (r := SaveToFlash_from _ _ _ rest _) in *.
  assert (forall k, (k < S idx \/ S idx + length rest <= k)%nat ->
                    k <> idx -> snd r k = fl k) as Hout'.
  { intros k Hk Hne. rewrite Hout by done. unfold flash_program_word.
    by destruct (decide (k = idx)). }
  repeat split.
  - rewrite Hc. by destruct rest.
  - done.
  - intros k Hk. apply Hout'; lia.
  - unfold flash_read in *. simpl. f_equal; [|done].
    rewrite Hout by lia. unfold flash_program_word.
    by destruct (decide (idx = idx)).
Qed.

Lemma SaveToFlash_spec fl dr base data len :
  length data = len ->
  let r := SaveToFlash fl dr base data len in
  fst (fst r) = (match data with [] => 0 | _ => fold_left crc_feed data dr end)
  /\ snd (fst r) = fold_left crc_feed data dr
  /\ (forall k, (k < base \/ base + len <= k)%nat -> snd r k = fl k)
  /\ flash_read (snd r) base len = data.
Proof.
  intros <-. unfold SaveToFlash. rewrite take_ge by lia.
  apply SaveToFlash_from_spec.
Qed.

End Persist.

Lemma take_for_upto {A} k (f : A -> A) l :
  take k (for_upto k f l) = f <$> take k l.
Proof.
  revert k. induction l as [|x l IH]; intros k.
  - by rewrite for_upto_nil, !take_nil.
  - destruct k as [|k]; [done|]. rewrite for_upto_cons. csimpl. by rewrite IH.
Qed.

Lemma forEachCanMap_ClearMap_any canMap : forEachCanMap (ClearMap canMap) = [].
Proof.
  unfold forEachCanMap, ClearMap. rewrite take_for_upto.
  apply take_while_false_head, Forall_fmap, Forall_forall. done.
Qed.

Lemma read_maps_table canMap :
  table_shape canMap -> table_typed canMap ->
  read_maps MAX_MESSAGES (table_words canMap) = canMap.
Proof.
  intros [Hl Hi] Ht. rewrite <- Hl, <- (app_nil_r (table_words canMap)).
  by apply read_maps_words.
Qed.

Section Persist2.
Context `{Crc} `{Params}.

Lemma u16_range x : 0 <= u16 x < 2 ^ 16.
Proof. unfold u16. apply Z.mod_pos_bound. lia. Qed.

Lemma Save_flash c fl :
  table_shape (canSendMap c) -> table_shape (canRecvMap c) ->
  let s := ReplaceParamEnumByUid (canSendMap c) in
  let r := ReplaceParamEnumByUid (canRecvMap c) in
  fst (Save c fl)
  = mkCan (ReplaceParamUidByEnum s) (ReplaceParamUidByEnum r)
          (sendBuffer c) (sendCnt c) (nodeId c) false (canDev c)
  /\ flash_read (snd (Save c fl)) 0 (SENDMAP_WORDS + RECVMAP_WORDS)
     = table_words s ++ table_words r
  /\ snd (Save c fl) (SENDMAP_WORDS + RECVMAP_WORDS)%nat
     = crc_calculate_block crc_reset_value (table_words s ++ table_words r).
Proof.
  intros Hs Hr s r.
  assert (length (table_words s) = SENDMAP_WORDS) as Hls
    by by apply table_words_length, replace_params_shape.
  assert (length (table_words r) = RECVMAP_WORDS) as Hlr
    by by apply table_words_length, replace_params_shape.
  unfold Save. fold s r.
  assert (RECVMAP_WORDS <> 0%nat) as Hpos by done.
  generalize dependent (SENDMAP_WORDS). intros SW Hls.
  generalize dependent (RECVMAP_WORDS). intros RW Hlr Hpos.
  pose proof (SaveToFlash_spec fl crc_reset_value 0 (table_words s)
                SW Hls) as H1.
  destruct (SaveToFlash fl crc_reset_value 0 (table_words s) SW)
    as [[c1 dr1] fl1]. cbv zeta in H1; cbn [fst snd] in H1.
  destruct H1 as (_ & Hd1 & Ho1 & Hi1).
  pose proof (SaveToFlash_spec fl1 dr1 SW (table_words r) RW Hlr) as H2.
  destruct (SaveToFlash fl1 dr1 SW (table_words r) RW)
    as [[c2 dr2] fl2]. cbv zeta in H2; cbn [fst snd] in H2.
  destruct H2 as (Hc2 & Hd2 & Ho2 & Hi2).
  pose proof (SaveToFlash_spec fl2 dr2 (SW + RW) [c2] 1 eq_refl) as H3.
  destruct (SaveToFlash fl2 dr2 (SW + RW) [c2] 1)
    as [[c3 dr3] fl3]. cbv zeta in H3; cbn [fst snd] in H3.
  destruct H3 as (_ & _ & Ho3 & Hi3).
  cbn [fst snd]. split; [done|]. split.
  - rewrite flash_read_app. f_equal.
    + rewrite <- Hi1. apply flash_read_ext. intros k Hk.
      rewrite (Ho3 k), (Ho2 k) by lia. done.
    + rewrite <- Hi2. apply flash_read_ext. intros k Hk.
      rewrite (Ho3 k) by lia. done.
  - unfold flash_read in Hi3. cbn [length seq fmap list_fmap] in Hi3.
    injection Hi3 as ->.
    unfold crc_calculate_block. rewrite fold_left_app, <- Hd1.
    destruct (table_words r); [|done].
    simpl in Hlr. by subst RW.
Qed.

(** C4.  After [Save] the tables in memory are what they were, and the
    constructor's [Clear (); LoadFromFlash ();] on the flash [Save] wrote
    returns 1 with both tables equal to the saved ones -- provided every
    mapped parameter's unique id translates back to the parameter.  On a
    flash whose stored checksum word differs from the checksum of the two
    table regions, [LoadFromFlash] returns 0 and changes nothing, so the
    constructor is left with the two tables [Clear] emptied. *)
Theorem Save_Load_roundtrip c fl :
  table_shape (canSendMap c) -> table_shape (canRecvMap c) ->
  table_typed (canSendMap c) -> table_typed (canRecvMap c) ->
  Forall (fun p => u16 (Param_NumFromId (u16 (Param_AttribId p))) = p)
         (active_params (canSendMap c) ++ active_params (canRecvMap c)) ->
  canSendMap (fst (Save c fl)) = canSendMap c
  /\ canRecvMap (fst (Save c fl)) = canRecvMap c
  /\ (forall c0, exists c1,
        Can_load c0 (snd (Save c fl)) = (1, c1) /\
        canSendMap c1 = canSendMap c /\ canRecvMap c1 = canRecvMap c)
  /\ (forall c0 fl',
        fl' (SENDMAP_WORDS + RECVMAP_WORDS)%nat
        <> crc_calculate_block crc_reset_value
             (flash_read fl' 0 (SENDMAP_WORDS + RECVMAP_WORDS)) ->
        LoadFromFlash c0 fl' = (0, c0) /\
        Can_load c0 fl' = (0, Clear c0) /\
        forEachCanMap (canSendMap (Clear c0)) = [] /\
        forEachCanMap (canRecvMap (Clear c0)) = []).
Proof.
  intros Hs Hr Hts Htr Huid. apply Forall_app in Huid as [Hus Hur].
  destruct (Save_flash c fl Hs Hr) as (Hc & Hwords & Hcrc).
  assert (forall t, Forall (fun p => u16 (Param_NumFromId (u16 (Param_AttribId p))) = p)
                      (active_params t) ->
            ReplaceParamUidByEnum (ReplaceParamEnumByUid t) = t) as Hback.
  { intros t Ht. unfold ReplaceParamUidByEnum, ReplaceParamEnumByUid.
    rewrite replace_params_compose. by apply replace_params_id. }
  split; [by rewrite Hc; simpl; apply Hback|].
  split; [by rewrite Hc; simpl; apply Hback|].
  split.
  - intros c0. unfold Can_load, LoadFromFlash.
    rewrite Hwords, Hcrc, Z.eqb_refl.
    eexists. split; [reflexivity|].
    rewrite flash_read_app in Hwords.
    assert (table_shape (ReplaceParamEnumByUid (canSendMap c))) as Hs'
      by by apply replace_params_shape.
    assert (table_shape (ReplaceParamEnumByUid (canRecvMap c))) as Hr'
      by by apply replace_params_shape.
    apply app_inj_1 in Hwords as [Hw1 Hw2];
      [|unfold flash_read; rewrite length_fmap, length_seq;
        by rewrite table_words_length].
    rewrite Nat.add_0_l in Hw2. rewrite Hw1, Hw2. cbv zeta.
    rewrite !read_maps_table;
      try done; try (apply replace_params_typed; [intros; apply u16_range|done]).
    unfold with_maps, Clear. cbn [canSendMap canRecvMap].
    split; by apply Hback.
  - intros c0 fl' Hne. unfold Can_load, LoadFromFlash.
    apply Z.eqb_neq in Hne. rewrite Hne. repeat split.
    + unfold Clear. simpl. apply forEachCanMap_ClearMap_any.
    + unfold Clear. simpl. apply forEachCanMap_ClearMap_any.
Qed.

End Persist2.

Lemma Save_Load_roundtrip_witness :
  let c := can_with two_message_map empty_map in
  let fl := snd (@Save example_crc example_params c erased_flash) in
  (exists c1,
     @Can_load example_crc example_params (can0 []) fl = (1, c1) /\
     canSendMap c1 = two_message_map /\ canRecvMap c1 = empty_map)
  /\ @Can_load example_crc example_params (can0 [])
       (flash_program_word fl (SENDMAP_WORDS + RECVMAP_WORDS)
          (Z.lxor (fl (SENDMAP_WORDS + RECVMAP_WORDS)%nat) 0x100))
     = (0, Clear (can0 [])).
Proof.
  intros c fl.
  assert (table_shape (canSendMap c) /\ table_shape (canRecvMap c)) as [Hs Hr]
    by (split; apply (bool_decide_unpack _); vm_compute; exact I).
  assert (table_typed (canSendMap c) /\ table_typed (canRecvMap c)) as [Hts Htr]
    by (split; apply (bool_decide_unpack _); vm_compute; exact I).
  assert (Forall (fun p => u16 (@Param_NumFromId example_params
                                  (u16 (@Param_AttribId example_params p))) = p)
            (active_params (canSendMap c) ++ active_params (canRecvMap c))) as Hu
    by (apply (bool_decide_unpack _); vm_compute; exact I).
  destruct (@Save_Load_roundtrip example_crc example_params c erased_flash
              Hs Hr Hts Htr Hu) as (_ & _ & Hload & Hbad).
  split; [exact (Hload (can0 []))|].
  apply Hbad. vm_compute. discriminate.
Defined.

(** ** The table invariant and a full message *)

(** The structured reading of the memory a table occupies. *)
Lemma cleared_memory_empty_map : read_maps MAX_MESSAGES cleared_mem = empty_map.
Proof. vm_compute. reflexivity. Qed.

(** C9 (code defect, the one of C2).  Ten calls of [Add] for the
    identifier [0x321] on an empty table leave a table [t], in memory
    [mem], that satisfies the invariant and whose first message holds
    [MAX_ITEMS_PER_MESSAGE] fields.  One more call
    [Add (0x321, 0x321, 40, 8, 1.0f, 0)] finds no free element in
    [items]: its scan leaves the array, for which the language defines no
    result.  In memory the scan stops on the start of the second message,
    whose identifier the store of [mapParam] and [offset] overwrites: the
    call returns 2 and the table then holds the identifier [0x321] in
    its first two messages, against the invariant. *)
Theorem Add_full_message_breaks_invariant :
  exists mem t,
    add_fields_mem 10 0x321 cleared_mem = Ok (1, mem)
    /\ add_fields 10 0x321 empty_map = Ok (1, t)
    /\ read_maps MAX_MESSAGES mem = t
    /\ table_shape t /\ table_invariant t
    /\ AddRecv (can_with empty_map t) 0x321 0x321 40 8 gain_one 0
       = Undefined OutOfBounds
    /\ AddSend (can_with t empty_map) 0x321 0x321 40 8 gain_one 0
       = Undefined OutOfBounds
    /\ exists mem',
         Add_mem mem 0x321 0x321 40 8 gain_one 0 = Ok (2, mem')
         /\ table_shape (read_maps MAX_MESSAGES mem')
         /\ canId <$> forEachCanMap (read_maps MAX_MESSAGES mem') = [0x321; 0x321]
         /\ ~ ids_unique (read_maps MAX_MESSAGES mem')
         /\ ~ table_invariant (read_maps MAX_MESSAGES mem').
Proof.
  let v := eval vm_compute in (add_fields_mem 10 0x321 cleared_mem) in
  match v with Ok (_, ?m) => exists m end.
  let v := eval vm_compute in (add_fields 10 0x321 empty_map) in
  match v with Ok (_, ?t) => exists t end.
  split; [vm_compute; reflexivity|].
  split; [vm_compute; reflexivity|].
  split; [vm_compute; reflexivity|].
  split; [apply (bool_decide_unpack _); vm_compute; exact I|].
  split; [apply (bool_decide_unpack _); vm_compute; exact I|].
  split; [vm_compute; reflexivity|].
  split; [vm_compute; reflexivity|].
  match goal with
  | |- exists mem', ?a = _ /\ _ =>
      let v := eval vm_compute in a in
      match v with Ok (_, ?m) => exists m end
  end.
  split; [vm_compute; reflexivity|].
  split; [apply (bool_decide_unpack _); vm_compute; exact I|].
  split; [vm_compute; reflexivity|].
  split; apply (bool_decide_unpack _); vm_compute; exact I.
Qed.

(** * Further properties of the message map *)

(** ** Can::Add: every way a call can end *)

Lemma Add_Ok_inv canMap param cid obits len g ofs res t :
  Add canMap param cid obits len g ofs = Ok (res, t) ->
  (res = CAN_ERR_INVALID_ID /\ t = canMap /\ 0x1fffffff < cid)
  \/ (res = CAN_ERR_INVALID_OFS /\ t = canMap /\ cid <= 0x1fffffff /\ 63 < ofs)
  \/ (res = CAN_ERR_INVALID_LEN /\ t = canMap /\
      cid <= 0x1fffffff /\ ofs <= 63 /\ 32 < len)
  \/ (res = CAN_ERR_MAXMESSAGES /\ t = canMap /\
      cid <= 0x1fffffff /\ ofs <= 63 /\ len <= 32 /\
      FindById canMap (u32 cid) = None /\ FindById canMap CANID_UNSET = None)
  \/ (cid <= 0x1fffffff /\ ofs <= 63 /\ len <= 32 /\
      exists e canMap1 m j p,
        ((FindById canMap (u32 cid) = Some e /\ canMap1 = canMap) \/
         (FindById canMap (u32 cid) = None /\
          FindById canMap CANID_UNSET = Some e /\
          canMap1 = alter (set_canId (u32 cid)) e canMap))
        /\ canMap1 !! e = Some m
        /\ list_find (fun p => numBits p <= 0) (items m) = Some (j, p)
        /\ ((numBits p = NUMBITS_LASTMARKER /\ res = CAN_ERR_MAXITEMS /\
             t = canMap1)
            \/ (numBits p <> NUMBITS_LASTMARKER /\
                t = set_item e j (mkCANPOS (u16 param) ofs g (u8 obits) (s8 len))
                      canMap1 /\
                res = active_messages t))).
Proof.
  unfold Add.
  destruct (Z.ltb_spec 0x1fffffff cid); [intros [= <- <-]; auto|].
  destruct (Z.ltb_spec 63 ofs); [intros [= <- <-]; auto 6|].
  destruct (Z.ltb_spec 32 len); [intros [= <- <-]; auto 8|].
  destruct (FindById canMap (u32 cid)) as [e|] eqn:Hid.
  - destruct (canMap !! e) as [m|] eqn:Hm; [|done].
    destruct (list_find _ (items m)) as [[j p]|] eqn:Hfree; [|done].
    intros Hadd. do 4 right. do 3 (split; [done|]).
    exists e, canMap, m, j, p.
    split; [by left|]. do 2 (split; [done|]).
    destruct (Z.eqb_spec (numBits p) NUMBITS_LASTMARKER);
      injection Hadd as <- <-; [by left|by right].
  - destruct (FindById canMap CANID_UNSET) as [e|] eqn:Hun.
    + destruct (alter _ e canMap !! e) as [m|] eqn:Hm; [|done].
      destruct (list_find _ (items m)) as [[j p]|] eqn:Hfree; [|done].
      intros Hadd. do 4 right. do 3 (split; [done|]).
      exists e, (alter (set_canId (u32 cid)) e canMap), m, j, p.
      split; [by right|]. do 2 (split; [done|]).
      destruct (Z.eqb_spec (numBits p) NUMBITS_LASTMARKER);
        injection Hadd as <- <-; [by left|by right].
    + intros [= <- <-]. do 3 right. left. done.
Qed.

(** The three argument checks, in the order the code makes them: each
    failure leaves the table as it was, whatever the table holds, and the
    bit offset [obits] plays no part in any of them. *)
Theorem Add_argument_checks canMap param cid obits len g ofs :
  (0x1fffffff < cid ->
     Add canMap param cid obits len g ofs = Ok (CAN_ERR_INVALID_ID, canMap))
  /\ (cid <= 0x1fffffff -> 63 < ofs ->
     Add canMap param cid obits len g ofs = Ok (CAN_ERR_INVALID_OFS, canMap))
  /\ (cid <= 0x1fffffff -> ofs <= 63 -> 32 < len ->
     Add canMap param cid obits len g ofs = Ok (CAN_ERR_INVALID_LEN, canMap))
  /\ (forall res t,
     Add canMap param cid obits len g ofs = Ok (res, t) ->
     (res = CAN_ERR_INVALID_ID <-> 0x1fffffff < cid)
     /\ (res = CAN_ERR_INVALID_OFS <-> cid <= 0x1fffffff /\ 63 < ofs)
     /\ (res = CAN_ERR_INVALID_LEN <-> cid <= 0x1fffffff /\ ofs <= 63 /\ 32 < len)).
Proof.
  assert (forall t, 0 <= active_messages t) as Hpos
    by (intros; unfold active_messages; lia).
  split; [|split; [|split]].
  - intros. unfold Add. by destruct (Z.ltb_spec 0x1fffffff cid); [|lia].
  - intros. unfold Add. destruct (Z.ltb_spec 0x1fffffff cid); [lia|].
    by destruct (Z.ltb_spec 63 ofs); [|lia].
  - intros. unfold Add. destruct (Z.ltb_spec 0x1fffffff cid); [lia|].
    destruct (Z.ltb_spec 63 ofs); [lia|].
    by destruct (Z.ltb_spec 32 len); [|lia].
  - intros res t Hadd.
    apply Add_Ok_inv in Hadd
      as [?|[?|[?|[?|(?&?&?&e&c1&m&j&p&_&_&_&[?|(?&?&?)])]]]];
      try (pose proof (Hpos t));
      unfold CAN_ERR_INVALID_ID, CAN_ERR_INVALID_OFS, CAN_ERR_INVALID_LEN,
        CAN_ERR_MAXMESSAGES, CAN_ERR_MAXITEMS in *; lia.
Qed.

(** ** The table invariant under Can::Add *)

Lemma take_while_ext_fmap {A B} (f : A -> B) (a : A -> bool) (b : B -> bool) l :
  (forall x, a x = b (f x)) ->
  f <$> take_while a l = take_while b (f <$> l).
Proof.
  intros Hab. induction l as [|x l IH]; [done|].
  csimpl. rewrite <- Hab. destruct (a x); csimpl; by rewrite ?IH.
Qed.

Lemma forEachCanMap_ids canMap :
  canId <$> forEachCanMap canMap
  = take_while id_active (take MAX_MESSAGES (canId <$> canMap)).
Proof.
  unfold forEachCanMap. rewrite <- fmap_take.
  by apply take_while_ext_fmap.
Qed.

Lemma active_length_ids t t' :
  canId <$> t = canId <$> t' ->
  length (forEachCanMap t) = length (forEachCanMap t').
Proof.
  intros Hids.
  rewrite <- (length_fmap canId (forEachCanMap t)).
  rewrite <- (length_fmap canId (forEachCanMap t')).
  by rewrite !forEachCanMap_ids, Hids.
Qed.

Lemma messages_packed_ids t t' :
  canId <$> t = canId <$> t' -> messages_packed t -> messages_packed t'.
Proof.
  intros Hids. unfold messages_packed.
  rewrite (active_length_ids t t' Hids).
  intros Hp.
  assert (Forall (fun id => id_active id = false)
            (canId <$> drop (length (forEachCanMap t')) t)) as Hp'
    by by apply Forall_fmap.
  rewrite fmap_drop, Hids, <- fmap_drop in Hp'.
  by apply Forall_fmap in Hp'.
Qed.

Lemma set_item_ids e j p t : canId <$> set_item e j p t = canId <$> t.
Proof.
  unfold set_item. revert e. induction t as [|m t IH]; intros [|e]; csimpl;
    try done. by rewrite IH.
Qed.

Lemma set_item_length e j p t : length (set_item e j p t) = length t.
Proof. unfold set_item. by rewrite length_alter. Qed.

(** A list whose elements satisfying [a] come first, and a store into the
    first element that does not. *)
Lemma packed_split {A} (a : A -> bool) (l : list A) j x :
  l !! j = Some x -> a x = false ->
  (forall k y, l !! k = Some y -> (k < j)%nat -> a y = true) ->
  Forall (fun y => a y = false) (drop (length (take_while a l)) l) ->
  exists B S, l = B ++ x :: S /\ length B = j /\
    Forall (fun y => a y = true) B /\ Forall (fun y => a y = false) S.
Proof.
  intros Hj Hx Hbefore Hpacked.
  exists (take j l), (drop (S j) l).
  assert (Forall (fun y => a y = true) (take j l)) as HB.
  { apply Forall_forall. intros y Hy. apply list_elem_of_lookup in Hy as [k Hk].
    apply lookup_take_Some in Hk as [Hk ?]. eauto. }
  assert (l = take j l ++ x :: drop (S j) l) as Hl
    by by rewrite take_drop_middle.
  split; [done|]. split; [apply length_take_le; apply lookup_lt_Some in Hj; lia|].
  split; [done|].
  rewrite Hl in Hpacked at 1 2. rewrite take_while_stop in Hpacked by done.
  rewrite drop_app_length in Hpacked. by apply Forall_cons in Hpacked as [_ ?].
Qed.

Lemma packed_store {A} (a : A -> bool) (B S : list A) x :
  Forall (fun y => a y = true) B -> Forall (fun y => a y = false) S ->
  Forall (fun y => a y = false)
         (drop (length (take_while a (B ++ x :: S))) (B ++ x :: S)).
Proof.
  intros HB HS. destruct (a x) eqn:Hx.
  - rewrite take_while_app by done. cbn [take_while]. rewrite Hx.
    rewrite take_while_false_head by done.
    rewrite (cons_middle x B S), app_assoc, drop_app_length'; [done|].
    by rewrite !length_app.
  - rewrite take_while_stop by done. rewrite drop_app_length.
    by apply Forall_cons.
Qed.

Lemma fields_packed_store m j p item :
  length (items m) = MAX_ITEMS_PER_MESSAGE ->
  fields_packed m ->
  list_find (fun p => numBits p <= 0) (items m) = Some (j, p) ->
  fields_packed (set_items (<[ j := item ]> (items m)) m).
Proof.
  intros Hlen Hpacked Hfree. apply first_free_find in Hfree as (Hj & Hp & Hbefore).
  unfold fields_packed in *.
  rewrite forEachPosMap_shape in * by (simpl; rewrite ?length_insert; lia).
  simpl.
  destruct (packed_split pos_active (items m) j p) as (B & S & Hl & HB & ? & ?);
    try done.
  - unfold pos_active. apply Z.ltb_ge. lia.
  - intros k y Hk Hlt. unfold pos_active. apply Z.ltb_lt. eauto.
  - rewrite Hl. replace j with (length B + 0)%nat by lia.
    rewrite insert_app_r. simpl. by apply packed_store.
Qed.

Lemma messages_packed_alloc canMap e v :
  length canMap = MAX_MESSAGES -> ids_typed canMap -> messages_packed canMap ->
  FindById canMap CANID_UNSET = Some e ->
  messages_packed (alter (set_canId v) e canMap).
Proof.
  intros Hlen Htyped Hpacked Hun.
  apply FindById_Some in Hun as (m & He & Hm & Hbefore); [|done].
  unfold messages_packed in *.
  rewrite forEachCanMap_shape in * by (rewrite ?length_alter; lia).
  destruct (packed_split msg_active canMap e m) as (A & R & Hl & HA & ? & ?);
    try done.
  - unfold msg_active. rewrite Hm. done.
  - intros k y Hk Hlt. unfold msg_active. apply Z.ltb_lt.
    pose proof (Hbefore k y Hk Hlt).
    assert (0 <= canId y < 2 ^ 32)
      by (eapply (proj1 (Forall_forall _ _) Htyped), list_elem_of_lookup_2; eauto).
    unfold CANID_UNSET in *. lia.
  - rewrite Hl. replace e with (length A + 0)%nat by lia.
    rewrite alter_app_r. simpl. by apply packed_store.
Qed.

Lemma ids_unique_alloc canMap e v :
  length canMap = MAX_MESSAGES -> ids_unique canMap ->
  FindById canMap v = None -> FindById canMap CANID_UNSET = Some e ->
  ids_unique (alter (set_canId v) e canMap).
Proof.
  intros Hlen Huniq Hnone Hun.
  apply FindById_Some in Hun as (m & He & Hm & _); [|done].
  assert (forall m', m' ∈ canMap -> canId m' <> v) as Hv
    by by apply FindById_None.
  unfold ids_unique in *.
  rewrite <- (take_drop_middle canMap e m He) in Huniq, Hv |- *.
  assert (e = (length (take e canMap) + 0)%nat) as He'
    by (rewrite length_take_le; [lia|]; apply lookup_lt_Some in He; lia).
  rewrite He' at 1. rewrite alter_app_r. simpl.
  rewrite fmap_app, filter_app in *. rewrite fmap_cons, filter_cons in *.
  simpl in *. rewrite Hm in Huniq.
  destruct (decide (CANID_UNSET <> CANID_UNSET)); [done|].
  destruct (decide (v <> CANID_UNSET)); [|done].
  apply NoDup_app in Huniq as (H1 & H12 & H2).
  apply NoDup_app. split; [done|]. split.
  - intros x Hx. apply not_elem_of_cons. split; [|by apply H12].
    intros ->. apply list_elem_of_filter in Hx as [_ Hx].
    apply list_elem_of_fmap in Hx as (m' & Hm' & Hin).
    apply (Hv m'); [|done]. apply elem_of_app. by left.
  - apply NoDup_cons. split; [|done].
    intros Hx. apply list_elem_of_filter in Hx as [_ Hx].
    apply list_elem_of_fmap in Hx as (m' & Hm' & Hin).
    apply (Hv m'); [|done]. apply elem_of_app. right. by apply elem_of_cons; right.
Qed.

Lemma alloc_keeps canMap e v :
  table_shape canMap -> ids_typed canMap -> table_invariant canMap ->
  FindById canMap v = None -> FindById canMap CANID_UNSET = Some e ->
  0 <= v < 2 ^ 32 ->
  let t := alter (set_canId v) e canMap in
  table_shape t /\ ids_typed t /\ table_invariant t.
Proof.
  intros [Hlen Hitems] Htyped (Huniq & Hpacked & Hfields) Hnone Hun Hv t.
  subst t. repeat split.
  - by rewrite length_alter.
  - apply Forall_alter; [done|]. by intros m _ ?.
  - apply Forall_alter; [done|]. by intros m _ ?.
  - by apply ids_unique_alloc.
  - by apply messages_packed_alloc.
  - apply Forall_alter; [done|]. by intros m _ ?.
Qed.

Lemma store_keeps canMap e m j p item :
  table_shape canMap -> ids_typed canMap -> table_invariant canMap ->
  canMap !! e = Some m ->
  list_find (fun p => numBits p <= 0) (items m) = Some (j, p) ->
  let t := set_item e j item canMap in
  table_shape t /\ ids_typed t /\ table_invariant t.
Proof.
  intros [Hlen Hitems] Htyped (Huniq & Hpacked & Hfields) He Hfree t.
  subst t. repeat split.
  - by rewrite set_item_length.
  - unfold set_item. apply Forall_alter; [done|]. intros x _ Hx. simpl.
    by rewrite length_insert.
  - unfold set_item. apply Forall_alter; [done|]. by intros x _ ?.
  - unfold ids_unique. by rewrite set_item_ids.
  - eapply messages_packed_ids; [|done]. by rewrite set_item_ids.
  - unfold set_item. apply Forall_alter; [done|]. intros x Hx Hpx.
    rewrite He in Hx. injection Hx as <-.
    apply (fields_packed_store m j p); try done.
    eapply (proj1 (Forall_forall _ _) Hitems), list_elem_of_lookup_2; eauto.
Qed.

(** A call of [Add] that ends leaves a table that satisfies the invariant
    when it was given one, whatever the outcome (success or any of the
    five error codes). *)
Theorem Add_preserves_invariant canMap param cid obits len g ofs res t :
  table_shape canMap -> ids_typed canMap -> table_invariant canMap ->
  Add canMap param cid obits len g ofs = Ok (res, t) ->
  table_shape t /\ ids_typed t /\ table_invariant t.
Proof.
  intros Hshape Htyped Hinv Hadd.
  apply Add_Ok_inv in Hadd
    as [(_&->&_)|[(_&->&_)|[(_&->&_)|[(_&->&_)|
        (_&_&_&e&canMap1&m&j&p&Hfound&He&Hfree&Hend)]]]]; try done.
  assert (table_shape canMap1 /\ ids_typed canMap1 /\ table_invariant canMap1)
    as (Hshape1 & Htyped1 & Hinv1).
  { destruct Hfound as [[_ ->]|(Hnone & Hun & ->)]; [done|].
    apply alloc_keeps; try done. unfold u32. apply Z.mod_pos_bound. lia. }
  destruct Hend as [(_ & _ & ->)|(_ & -> & _)]; [done|].
  by apply (store_keeps canMap1 e m j p).
Qed.

Lemma Add_preserves_invariant_witness :
  exists res t,
    Add two_message_map 3 0x300 16 8 gain_one 0 = Ok (res, t)
    /\ table_shape t /\ ids_typed t /\ table_invariant t.
Proof.
  eexists _, _. split; [vm_compute; reflexivity|].
  eapply (Add_preserves_invariant two_message_map 3 0x300 16 8 gain_one 0);
    [apply (bool_decide_unpack _); vm_compute; exact I ..|].
  vm_compute. reflexivity.
Defined.

(** ** Can::Add: what a call leaves alone *)

Lemma FindById_lookup canMap id e :
  FindById canMap id = Some e ->
  exists m, canMap !! e = Some m /\ canId m = id.
Proof.
  unfold FindById. intros Hfind.
  apply fmap_Some in Hfind as ([e' m] & Hfind & ->).
  apply list_find_Some in Hfind as (Hm & Hid & _).
  apply lookup_take_Some in Hm as [Hm _]. eauto.
Qed.

(** A call of [Add] that ends changes at most one message [e] of the
    table, and of it at most the identifier (from [CANID_UNSET] to the
    requested one) and one item; after an error other than
    [CAN_ERR_MAXITEMS] the table is as it was, and a result that is not
    negative is the number of active messages of the table left. *)
Theorem Add_frame canMap param cid obits len g ofs res t :
  Add canMap param cid obits len g ofs = Ok (res, t) ->
  length t = length canMap
  /\ (res < 0 -> res <> CAN_ERR_MAXITEMS -> t = canMap)
  /\ (0 <= res -> res = active_messages t)
  /\ exists e,
      (forall k, k <> e -> t !! k = canMap !! k)
      /\ forall m m', canMap !! e = Some m -> t !! e = Some m' ->
           (canId m' = canId m \/
            (canId m = CANID_UNSET /\ canId m' = u32 cid))
           /\ exists j, forall i, i <> j -> items m' !! i = items m !! i.
Proof.
  assert (forall t, 0 <= active_messages t) as Hpos
    by (intros; unfold active_messages; lia).
  assert (forall c : list CANIDMAP, exists e : nat,
            (forall k, k <> e -> c !! k = c !! k)
            /\ forall m m', c !! e = Some m -> c !! e = Some m' ->
                 (canId m' = canId m \/
                  (canId m = CANID_UNSET /\ canId m' = u32 cid))
                 /\ exists j : nat, forall i, i <> j -> items m' !! i = items m !! i)
    as Hsame.
  { intros c. exists 0%nat. split; [done|]. intros m m' -> [= <-].
    split; [by left|]. by exists 0%nat. }
  intros Hadd.
  apply Add_Ok_inv in Hadd
    as [(->&->&_)|[(->&->&_)|[(->&->&_)|[(->&->&_)|
        (_&_&_&e&canMap1&m1&j&p&Hfound&He&Hfree&Hend)]]]];
    try (split; [done|]; split; [done|]; split; [done|]; apply Hsame).
  assert (length canMap1 = length canMap
          /\ (forall k, k <> e -> canMap1 !! k = canMap !! k)
          /\ (forall m, canMap !! e = Some m ->
                items m1 = items m /\
                (canId m1 = canId m \/
                 (canId m = CANID_UNSET /\ canId m1 = u32 cid))))
    as (Hlen1 & Hother1 & Hsame1).
  { destruct Hfound as [[_ ->]|(_ & Hun & ->)].
    - split; [done|]. split; [done|]. intros m Hm.
      rewrite Hm in He. injection He as ->. auto.
    - split; [by rewrite length_alter|].
      split; [by intros k Hk; rewrite list_lookup_alter_ne|].
      intros m Hm. rewrite list_lookup_alter_eq, Hm in He. simpl in He.
      injection He as <-.
      apply FindById_lookup in Hun as (m' & Hm' & Hid).
      rewrite Hm in Hm'. injection Hm' as <-. simpl. auto. }
  destruct Hend as [(_ & -> & ->)|(_ & -> & ->)].
  - split; [done|]. split; [done|].
    split; [unfold CAN_ERR_MAXITEMS; lia|].
    exists e. split; [done|]. intros m m' Hm Hm'.
    rewrite He in Hm'. injection Hm' as <-.
    destruct (Hsame1 m Hm) as [-> ?]. split; [done|]. by exists 0%nat.
  - split; [by rewrite set_item_length|].
    split; [intros; pose proof (Hpos (set_item e j
              (mkCANPOS (u16 param) ofs g (u8 obits) (s8 len)) canMap1)); lia|].
    split; [done|].
    exists e. split.
    + intros k Hk. unfold set_item. rewrite list_lookup_alter_ne by done. auto.
    + intros m m' Hm Hm'. unfold set_item in Hm'.
      rewrite list_lookup_alter_eq, He in Hm'. simpl in Hm'. injection Hm' as <-.
      destruct (Hsame1 m Hm) as [Hit Hid]. simpl. split; [done|].
      exists j. intros i Hi. rewrite list_lookup_insert_ne by done.
      by rewrite Hit.
Qed.

Lemma Add_frame_witness :
  exists res t,
    Add fieldless_map 4 0x100 8 8 gain_one 0 = Ok (res, t) /\
    length t = length fieldless_map /\ res = active_messages t.
Proof.
  eexists _, _. split; [vm_compute; reflexivity|].
  edestruct (Add_frame fieldless_map 4 0x100 8 8 gain_one 0)
    as (Hlen & _ & Hres & _); [vm_compute; reflexivity|].
  split; [exact Hlen|]. apply Hres. vm_compute. discriminate.
Defined.

(** ** Can::Add: a width of -1 *)

Lemma FindById_ids t t' id :
  canId <$> t = canId <$> t' -> FindById t id = FindById t' id.
Proof.
  intros Hids. unfold FindById.
  assert (forall l : list CANIDMAP,
            fst <$> list_find (fun m => canId m = id) l
            = fst <$> list_find (fun x => x = id) (canId <$> l)) as Hfind.
  { intros l. rewrite list_find_fmap. by destruct (list_find _ l) as [[??]|]. }
  by rewrite !Hfind, !fmap_take, Hids.
Qed.

Lemma FindById_alloc canMap v e :
  length canMap = MAX_MESSAGES ->
  FindById canMap v = None -> FindById canMap CANID_UNSET = Some e ->
  FindById (alter (set_canId v) e canMap) v = Some e.
Proof.
  intros Hlen Hnone Hun.
  apply FindById_Some in Hun as (m & He & Hm & _); [|done].
  apply FindById_Some; [by rewrite length_alter|].
  exists (set_canId v m). split; [by rewrite list_lookup_alter_eq, He|].
  split; [done|]. intros k m' Hk Hlt.
  rewrite list_lookup_alter_ne in Hk by lia.
  eapply FindById_None; eauto. by eapply list_elem_of_lookup_2.
Qed.

(** [Add] takes a width of [-1]: it passes the check [length > 32] and is
    stored as [numBits = NUMBITS_LASTMARKER].  From then on every call of
    [Add] for that identifier that passes the argument checks fails with
    [CAN_ERR_MAXITEMS] and changes nothing, however many items of the
    message are free. *)
Theorem Add_width_minus_one_closes_message canMap param cid obits g ofs res t :
  length canMap = MAX_MESSAGES ->
  Add canMap param cid obits (-1) g ofs = Ok (res, t) -> 0 <= res ->
  forall param' obits' len' g' ofs', ofs' <= 63 -> len' <= 32 ->
    Add t param' cid obits' len' g' ofs' = Ok (CAN_ERR_MAXITEMS, t).
Proof.
  intros Hlen Hadd Hres.
  assert (forall t, 0 <= active_messages t) as Hpos
    by (intros; unfold active_messages; lia).
  apply Add_Ok_inv in Hadd
    as [(->&_)|[(->&_)|[(->&_)|[(->&_)|
        (Hcid&_&_&e&canMap1&m&j&p&Hfound&He&Hfree&Hend)]]]]; try done.
  destruct Hend as [(_ & -> & _)|(_ & -> & _)]; [done|].
  assert (FindById canMap1 (u32 cid) = Some e) as Hid.
  { destruct Hfound as [[? ->]|(Hnone & Hun & ->)]; [done|].
    by apply FindById_alloc. }
  intros param' obits' len' g' ofs' Hofs' Hlen'.
  set (item := mkCANPOS (u16 param) ofs g (u8 obits) (s8 (-1))).
  unfold Add.
  destruct (Z.ltb_spec 0x1fffffff cid); [lia|].
  destruct (Z.ltb_spec 63 ofs'); [lia|].
  destruct (Z.ltb_spec 32 len'); [lia|].
  rewrite (FindById_ids _ canMap1) by apply set_item_ids. rewrite Hid.
  unfold set_item at 1. rewrite list_lookup_alter_eq, He. simpl.
  apply first_free_find in Hfree as (Hj & Hp & Hbefore).
  assert (list_find (fun p => numBits p <= 0) (<[ j := item ]> (items m))
          = Some (j, item)) as ->.
  { apply first_free_find. split; [|split].
    - apply list_lookup_insert_eq. by apply lookup_lt_Some in Hj.
    - done.
    - intros k q Hk Hlt. rewrite list_lookup_insert_ne in Hk by lia. eauto. }
  done.
Qed.

Lemma Add_width_minus_one_closes_message_witness :
  exists t,
    Add empty_map 1 0x100 0 (-1) gain_one 0 = Ok (1, t) /\
    Add t 2 0x100 8 8 gain_one 0 = Ok (CAN_ERR_MAXITEMS, t) /\
    FindMap t empty_map 1 = None.
Proof.
  eexists. split; [vm_compute; reflexivity|]. split.
  - eapply (Add_width_minus_one_closes_message empty_map 1 0x100 0 gain_one 0 1);
      [reflexivity|vm_compute; reflexivity|lia|lia|lia].
  - vm_compute. reflexivity.
Defined.

(** ** Can::Clear *)

Lemma forEachPosMap_clear_msg m : forEachPosMap (clear_msg m) = [].
Proof.
  unfold forEachPosMap. apply take_while_false_head.
  apply Forall_take. simpl. apply Forall_fmap, Forall_forall. done.
Qed.

Lemma cleared_invariant canMap :
  let t := clear_msg <$> canMap in
  table_invariant t /\ tidy t /\ ids_typed t /\ forEachCanMap t = [].
Proof.
  intros t.
  assert (forEachCanMap t = []) as Hnone.
  { unfold forEachCanMap. apply take_while_false_head.
    apply Forall_take. subst t. apply Forall_fmap, Forall_forall. done. }
  assert (forall m, Forall (fun p => numBits p = 0) (items (clear_msg m))) as Hz.
  { intros m. simpl. apply Forall_fmap, Forall_forall. done. }
  split; [|split; [|split]]; [| |subst t; by apply Forall_fmap, Forall_forall|done].
  - split; [|split].
    + unfold ids_unique. subst t. rewrite <- list_fmap_compose.
      clear Hnone. induction canMap as [|m canMap IH]; [constructor|]. csimpl.
      rewrite filter_cons. by destruct (decide _) as [Hne|]; [destruct Hne|].
    + unfold messages_packed. rewrite Hnone. simpl.
      subst t. apply Forall_fmap, Forall_forall. done.
    + subst t. apply Forall_fmap, Forall_forall. intros m _.
      unfold fields_packed, compose. rewrite forEachPosMap_clear_msg. simpl.
      apply Forall_fmap, Forall_forall. done.
  - split; [|split].
    + subst t. apply Forall_fmap, Forall_forall. intros m _.
      unfold tidy_items, compose. eapply Forall_drop, Hz.
    + rewrite Hnone. constructor.
    + rewrite Hnone. simpl. subst t. apply Forall_fmap, Forall_forall.
      intros m _. unfold compose. split; [done|]. apply Hz.
Qed.

(** [Clear] leaves both tables without a mapping, whatever they held: no
    parameter is found, [IterateCanMap] visits nothing, no identifier
    other than [CANID_UNSET] is found; the tables satisfy the invariant;
    clearing again changes nothing; the transmit queue and the
    peripheral are as before. *)
Theorem Clear_spec c :
  table_shape (canSendMap c) -> table_shape (canRecvMap c) ->
  let c' := Clear c in
  (forall param, FindMap (canSendMap c') (canRecvMap c') param = None)
  /\ IterateCanMap c' = []
  /\ (forall id, id <> CANID_UNSET ->
        FindById (canSendMap c') id = None /\ FindById (canRecvMap c') id = None)
  /\ table_shape (canSendMap c') /\ table_shape (canRecvMap c')
  /\ table_invariant (canSendMap c') /\ table_invariant (canRecvMap c')
  /\ tidy (canSendMap c') /\ tidy (canRecvMap c')
  /\ Clear c' = c'
  /\ sendBuffer c' = sendBuffer c /\ sendCnt c' = sendCnt c
  /\ canDev c' = canDev c /\ nodeId c' = nodeId c /\ isSaving c' = isSaving c.
Proof.
  intros Hs Hr c'.
  assert (canSendMap c' = clear_msg <$> canSendMap c) as Hs'
    by (by apply ClearMap_shape).
  assert (canRecvMap c' = clear_msg <$> canRecvMap c) as Hr'
    by (by apply ClearMap_shape).
  destruct (cleared_invariant (canSendMap c)) as (Hsi & Hst & _ & Hsn).
  destruct (cleared_invariant (canRecvMap c)) as (Hri & Hrt & _ & Hrn).
  rewrite <- Hs' in Hsi, Hst, Hsn. rewrite <- Hr' in Hri, Hrt, Hrn.
  assert (table_shape (canSendMap c')) as Hss by by apply ClearMap_table_shape.
  assert (table_shape (canRecvMap c')) as Hrs by by apply ClearMap_table_shape.
  split; [|split; [|split]].
  - intros param. apply FindMap_None. unfold mapped_items. by rewrite Hsn, Hrn.
  - unfold IterateCanMap, visit_map. by rewrite Hsn, Hrn.
  - intros id Hid.
    split; apply FindById_None; try apply Hss; try apply Hrs;
      intros m Hm; [rewrite Hs' in Hm|rewrite Hr' in Hm];
      apply list_elem_of_fmap in Hm as (m0 & -> & _); simpl; congruence.
  - do 6 (split; [done|]).
    split; [|done].
    assert (forall l, Forall (fun m => canId m = CANID_UNSET /\
                        Forall (fun p => numBits p = 0) (items m)) l ->
              clear_msg <$> l = l) as Hid.
    { intros l Hl. induction Hl as [|m l [??] _ IH]; [done|].
      csimpl. by rewrite IH, clear_unused. }
    assert (ClearMap (canSendMap c') = canSendMap c') as Es.
    { rewrite (ClearMap_shape _ Hss). apply Hid.
      destruct Hst as (_ & _ & Hsu). rewrite Hsn in Hsu. exact Hsu. }
    assert (ClearMap (canRecvMap c') = canRecvMap c') as Er.
    { rewrite (ClearMap_shape _ Hrs). apply Hid.
      destruct Hrt as (_ & _ & Hru). rewrite Hrn in Hru. exact Hru. }
    unfold Clear at 1. rewrite Es, Er. apply with_maps_same.
Qed.

Lemma Clear_spec_witness :
  let c := Clear (can_with two_message_map fieldless_map) in
  FindMap (canSendMap c) (canRecvMap c) 1 = None
  /\ IterateCanMap c = [] /\ Clear c = c.
Proof.
  intros c.
  destruct (Clear_spec (can_with two_message_map fieldless_map))
    as (Hfind & Hiter & _ & _ & _ & _ & _ & _ & _ & Hidem & _);
    [apply (bool_decide_unpack _); vm_compute; exact I ..|].
  split; [apply Hfind|]. split; [exact Hiter|exact Hidem].
Defined.

(** ** Can::RemoveFromMap: what the rebuilt table holds *)

Lemma contents_zip param ks : forall canMap,
  Forall (good_entry param) ks ->
  Forall (fun m => length (items m) = MAX_ITEMS_PER_MESSAGE) canMap ->
  (length ks <= length canMap)%nat ->
  (fun m => (canId m, forEachPosMap m)) <$> zip_with put_msg ks (clear_msg <$> canMap)
  = ks.
Proof.
  induction ks as [|e ks IH]; intros canMap Hgood Hshape Hlen; [done|].
  destruct canMap as [|m canMap]; [simpl in Hlen; lia|].
  apply Forall_cons in Hgood as [He Hgood].
  apply Forall_cons in Hshape as [Hm Hshape].
  change (zip_with put_msg (e :: ks) (clear_msg <$> m :: canMap))
    with (put_msg e (clear_msg m) :: zip_with put_msg ks (clear_msg <$> canMap)).
  rewrite fmap_cons, IH by (done || simpl in Hlen; lia).
  rewrite (forEachPosMap_put_msg param) by done. by destruct e.
Qed.

Lemma tidy_items_put_msg param e m :
  good_entry param e ->
  length (items m) = MAX_ITEMS_PER_MESSAGE ->
  tidy_items (items (put_msg e (clear_msg m))).
Proof.
  intros (_ & _ & Hact & _ & Hlen) Hm. unfold tidy_items, put_msg. simpl.
  assert (Forall (fun p => numBits p = 0)
            (drop (length (snd e)) (set_numBits 0 <$> items m))) as Hzero
    by (apply Forall_drop, Forall_fmap, Forall_forall; done).
  rewrite take_while_app by done.
  rewrite take_while_false_head, app_nil_r, drop_app_length; [done|].
  eapply Forall_impl; [exact Hzero|]. intros p Hp. unfold pos_active.
  rewrite Hp. done.
Qed.

Lemma tidy_items_clear_msg m : tidy_items (items (clear_msg m)).
Proof.
  unfold tidy_items. apply Forall_drop. simpl.
  apply Forall_fmap, Forall_forall. done.
Qed.

Lemma rebuilt_tidy param ks canMap :
  Forall (good_entry param) ks ->
  (length ks <= length canMap)%nat ->
  table_shape canMap ->
  tidy (placed ks (clear_msg <$> canMap)).
Proof.
  intros Hgood Hks [Hlen Hitems].
  split; [|split].
  - unfold placed. apply Forall_app. split.
    + clear Hlen. revert canMap Hks Hitems.
      induction Hgood as [|e ks He _ IH]; intros canMap Hks Hitems; [constructor|].
      destruct canMap as [|m canMap]; [simpl in Hks; lia|].
      apply Forall_cons in Hitems as [Hm Hitems].
      change (zip_with put_msg (e :: ks) (clear_msg <$> m :: canMap))
        with (put_msg e (clear_msg m) :: zip_with put_msg ks (clear_msg <$> canMap)).
      apply Forall_cons. split; [by apply (tidy_items_put_msg param)|].
      apply IH; [simpl in Hks; lia|done].
    + apply Forall_drop, Forall_fmap, Forall_forall. intros m _.
      apply tidy_items_clear_msg.
  - rewrite (forEachCanMap_placed param) by done.
    assert (Forall (fun e : Z * list CANPOS => snd e <> [])
              ((fun m => (canId m, forEachPosMap m)) <$>
               zip_with put_msg ks (clear_msg <$> canMap))) as Hne.
    { rewrite (contents_zip param) by done.
      eapply Forall_impl; [exact Hgood|]. by intros e (_ & ? & _). }
    apply (proj1 (Forall_fmap _ (fun e : Z * list CANPOS => snd e <> []) _)) in Hne.
    exact Hne.
  - rewrite (forEachCanMap_placed param) by done.
    unfold placed. rewrite drop_app_length.
    apply Forall_drop, Forall_fmap, Forall_forall. intros m _.
    split; [done|]. simpl. apply Forall_fmap, Forall_forall. done.
Qed.

Lemma tidy_packed canMap :
  table_shape canMap -> tidy canMap ->
  messages_packed canMap /\ Forall fields_packed canMap.
Proof.
  intros [Hlen Hitems] (Hti & _ & Hrest). split.
  - unfold messages_packed. eapply Forall_impl; [exact Hrest|].
    intros m [Hid _]. unfold msg_active. by rewrite Hid.
  - apply Forall_forall. intros m Hm.
    pose proof (proj1 (Forall_forall _ _) Hti m Hm) as Ht.
    pose proof (proj1 (Forall_forall _ _) Hitems m Hm) as Hl.
    cbv beta in Ht, Hl. unfold fields_packed. rewrite forEachPosMap_shape by lia.
    eapply Forall_impl; [exact Ht|]. intros p Hp. unfold pos_active.
    by rewrite Hp.
Qed.

Lemma placed_shape param ks canMap :
  Forall (good_entry param) ks ->
  (length ks <= length canMap)%nat ->
  table_shape canMap ->
  table_shape (placed ks (clear_msg <$> canMap)).
Proof.
  intros Hgood Hks [Hlen Hitems]. split.
  - rewrite placed_length; rewrite length_fmap; lia.
  - unfold placed. apply Forall_app. split.
    + clear Hlen. revert canMap Hks Hitems.
      induction Hgood as [|e ks He _ IH]; intros canMap Hks Hitems; [constructor|].
      destruct canMap as [|m canMap]; [simpl in Hks; lia|].
      apply Forall_cons in Hitems as [Hm Hitems].
      change (zip_with put_msg (e :: ks) (clear_msg <$> m :: canMap))
        with (put_msg e (clear_msg m) :: zip_with put_msg ks (clear_msg <$> canMap)).
      apply Forall_cons. split.
      * destruct He as (_ & _ & _ & _ & ?).
        apply put_msg_shape; [done|]. by apply clear_msg_shape.
      * apply IH; [simpl in Hks; lia|done].
    + apply Forall_drop, Forall_fmap, Forall_forall. intros m Hm.
      apply clear_msg_shape.
      by apply (proj1 (Forall_forall _ _) Hitems m).
Qed.

Lemma filter_filter_ne q param (l : list CANPOS) :
  q <> param ->
  filter (fun p => mapParam p = q) (filter (fun p => mapParam p <> param) l)
  = filter (fun p => mapParam p = q) l.
Proof.
  intros Hq. induction l as [|p l IH]; [done|].
  rewrite !filter_cons.
  destruct (decide (mapParam p <> param)) as [Hne|Heq].
  - rewrite filter_cons. by rewrite IH.
  - rewrite IH. destruct (decide (mapParam p = q)); [|done].
    exfalso. apply Heq. congruence.
Qed.

Lemma kept_bind q param maps :
  q <> param ->
  kept param maps ≫= (fun e => filter (fun p => mapParam p = q) (snd e))
  = maps ≫= (fun m => filter (fun p => mapParam p = q) (forEachPosMap m)).
Proof.
  intros Hq. induction maps as [|m maps IH]; [done|].
  rewrite kept_cons, bind_app, bind_cons, IH. f_equal.
  destruct (decide (keep param m = [])) as [Hnil|Hne].
  - rewrite <- (filter_filter_ne q param) by done.
    unfold keep in Hnil. by rewrite Hnil.
  - rewrite bind_cons. csimpl. rewrite app_nil_r.
    by apply filter_filter_ne.
Qed.

Lemma mapped_items_contents q t :
  mapped_items q t
  = contents t ≫= (fun e => filter (fun p => mapParam p = q) (snd e)).
Proof.
  unfold mapped_items, contents.
  induction (forEachCanMap t) as [|m l IH]; [done|].
  by rewrite fmap_cons, !bind_cons, IH.
Qed.

Lemma kept_length_shape param canMap :
  table_shape canMap ->
  (length (kept param (forEachCanMap canMap)) <= length canMap)%nat.
Proof.
  intros [Hlen _]. pose proof (kept_length param (forEachCanMap canMap)).
  pose proof (forEachCanMap_length canMap). lia.
Qed.

Lemma RemoveFromMap_holds scratch canMap param :
  table_shape scratch -> table_shape canMap ->
  let r := RemoveFromMap scratch canMap param in
  fst r = Z.of_nat (length (mapped_items param canMap))
  /\ contents (snd r) = kept param (forEachCanMap canMap)
  /\ mapped_items param (snd r) = []
  /\ forall q, q <> param -> mapped_items q (snd r) = mapped_items q canMap.
Proof.
  intros Hscratch Hshape r. subst r.
  rewrite RemoveFromMap_spec by done. cbn [fst snd].
  pose proof (kept_length_shape param canMap Hshape) as Hks.
  assert (Forall (good_entry param) (kept param (forEachCanMap canMap))) as Hgood
    by (apply kept_good, take_while_Forall).
  destruct Hshape as [Hlen Hitems].
  assert (contents (placed (kept param (forEachCanMap canMap)) (clear_msg <$> canMap))
          = kept param (forEachCanMap canMap)) as Hcontents.
  { unfold contents. rewrite (forEachCanMap_placed param) by done.
    by apply (contents_zip param). }
  split; [apply removed_in_mapped|]. split; [done|]. split.
  - apply rebuilt_unmapped; [done|lia|done].
  - intros q Hq. rewrite mapped_items_contents, Hcontents.
    by rewrite kept_bind.
Qed.

(** What [RemoveFromMap] leaves of a table: the active messages in their
    order, each with its active items that are bound to other
    parameters, in their order, and without the messages left with no
    item.  It returns the number of active items bound to the parameter;
    the mappings of every other parameter are the same as before. *)
Theorem RemoveFromMap_contents scratch canMap param :
  table_shape scratch -> table_shape canMap ->
  let r := RemoveFromMap scratch canMap param in
  fst r = Z.of_nat (length (mapped_items param canMap))
  /\ contents (snd r) = kept param (forEachCanMap canMap)
  /\ mapped_items param (snd r) = []
  /\ forall q, q <> param -> mapped_items q (snd r) = mapped_items q canMap.
Proof. apply RemoveFromMap_holds. Qed.

Lemma RemoveFromMap_contents_witness :
  let r := RemoveFromMap zeroed_map two_message_map 1 in
  fst r = 2
  /\ contents (snd r) = [(0x100, [mkCANPOS 2 0 gain_one 8 8])]
  /\ mapped_items 2 (snd r) = [mkCANPOS 2 0 gain_one 8 8].
Proof.
  intros r.
  destruct (RemoveFromMap_contents zeroed_map two_message_map 1)
    as (Hn & Hc & _ & Hq);
    [apply (bool_decide_unpack _); vm_compute; exact I ..|].
  split; [exact Hn|]. split; [exact Hc|]. apply (Hq 2). discriminate.
Defined.

(** ** Can::RemoveFromMap: the state of the rebuilt table *)

Lemma filter_all {A} (P : A -> Prop) `{forall x, Decision (P x)} (l : list A) :
  Forall P l -> filter P l = l.
Proof.
  induction 1 as [|x l Hx _ IH]; [done|].
  rewrite filter_cons. destruct (decide (P x)); [by rewrite IH|done].
Qed.

Lemma filter_none {A} (P : A -> Prop) `{forall x, Decision (P x)} (l : list A) :
  Forall (fun x => ~ P x) l -> filter P l = [].
Proof.
  induction 1 as [|x l Hx _ IH]; [done|].
  rewrite filter_cons. destruct (decide (P x)); [done|by rewrite IH].
Qed.

Lemma ids_split canMap :
  (length canMap <= MAX_MESSAGES)%nat ->
  canId <$> canMap
  = (fst <$> contents canMap)
    ++ (canId <$> drop (length (forEachCanMap canMap)) canMap).
Proof.
  intros Hlen. unfold contents. rewrite <- list_fmap_compose.
  rewrite <- fmap_app. f_equal.
  rewrite forEachCanMap_shape by done. by rewrite take_while_drop.
Qed.

Lemma contents_ids_active canMap :
  Forall (fun id => id <> CANID_UNSET) (fst <$> contents canMap).
Proof.
  unfold contents. rewrite <- list_fmap_compose.
  apply Forall_fmap. eapply Forall_impl; [apply take_while_Forall|].
  intros m Hm. unfold compose. simpl. unfold msg_active in Hm.
  apply Z.ltb_lt in Hm. lia.
Qed.

Lemma ids_unique_contents canMap :
  (length canMap <= MAX_MESSAGES)%nat ->
  ids_unique canMap -> NoDup (fst <$> contents canMap).
Proof.
  intros Hlen Huniq. unfold ids_unique in Huniq.
  rewrite (ids_split canMap Hlen), filter_app in Huniq.
  rewrite (filter_all _ _ (contents_ids_active canMap)) in Huniq.
  by apply NoDup_app in Huniq as [? _].
Qed.

Lemma tidy_ids_unique canMap :
  table_shape canMap -> tidy canMap ->
  NoDup (fst <$> contents canMap) -> ids_unique canMap.
Proof.
  intros [Hlen _] (_ & _ & Hrest) Hnodup. unfold ids_unique.
  rewrite (ids_split canMap) by lia. rewrite filter_app.
  rewrite (filter_all _ _ (contents_ids_active canMap)).
  rewrite filter_none; [by rewrite app_nil_r|].
  apply Forall_fmap. eapply Forall_impl; [exact Hrest|].
  intros m [Hid _] Hne. by apply Hne.
Qed.

Lemma kept_ids_sublist param maps :
  fst <$> kept param maps `sublist_of` canId <$> maps.
Proof.
  induction maps as [|m maps IH]; [done|].
  rewrite kept_cons. destruct (decide (keep param m = [])).
  - simpl. by apply sublist_cons.
  - simpl. by apply sublist_skip.
Qed.

(** The table [RemoveFromMap] leaves has every slot that is not in use in
    the state [ClearMap] gives it, whatever the table held in its unused
    slots and whatever the stack held where the copy is built; it
    satisfies the invariant when the identifiers were unique; and
    removing the same parameter once more returns 0 and changes
    nothing. *)
Theorem RemoveFromMap_invariant scratch canMap param :
  table_shape scratch -> table_shape canMap ->
  let t := snd (RemoveFromMap scratch canMap param) in
  table_shape t /\ tidy t
  /\ messages_packed t /\ Forall fields_packed t
  /\ (ids_unique canMap -> table_invariant t)
  /\ (forall scratch', table_shape scratch' ->
        RemoveFromMap scratch' canMap param = RemoveFromMap scratch canMap param)
  /\ (forall scratch', table_shape scratch' ->
        RemoveFromMap scratch' t param = (0, t)).
Proof.
  intros Hscratch Hshape t.
  destruct (RemoveFromMap_holds scratch canMap param Hscratch Hshape)
    as (_ & Hcontents & Hnone & _).
  fold t in Hcontents, Hnone.
  assert (t = placed (kept param (forEachCanMap canMap)) (clear_msg <$> canMap))
    as Ht by (subst t; by rewrite RemoveFromMap_spec).
  pose proof (kept_length_shape param canMap Hshape) as Hks.
  assert (Forall (good_entry param) (kept param (forEachCanMap canMap))) as Hgood
    by (apply kept_good, take_while_Forall).
  assert (table_shape t) as Hshape_t by (rewrite Ht; by apply (placed_shape param)).
  assert (tidy t) as Htidy by (rewrite Ht; by apply (rebuilt_tidy param)).
  destruct (tidy_packed t Hshape_t Htidy) as [Hmp Hfp].
  do 4 (split; [done|]). split; [|split].
  - intros Huniq. split; [|done].
    apply tidy_ids_unique; try done. rewrite Hcontents.
    eapply sublist_NoDup; [|apply kept_ids_sublist].
    assert (NoDup (fst <$> contents canMap)) as Hnd
      by (apply ids_unique_contents; [destruct Hshape; lia|done]).
    unfold contents in Hnd. by rewrite <- list_fmap_compose in Hnd.
  - intros scratch' Hscratch'. by rewrite !RemoveFromMap_spec.
  - intros scratch' Hscratch'. rewrite RemoveFromMap_spec by done.
    rewrite removed_in_mapped, Hnone. f_equal.
    by apply rebuilt_same.
Qed.

Lemma RemoveFromMap_invariant_witness :
  let t := snd (RemoveFromMap zeroed_map fieldless_map 7) in
  table_invariant t /\ tidy t /\ RemoveFromMap full_map t 7 = (0, t)
  /\ RemoveFromMap full_map fieldless_map 7 = RemoveFromMap zeroed_map fieldless_map 7.
Proof.
  intros t.
  destruct (RemoveFromMap_invariant zeroed_map fieldless_map 7)
    as (_ & Htidy & _ & _ & Hinv & Hscratch & Hagain);
    [apply (bool_decide_unpack _); vm_compute; exact I ..|].
  split; [apply Hinv; apply (bool_decide_unpack _); vm_compute; exact I|].
  split; [exact Htidy|].
  split; [apply Hagain|apply Hscratch];
    apply (bool_decide_unpack _); vm_compute; exact I.
Defined.

(** ** Can::FindMap and Can::IterateCanMap *)

Lemma visit_filter rx canMap param :
  filter (fun v => visited_param v = param) (visit_map rx canMap)
  = visit_of rx <$>
      (curMap ← forEachCanMap canMap;
       curPos ← filter (fun p => mapParam p = param) (forEachPosMap curMap);
       [(curMap, curPos)]).
Proof.
  unfold visit_map. induction (forEachCanMap canMap) as [|m l IH]; [done|].
  rewrite !bind_cons, filter_app, fmap_app, IH. f_equal.
  induction (forEachPosMap m) as [|p ps IHp]; [done|].
  rewrite bind_cons, filter_app, IHp, (filter_cons _ p). cbv beta.
  rewrite filter_cons, filter_nil. unfold visited_param at 1. cbn [fst snd].
  destruct (decide (mapParam p = param)); [|done].
  by rewrite bind_cons, fmap_app.
Qed.

(** [FindMap] returns the first mapping of the parameter that
    [IterateCanMap] visits, the send table before the receive table, with
    the same identifier (an [int] in both), bit offset, width, gain and
    direction; it finds none exactly when [IterateCanMap] visits none. *)
Theorem FindMap_first_visited c param :
  (fun '(canId, offset, length, gain, rx) =>
     (param, canId, offset, length, gain, rx))
    <$> FindMap (canSendMap c) (canRecvMap c) param
  = head (filter (fun v => visited_param v = param) (IterateCanMap c)).
Proof.
  unfold IterateCanMap. rewrite filter_app, !visit_filter.
  unfold FindMap, find_pos.
  destruct (forEachCanMap (canSendMap c) ≫= _) as [|[m p] ls] eqn:Hs.
  - simpl.
    destruct (forEachCanMap (canRecvMap c) ≫= _) as [|[m p] lr] eqn:Hr; [done|].
    simpl. unfold visit_of. simpl.
    assert (mapParam p = param) as <-; [|done].
    assert ((m, p) ∈ (m, p) :: lr) as Hin by constructor.
    rewrite <- Hr in Hin. apply list_elem_of_bind in Hin as (m' & Hin & _).
    apply list_elem_of_bind in Hin as (p' & Hin & Hp').
    apply list_elem_of_singleton in Hin as [= _ ->].
    by apply list_elem_of_filter in Hp' as [? _].
  - simpl. unfold visit_of. simpl.
    assert (mapParam p = param) as <-; [|done].
    assert ((m, p) ∈ (m, p) :: ls) as Hin by constructor.
    rewrite <- Hs in Hin. apply list_elem_of_bind in Hin as (m' & Hin & _).
    apply list_elem_of_bind in Hin as (p' & Hin & Hp').
    apply list_elem_of_singleton in Hin as [= _ ->].
    by apply list_elem_of_filter in Hp' as [? _].
Qed.

(** * The receive filters: Can::ConfigureFilters, Can::SetFilterBank,
    Can::RegisterUserMessage *)

Lemma left_align_0 : left_align 0 = 0.
Proof. reflexivity. Qed.

Lemma SetFilterBank_inv first ids s :
  length (idList s) = IDS_PER_BANK -> (idIndex s <= IDS_PER_BANK)%nat ->
  Forall (fun x => x = 0) (drop (idIndex s) (idList s)) ->
  filterId s = first + Z.of_nat (length (banks s)) ->
  bank_nr <$> banks s = seqZ first (Z.of_nat (length (banks s))) ->
  Forall bank_ok (banks s) ->
  (length (banks s) * IDS_PER_BANK + idIndex s = length ids)%nat ->
  concat (bank_ids <$> banks s) ++ (left_align <$> take (idIndex s) (idList s))
  = left_align <$> ids ->
  let s' := SetFilterBank s in
  let pad := (IDS_PER_BANK - idIndex s)%nat in
  filter_inv first (ids ++ replicate pad 0) s'
  /\ idIndex s' = 0%nat /\ length (banks s') = S (length (banks s)).
Proof.
  intros Hlen Hidx Hzero Hfid Hnr Hok Hcount Hids s' pad.
  assert (idList s = take (idIndex s) (idList s) ++ replicate pad 0) as Hsplit.
  { rewrite <- (take_drop (idIndex s) (idList s)) at 1. f_equal.
    apply list_eq_same_length with pad.
    - by rewrite length_replicate.
    - rewrite length_drop. subst pad. lia.
    - intros i x y Hi Hx Hy. apply lookup_replicate in Hy as [-> _].
      eapply (proj1 (Forall_forall _ _) Hzero), list_elem_of_lookup_2, Hx. }
  subst s'. unfold SetFilterBank, filter_inv. cbn [idIndex filterId idList banks].
  rewrite !length_app, !fmap_app, concat_app. cbn [length fmap list_fmap concat].
  rewrite length_replicate.
  split; [|split; [done|lia]].
  split; [done|]. split; [unfold IDS_PER_BANK; lia|].
  split; [apply Forall_drop, Forall_replicate; done|].
  split; [lia|]. split.
  { cbn [bank_nr]. replace (length (banks s) + 1)%nat with (S (length (banks s))) by lia.
    by rewrite seqZ_S, Hnr, Hfid. }
  split.
  { apply Forall_app. split; [done|]. apply Forall_singleton.
    unfold bank_ok. cbn [bank_ids bank_nr bank_fifo bank_enable].
    by rewrite length_fmap. }
  split. { subst pad; unfold IDS_PER_BANK in *. rewrite length_replicate. lia. }
  cbn [bank_ids]. rewrite take_0, app_nil_r. csimpl. rewrite app_nil_r.
  rewrite Hsplit at 1. rewrite !fmap_app, app_assoc, Hids. done.
Qed.

Lemma add_filter_id_inv first ids s id :
  filter_inv first ids s ->
  filter_inv first (ids ++ [u16 id]) (add_filter_id s id).
Proof.
  intros (Hlen & Hidx & Hzero & Hfid & Hnr & Hok & Hcount & Hids).
  unfold add_filter_id. cbn [idIndex].
  set (s1 := mkFilterState (S (idIndex s)) (filterId s)
                           (<[ idIndex s := u16 id ]> (idList s)) (banks s)).
  assert (take (S (idIndex s)) (<[ idIndex s := u16 id ]> (idList s))
          = take (idIndex s) (idList s) ++ [u16 id]) as Htake.
  { erewrite take_S_r; [|apply list_lookup_insert_eq; (unfold IDS_PER_BANK in *; lia)].
    by rewrite take_insert_ge by (unfold IDS_PER_BANK in *; lia). }
  assert (concat (bank_ids <$> banks s1)
          ++ (left_align <$> take (idIndex s1) (idList s1))
          = left_align <$> (ids ++ [u16 id])) as Hids1.
  { subst s1. cbn [idIndex idList banks]. rewrite Htake, !fmap_app, app_assoc.
    by rewrite Hids. }
  assert (Forall (fun x => x = 0) (drop (idIndex s1) (idList s1))) as Hzero1.
  { subst s1. cbn [idIndex idList]. rewrite drop_insert_lt by (unfold IDS_PER_BANK in *; lia).
    rewrite <- (Nat.add_1_r (idIndex s)), <- drop_drop. by apply Forall_drop. }
  assert (length (banks s1) * IDS_PER_BANK + idIndex s1
          = length (ids ++ [u16 id]))%nat as Hcount1
    by (subst s1; cbn [idIndex banks]; rewrite length_app; simpl; (unfold IDS_PER_BANK in *; lia)).
  assert (length (idList s1) = IDS_PER_BANK) as Hlen1
    by (subst s1; cbn [idList]; by rewrite length_insert).
  destruct (decide (S (idIndex s) = IDS_PER_BANK)) as [Hfull|Hnot].
  - destruct (SetFilterBank_inv first (ids ++ [u16 id]) s1) as (Hinv & _);
      try done; try (subst s1; cbn [idIndex]; unfold IDS_PER_BANK in *; lia).
    replace (IDS_PER_BANK - idIndex s1)%nat with 0%nat in Hinv
      by (subst s1; cbn [idIndex]; unfold IDS_PER_BANK in *; lia).
    by rewrite app_nil_r in Hinv.
  - unfold filter_inv. repeat split; try done.
    subst s1. cbn [idIndex]. (unfold IDS_PER_BANK in *; lia).
Qed.

Lemma foldl_add_filter_id_inv first l : forall ids s,
  filter_inv first ids s ->
  filter_inv first (ids ++ (u16 <$> l)) (foldl add_filter_id s l).
Proof.
  induction l as [|id l IH]; intros ids s Hinv.
  - by rewrite app_nil_r.
  - csimpl. rewrite cons_middle, app_assoc.
    by apply IH, add_filter_id_inv.
Qed.

Lemma left_align_u16 id : left_align (u16 id) = 32 * (id mod 2 ^ 11).
Proof.
  unfold left_align, u16. rewrite Z.shiftl_mul_pow2 by lia.
  change (2 ^ 5) with 32. change (2 ^ 16) with (2048 * 32).
  change (2 ^ 11) with 2048.
  rewrite Zmult_mod_distr_r.
  rewrite Z.mod_mod_divide; [lia|]. exists 32. lia.
Qed.

Lemma ConfigureFilters_banks first c u :
  let ids := u16 (0x600 + nodeId c) :: (u16 <$> listened_ids c u) in
  let bs := ConfigureFilters first c u in
  (exists pad : nat,
     (pad < IDS_PER_BANK)%nat
     /\ (length bs * IDS_PER_BANK = length ids + pad)%nat
     /\ concat (bank_ids <$> bs) = left_align <$> (ids ++ replicate pad 0))
  /\ bank_nr <$> bs = seqZ first (Z.of_nat (length bs))
  /\ Forall bank_ok bs
  /\ bs <> []
  /\ forall id, left_align (u16 id) = 32 * (id mod 2 ^ 11).
Proof.
  intros ids bs.
  set (s0 := mkFilterState 1 first
               (<[ 0%nat := u16 (0x600 + nodeId c) ]> (replicate IDS_PER_BANK 0)) []).
  assert (filter_inv first [u16 (0x600 + nodeId c)] s0) as Hinv0.
  { unfold filter_inv, s0. cbn [idIndex filterId idList banks].
    repeat split; try done.
    - unfold IDS_PER_BANK; lia.
    - simpl. repeat constructor.
    - simpl. (unfold IDS_PER_BANK in *; lia). }
  pose proof (foldl_add_filter_id_inv first (listened_ids c u) _ _ Hinv0) as Hinv.
  change ([u16 (0x600 + nodeId c)] ++ (u16 <$> listened_ids c u)) with ids in Hinv.
  assert (bs = banks (let s1 := foldl add_filter_id s0 (listened_ids c u) in
                      if (0 <? idIndex s1)%nat then SetFilterBank s1 else s1))
    as Hbs by done.
  cbv zeta in Hbs.
  set (s1 := foldl add_filter_id s0 (listened_ids c u)) in *.
  destruct Hinv as (Hlen & Hidx & Hzero & Hfid & Hnr & Hok & Hcount & Hids).
  assert (length ids = S (length (listened_ids c u))) as Hn
    by (subst ids; simpl; by rewrite length_fmap).
  destruct (Nat.ltb_spec 0 (idIndex s1)) as [Hpos|Hz].
  - destruct (SetFilterBank_inv first ids s1)
      as ((_ & _ & _ & _ & Hnr' & Hok' & Hcount' & Hids') & Hi0 & Hlb);
      try done; [(unfold IDS_PER_BANK in *; lia)|].
    rewrite <- Hbs in Hnr', Hok', Hcount', Hids', Hlb.
    rewrite Hi0, take_0, app_nil_r in Hids'. rewrite Hi0 in Hcount'.
    rewrite length_app, length_replicate in Hcount'.
    split; [|split; [done|split; [done|split]]].
    + exists (IDS_PER_BANK - idIndex s1)%nat.
      split; [(unfold IDS_PER_BANK in *; lia)|]. split; [(unfold IDS_PER_BANK in *; lia)|done].
    + intros Hnil. by rewrite Hnil in Hlb.
    + apply left_align_u16.
  - assert (idIndex s1 = 0%nat) as Hi0 by (unfold IDS_PER_BANK in *; lia).
    rewrite <- Hbs in Hnr, Hok, Hcount, Hids.
    rewrite Hi0, take_0, app_nil_r in Hids. rewrite Hi0 in Hcount.
    split; [|split; [done|split; [done|split]]].
    + exists 0%nat. split; [unfold IDS_PER_BANK; (unfold IDS_PER_BANK in *; lia)|].
      split; [(unfold IDS_PER_BANK in *; lia)|]. by rewrite app_nil_r.
    + intros Hnil. rewrite Hnil in Hcount. simpl in Hcount. (unfold IDS_PER_BANK in *; lia).
    + apply left_align_u16.
Qed.

(** [ConfigureFilters] programs the banks [first], [first + 1], ... in
    order and no other; every bank gets four identifiers, feeds the FIFO
    given by the parity of its number and is enabled; read bank after
    bank, the identifiers are the one of the SDO requests, the user
    identifiers and the identifiers of the active receive messages,
    followed by fewer than four zeros; at least one bank is programmed.
    What reaches a bank of an identifier is its low 11 bits, left
    aligned. *)
Theorem ConfigureFilters_spec first c u :
  let ids := u16 (0x600 + nodeId c) :: (u16 <$> listened_ids c u) in
  let bs := ConfigureFilters first c u in
  (exists pad : nat,
     (pad < IDS_PER_BANK)%nat
     /\ (length bs * IDS_PER_BANK = length ids + pad)%nat
     /\ concat (bank_ids <$> bs) = left_align <$> (ids ++ replicate pad 0))
  /\ bank_nr <$> bs = seqZ first (Z.of_nat (length bs))
  /\ Forall bank_ok bs
  /\ bs <> []
  /\ forall id, left_align (u16 id) = 32 * (id mod 2 ^ 11).
Proof. apply ConfigureFilters_banks. Qed.

Lemma left_align_u16_u16 id : left_align (u16 (u16 id)) = 32 * (id mod 2 ^ 11).
Proof.
  rewrite left_align_u16. unfold u16. rewrite Z.mod_mod_divide; [done|].
  exists 32. lia.
Qed.

Lemma ConfigureFilters_covers first c u id :
  id ∈ listened_ids c u ->
  32 * (id mod 2 ^ 11) ∈ concat (bank_ids <$> ConfigureFilters first c u).
Proof.
  intros Hid.
  destruct (ConfigureFilters_banks first c u) as ((pad & _ & _ & ->) & _).
  rewrite <- left_align_u16. apply list_elem_of_fmap_2.
  apply elem_of_app. left. apply elem_of_cons. right.
  by apply list_elem_of_fmap_2.
Qed.

(** [RegisterUserMessage] with room left ([nextUserMessageIndex] below
    [MAX_USER_MESSAGES]) appends the identifier, cut to 16 bits, to the
    user list, returns [true] and reprograms the filters; the banks then
    hold the low 11 bits of the identifier, left aligned, and still those
    of every identifier registered before.  Without room it returns
    [false], changes nothing and programs no bank.  The same identifier
    registered twice takes two places. *)
Theorem RegisterUserMessage_spec first c u cid :
  length (userIds u) = MAX_USER_MESSAGES ->
  let r := RegisterUserMessage first c u cid in
  let u' := snd (fst r) in
  ((nextUserMessageIndex u < MAX_USER_MESSAGES)%nat ->
     fst (fst r) = true
     /\ nextUserMessageIndex u' = S (nextUserMessageIndex u)
     /\ length (userIds u') = MAX_USER_MESSAGES
     /\ take (nextUserMessageIndex u') (userIds u')
        = take (nextUserMessageIndex u) (userIds u) ++ [u16 cid]
     /\ snd r = ConfigureFilters first c u'
     /\ 32 * (cid mod 2 ^ 11) ∈ concat (bank_ids <$> snd r)
     /\ forall id, id ∈ take (nextUserMessageIndex u) (userIds u) ->
          32 * (id mod 2 ^ 11) ∈ concat (bank_ids <$> snd r))
  /\ ((MAX_USER_MESSAGES <= nextUserMessageIndex u)%nat -> r = (false, u, [])).
Proof.
  intros Hlen r u'. subst u' r. unfold RegisterUserMessage. split.
  - intros Hroom. destruct (Nat.ltb_spec (nextUserMessageIndex u) MAX_USER_MESSAGES);
      [|lia].
    cbn [fst snd nextUserMessageIndex userIds].
    assert (take (S (nextUserMessageIndex u))
              (<[ nextUserMessageIndex u := u16 cid ]> (userIds u))
            = take (nextUserMessageIndex u) (userIds u) ++ [u16 cid]) as Htake.
    { erewrite take_S_r; [|apply list_lookup_insert_eq; lia].
      by rewrite take_insert_ge by lia. }
    split; [done|]. split; [done|]. split; [by rewrite length_insert|].
    split; [done|]. split; [done|]. split.
    + rewrite <- (Z.mod_mod_divide cid (2 ^ 16) (2 ^ 11)) by (exists 32; lia).
      apply ConfigureFilters_covers. unfold listened_ids.
      cbn [nextUserMessageIndex userIds]. rewrite Htake.
      apply elem_of_app. left. apply elem_of_app. right. by apply list_elem_of_singleton.
    + intros id Hid. apply ConfigureFilters_covers. unfold listened_ids.
      cbn [nextUserMessageIndex userIds]. rewrite Htake.
      apply elem_of_app. left. apply elem_of_app. by left.
  - intros Hfull. by destruct (Nat.ltb_spec (nextUserMessageIndex u) MAX_USER_MESSAGES);
      [lia|].
Qed.

Lemma RegisterUserMessage_spec_witness :
  let r := RegisterUserMessage 0 (can0 []) no_users 0x7e8 in
  fst (fst r) = true
  /\ snd r = [mkFilterBank 0 [0xc020; 0xfd00; 0; 0] 0 true]
  /\ 32 * (0x7e8 mod 2 ^ 11) ∈ concat (bank_ids <$> snd r).
Proof.
  intros r.
  destruct (RegisterUserMessage_spec 0 (can0 []) no_users 0x7e8 eq_refl)
    as [Hroom _].
  destruct Hroom as (Hok & _ & _ & _ & Hbs & Hin & _);
    [vm_compute; lia|].
  split; [exact Hok|]. split; [exact Hbs|exact Hin].
Defined.

(** * SDO frames: Can::SDOWrite, Can::HandleRx, Can::ProcessSDO *)

Lemma CAN_SDO_of_data_of sdo :
  CAN_SDO_typed sdo -> CAN_SDO_of_data (data_of_CAN_SDO sdo) = sdo.
Proof.
  intros (Hc & Hi & Hs & Hd). destruct sdo as [c i s d]. simpl in *.
  unfold CAN_SDO_of_data, data_of_CAN_SDO. simpl.
  change 0xff with (Z.ones 8). change 0xffff with (Z.ones 16).
  rewrite !Z.land_ones, !Z.shiftr_div_pow2 by lia.
  f_equal; Z.div_mod_to_equations; lia.
Qed.

Lemma data_of_CAN_SDO_of data :
  0 <= fst data < 2 ^ 32 -> data_of_CAN_SDO (CAN_SDO_of_data data) = data.
Proof.
  intros Hd. destruct data as [d0 d1]. simpl in *.
  unfold CAN_SDO_of_data, data_of_CAN_SDO. simpl.
  change 0xff with (Z.ones 8). change 0xffff with (Z.ones 16).
  rewrite !Z.land_ones, !Z.shiftr_div_pow2 by lia.
  f_equal. Z.div_mod_to_equations. lia.
Qed.

(** The structure [CAN_SDO] laid over the two payload words: writing the
    members and reading the words back, and the other way round, lose
    nothing. *)
Theorem CAN_SDO_layout sdo data :
  CAN_SDO_typed sdo -> 0 <= fst data < 2 ^ 32 ->
  CAN_SDO_of_data (data_of_CAN_SDO sdo) = sdo
  /\ data_of_CAN_SDO (CAN_SDO_of_data data) = data
  /\ 0 <= fst (data_of_CAN_SDO sdo) < 2 ^ 32.
Proof.
  intros Hsdo Hdata. split; [by apply CAN_SDO_of_data_of|].
  split; [by apply data_of_CAN_SDO_of|].
  destruct Hsdo as (? & ? & ? & ?). unfold data_of_CAN_SDO. simpl. lia.
Qed.

Lemma CAN_SDO_layout_witness :
  CAN_SDO_of_data (data_of_CAN_SDO (mkCAN_SDO SDO_READ 0x2001 7 0xdeadbeef))
  = mkCAN_SDO SDO_READ 0x2001 7 0xdeadbeef
  /\ data_of_CAN_SDO (CAN_SDO_of_data (0x07200122, 5)) = (0x07200122, 5).
Proof.
  destruct (CAN_SDO_layout (mkCAN_SDO SDO_READ 0x2001 7 0xdeadbeef) (0x07200122, 5))
    as (H1 & H2 & _).
  - unfold CAN_SDO_typed. simpl. unfold SDO_READ. lia.
  - simpl. lia.
  - split; [exact H1|exact H2].
Defined.

Section SDOFrames.
Context `{Params}.

Lemma Send_accepted c id data len :
  0 <= next_answer (canDev c) ->
  wire (canDev (Send c id data len))
  = wire (canDev c) ++ [mkSENDBUFFER id len data]
  /\ sendBuffer (Send c id data len) = sendBuffer c
  /\ sendCnt (Send c id data len) = sendCnt c.
Proof.
  unfold next_answer, Send, can_transmit. simpl.
  destruct (mbox (canDev c)) as [|r rest]; simpl; [lia|]. intros Hr.
  destruct (Z.ltb_spec r 0); [lia|]. simpl.
  by destruct (0 <? sendCnt c)%nat.
Qed.

(** The frame [SDOWrite] sends, once a mailbox takes it, is what the node
    [remoteNodeId] treats as an SDO request in [HandleRx]: identifier
    [0x600 + remoteNodeId], eight bytes, and [ProcessSDO] reads from it
    the command [SDO_WRITE] with the index, sub-index and data given. *)
Theorem SDOWrite_received frac c remote idx sub data c2 ps :
  0 <= next_answer (canDev c) -> nodeId c2 = u8 remote ->
  let req := mkCAN_SDO SDO_WRITE (u16 idx) (u8 sub) (u32 data) in
  exists f,
    wire (canDev (SDOWrite c remote idx sub data)) = wire (canDev c) ++ [f]
    /\ buf_id f = 0x600 + u8 remote /\ buf_len f = 8
    /\ CAN_SDO_of_data (buf_data f) = req
    /\ HandleRx_frame frac c2 ps (buf_id f) (buf_len f) (buf_data f)
       = (do (cp, reply) <- SDO_reply c2 ps req;
          Ok (Send (fst cp) (0x580 + nodeId c2) (data_of_CAN_SDO reply) 8,
              snd cp, None)).
Proof.
  intros Hacc Hnode req.
  assert (CAN_SDO_typed req) as Htyped.
  { unfold CAN_SDO_typed, req, SDO_WRITE. simpl. unfold u16, u8, u32.
    pose proof (Z.mod_pos_bound idx (2 ^ 16)).
    pose proof (Z.mod_pos_bound sub (2 ^ 8)).
    pose proof (Z.mod_pos_bound data (2 ^ 32)). lia. }
  exists (mkSENDBUFFER (0x600 + u8 remote) 8 (data_of_CAN_SDO req)).
  unfold SDOWrite. destruct (Send_accepted c (0x600 + u8 remote)
                               (data_of_CAN_SDO req) 8 Hacc) as (Hw & _ & _).
  split; [exact Hw|]. split; [done|]. split; [done|].
  cbn [buf_id buf_len buf_data].
  split; [by apply CAN_SDO_of_data_of|].
  unfold HandleRx_frame. rewrite Hnode, !Z.eqb_refl. cbn [andb].
  unfold ProcessSDO. rewrite CAN_SDO_of_data_of by done. rewrite Hnode.
  destruct (SDO_reply c2 ps req) as [[[c3 ps3] reply]|]; done.
Qed.

End SDOFrames.

Lemma SDOWrite_received_witness :
  let c := can0 [0] in
  let c2 := can0 [1] in
  exists f,
    wire (canDev (SDOWrite c 1 0x2000 2 77)) = [f]
    /\ @HandleRx_frame example_params 5 c2 [0; 0; 0; 0]
         (buf_id f) (buf_len f) (buf_data f)
       = Ok (Send c2 0x581 (data_of_CAN_SDO (mkCAN_SDO SDO_WRITE_REPLY 0x2000 2 77)) 8,
             [0; 0; 77; 0], None).
Proof.
  intros c c2.
  destruct (@SDOWrite_received example_params 5 c 1 0x2000 2 77 c2 [0; 0; 0; 0])
    as (f & Hwire & _ & _ & _ & Hrx); [vm_compute; discriminate|reflexivity|].
  exists f. split; [exact Hwire|]. rewrite Hrx. vm_compute. reflexivity.
Defined.

(** * Reception: Can::HandleRx *)

Section Reception.
Context `{Params}.

Lemma not_sdo_request_test c id len data :
  not_sdo_request c (id, len, data) ->
  (id =? 0x600 + nodeId c) && (len =? 8) = false.
Proof.
  unfold not_sdo_request. simpl. intros Hn.
  apply not_true_is_false. intros Ht. apply andb_true_iff in Ht as [H1 H2].
  apply Z.eqb_eq in H1, H2. auto.
Qed.

(** While [isSaving] is set, [HandleRx] drops every frame that is not an
    SDO request: the parameters and the object stay as they are and the
    callback is not called, whether the identifier is mapped or not. *)
Theorem HandleRx_while_saving frac c ps frames :
  isSaving c = true -> Forall (not_sdo_request c) frames ->
  HandleRx frac c ps frames = Ok (c, ps, []).
Proof.
  intros Hsaving Hframes.
  induction Hframes as [|[[id len] data] frames Hf _ IH]; [done|].
  cbn [HandleRx]. unfold HandleRx_frame.
  rewrite (not_sdo_request_test _ _ _ _ Hf), Hsaving. cbn [bind fst snd].
  rewrite IH. done.
Qed.

(** While [isSaving] is clear, frames that are no SDO requests and whose
    identifiers [FindById] does not find in the receive table go to the
    callback, in order and unchanged; nothing else happens. *)
Theorem HandleRx_unmapped frac c ps frames :
  isSaving c = false -> Forall (not_sdo_request c) frames ->
  Forall (fun f => FindById (canRecvMap c) (fst (fst f)) = None) frames ->
  HandleRx frac c ps frames
  = Ok (c, ps, (fun f => (fst (fst f), snd f)) <$> frames).
Proof.
  intros Hsaving Hframes Hnone.
  induction Hframes as [|[[id len] data] frames Hf _ IH]; [done|].
  apply Forall_cons in Hnone as [Hid Hnone]. simpl in Hid.
  cbn [HandleRx]. unfold HandleRx_frame.
  rewrite (not_sdo_request_test _ _ _ _ Hf), Hsaving, Hid. cbn [bind fst snd].
  rewrite IH by done. done.
Qed.

End Reception.

Lemma HandleRx_while_saving_witness :
  let c := mkCan empty_map two_message_map
             (replicate SENDBUFFER_LEN (mkSENDBUFFER 0 0 (0, 0))) 0 1 true
             (mkCanHw [] [] false) in
  @HandleRx example_params 5 c [0; 0; 0; 0]
     [(0x100, 8, (0x1234, 0)); (0x7ff, 2, (1, 0)); (0x601, 4, (1, 0))]
  = Ok (c, [0; 0; 0; 0], []).
Proof.
  intros c. apply (@HandleRx_while_saving example_params); [reflexivity|].
  repeat constructor; unfold not_sdo_request; simpl; lia.
Defined.

Lemma HandleRx_unmapped_witness :
  let c := can_with empty_map two_message_map in
  @HandleRx example_params 5 c [0; 0; 0; 0]
     [(0x300, 8, (0x1234, 0)); (0x601, 4, (1, 0))]
  = Ok (c, [0; 0; 0; 0], [(0x300, (0x1234, 0)); (0x601, (1, 0))]).
Proof.
  intros c. apply (@HandleRx_unmapped example_params); [reflexivity| |].
  - repeat constructor; unfold not_sdo_request; simpl; lia.
  - repeat constructor.
Defined.

(** * Transmission of the mapped messages: Can::SendAll *)

Lemma Send_members c id data len :
  isSaving (Send c id data len) = isSaving c
  /\ canSendMap (Send c id data len) = canSendMap c
  /\ canRecvMap (Send c id data len) = canRecvMap c
  /\ nodeId (Send c id data len) = nodeId c.
Proof.
  unfold Send. destruct (can_transmit _ _) as [r hw].
  by destruct ((r <? 0) && (sendCnt c <? SENDBUFFER_LEN)%nat).
Qed.

Lemma Send_accepted_mbox c id data len :
  0 <= next_answer (canDev c) ->
  mbox (canDev (Send c id data len)) = tail (mbox (canDev c)).
Proof.
  unfold next_answer, Send, can_transmit. simpl.
  destruct (mbox (canDev c)) as [|r rest]; simpl; [lia|]. intros Hr.
  destruct (Z.ltb_spec r 0); [lia|]. simpl.
  by destruct (0 <? sendCnt c)%nat.
Qed.

Section Transmission.
Context `{Params}.

Lemma SendAll_maps_saving ps maps : forall c,
  isSaving c = true ->
  SendAll_maps ps maps c = Ok (send_empty c (take_while no_field maps)).
Proof.
  induction maps as [|m maps IH]; intros c Hsaving; [done|].
  cbn [SendAll_maps take_while]. unfold no_field at 1.
  destruct (forEachPosMap m) as [|p poss] eqn:Hm.
  - rewrite bool_decide_eq_true_2 by done. cbn [SendAll_items bind].
    rewrite IH; [done|]. by destruct (Send_members c (canId m) (0, 0) 8) as [-> _].
  - rewrite bool_decide_eq_false_2 by done. cbn [SendAll_items].
    by rewrite Hsaving.
Qed.

(** While [isSaving] is set, [SendAll] stops at the first active message
    that holds an active field and encodes nothing; the active messages
    before it, which hold no active field, are still sent, with an
    all-zero payload.  When every active message holds a field nothing
    is sent and nothing changes. *)
Theorem SendAll_while_saving ps c :
  isSaving c = true ->
  SendAll ps c
  = Ok (send_empty c (take_while no_field (forEachCanMap (canSendMap c))))
  /\ (Forall (fun m => forEachPosMap m <> []) (forEachCanMap (canSendMap c)) ->
      SendAll ps c = Ok c).
Proof.
  intros Hsaving. unfold SendAll. rewrite SendAll_maps_saving by done.
  split; [done|]. intros Hfields.
  rewrite take_while_false_head; [done|].
  eapply Forall_impl; [exact Hfields|]. intros m Hm. unfold no_field.
  by apply bool_decide_eq_false_2.
Qed.

Lemma SendAll_maps_frames ps maps : forall c c',
  isSaving c = false -> SendAll_maps ps maps c = Ok c' ->
  (length maps <= length (mbox (canDev c)))%nat ->
  Forall (fun r => 0 <= r) (take (length maps) (mbox (canDev c))) ->
  exists datas,
    Forall2 (fun m d => SendAll_items false ps (forEachPosMap m) (0, 0)
                        = Ok (Some d)) maps datas
    /\ wire (canDev c')
       = wire (canDev c) ++ zip_with (fun m d => mkSENDBUFFER (canId m) 8 d) maps datas
    /\ sendBuffer c' = sendBuffer c /\ sendCnt c' = sendCnt c
    /\ canSendMap c' = canSendMap c /\ canRecvMap c' = canRecvMap c.
Proof.
  induction maps as [|m maps IH]; intros c c' Hsaving Hall Hlen Hacc.
  - injection Hall as <-. exists []. rewrite app_nil_r. by repeat split.
  - cbn [SendAll_maps] in Hall. rewrite Hsaving in Hall.
    destruct (SendAll_items false ps (forEachPosMap m) (0, 0)) as [[d|]|] eqn:Hm;
      cbn [bind] in Hall; [| |done].
    + destruct (mbox (canDev c)) as [|r rest] eqn:Hmbox; [simpl in Hlen; lia|].
      cbn [length take] in Hacc. apply Forall_cons in Hacc as [Hr Hacc].
      assert (0 <= next_answer (canDev c)) as Hnext
        by (unfold next_answer; by rewrite Hmbox).
      destruct (Send_accepted c (canId m) d 8 Hnext) as (Hw & Hb & Hn).
      pose proof (Send_accepted_mbox c (canId m) d 8 Hnext) as Hmb.
      rewrite Hmbox in Hmb. simpl in Hmb.
      destruct (Send_members c (canId m) d 8) as (Hsv & Hs & Hr' & _).
      destruct (IH (Send c (canId m) d 8) c') as (datas & HF & Hw' & Hb' & Hn' & Hs' & Hr'');
        try done.
      * congruence.
      * rewrite Hmb. simpl in Hlen. lia.
      * by rewrite Hmb.
      * exists (d :: datas). split; [by constructor|].
        rewrite Hw', Hw, <- app_assoc. split; [done|].
        split; [congruence|]. split; [congruence|]. split; congruence.
    + exfalso. clear -Hm. revert Hm. generalize (0, 0).
      induction (forEachPosMap m) as [|p poss IHp]; intros data; [done|].
      cbn [SendAll_items].
      destruct (encode_field data p _); cbn [bind]; [apply IHp|done].
Qed.

(** While [isSaving] is clear and the mailboxes take every frame, a
    [SendAll] that ends has put one frame of eight bytes on the bus for
    each active send message, in table order and under its identifier;
    the payload is what the fields of the message make of an all-zero
    payload.  The queue and both tables are as before. *)
Theorem SendAll_frames ps c c' :
  isSaving c = false -> SendAll ps c = Ok c' ->
  let maps := forEachCanMap (canSendMap c) in
  (length maps <= length (mbox (canDev c)))%nat ->
  Forall (fun r => 0 <= r) (take (length maps) (mbox (canDev c))) ->
  exists datas,
    Forall2 (fun m d => SendAll_items false ps (forEachPosMap m) (0, 0)
                        = Ok (Some d)) maps datas
    /\ wire (canDev c')
       = wire (canDev c) ++ zip_with (fun m d => mkSENDBUFFER (canId m) 8 d) maps datas
    /\ sendBuffer c' = sendBuffer c /\ sendCnt c' = sendCnt c
    /\ canSendMap c' = canSendMap c /\ canRecvMap c' = canRecvMap c.
Proof. intros Hsaving Hall maps. by apply SendAll_maps_frames. Qed.

End Transmission.

Lemma SendAll_while_saving_witness :
  let c := mkCan two_message_map empty_map
             (replicate SENDBUFFER_LEN (mkSENDBUFFER 0 0 (0, 0))) 0 1 true
             (mkCanHw [0; 1] [] false) in
  let c0 := mkCan fieldless_map empty_map
             (replicate SENDBUFFER_LEN (mkSENDBUFFER 0 0 (0, 0))) 0 1 true
             (mkCanHw [0; 1] [] false) in
  @SendAll example_params [1; 2; 3; 4] c = Ok c
  /\ @SendAll example_params [1; 2; 3; 4] c0 = Ok (Send c0 0x100 (0, 0) 8).
Proof.
  intros c c0. split.
  - apply (@SendAll_while_saving example_params); [reflexivity|].
    apply (bool_decide_unpack _). vm_compute. exact I.
  - apply (@SendAll_while_saving example_params [1; 2; 3; 4] c0). reflexivity.
Defined.

Lemma SendAll_frames_witness :
  let c := mkCan two_message_map empty_map
             (replicate SENDBUFFER_LEN (mkSENDBUFFER 0 0 (0, 0))) 0 1 false
             (mkCanHw [0; 1; 2] [] false) in
  exists c',
    @SendAll example_params [0; 0x12; 0x34; 0] c = Ok c'
    /\ wire (canDev c')
       = [mkSENDBUFFER 0x100 8 (0x3412, 0); mkSENDBUFFER 0x200 8 (0x12, 0)].
Proof.
  intros c. eexists. split; [vm_compute; reflexivity|].
  edestruct (@SendAll_frames example_params [0; 0x12; 0x34; 0] c)
    as (datas & HF & Hw & _); [reflexivity|vm_compute; reflexivity|..].
  - vm_compute. lia.
  - vm_compute. repeat constructor; discriminate.
  - vm_compute. reflexivity.
Defined.

(** * The field codec: masks and bit positions *)

Lemma field_mask_cases n :
  field_mask n
  = if (0 <=? n) && (n <? 32)
    then if n =? 31 then Undefined IntOverflow else Ok (2 ^ n - 1)
    else Undefined ShiftRange.
Proof.
  destruct (Z.leb_spec 0 n); [destruct (Z.ltb_spec n 32)|]; simpl.
  - destruct (Z.eqb_spec n 31) as [->|]; [done|].
    destruct (decide (n = 0)) as [->|]; [done|].
    apply field_mask_defined. lia.
  - unfold field_mask, shl_int, shift_ok.
    destruct (Z.leb_spec 0 n); [|lia]. by destruct (Z.ltb_spec n 32); [lia|].
  - unfold field_mask, shl_int, shift_ok. by destruct (Z.leb_spec 0 n); [lia|].
Qed.

(** The mask [(1 << numBits) - 1]: for the widths [0 .. 30] it is
    [2 ^ numBits - 1]; for a negative width and for a width of 32 or more
    the shift is undefined; and whenever a mask is computed the width is
    at most 31 and the mask is [2 ^ numBits - 1]. *)
Theorem field_mask_domain n :
  (forall m, field_mask n = Ok m -> 0 <= n <= 31 /\ m = 2 ^ n - 1)
  /\ (0 <= n <= 30 -> field_mask n = Ok (2 ^ n - 1))
  /\ (n < 0 \/ 32 <= n -> field_mask n = Undefined ShiftRange).
Proof.
  rewrite field_mask_cases.
  destruct (Z.leb_spec 0 n); [destruct (Z.ltb_spec n 32)|]; simpl.
  - destruct (Z.eqb_spec n 31).
    + split; [done|]. split; lia.
    + split; [|split; [done|lia]]. intros m [= <-]. lia.
  - split; [done|]. split; [lia|done].
  - split; [done|]. split; [lia|done].
Qed.

Lemma land_mask v n : 0 <= n -> Z.land v (2 ^ n - 1) = v mod 2 ^ n.
Proof.
  intros Hn. change (2 ^ n - 1) with (Z.pred (2 ^ n)).
  rewrite <- Z.ones_equiv. by apply Z.land_ones.
Qed.

(** The bits a field of [n] bits shifted by [o] can set in a word. *)
Lemma field_bits_outside v n o k :
  0 <= n -> 0 <= o -> (k < o \/ o + n <= k) ->
  Z.testbit (u32 (Z.shiftl (Z.land v (2 ^ n - 1)) o)) k = false.
Proof.
  intros Hn Ho Hk. destruct (Z.ltb_spec k 0) as [Hneg|Hpos];
    [by apply Z.testbit_neg_r|].
  unfold u32. rewrite land_mask by done.
  destruct (Z.ltb_spec k 32).
  - rewrite Z.mod_pow2_bits_low by lia.
    destruct Hk as [Hlow|Hhigh].
    + by apply Z.shiftl_spec_low.
    + rewrite Z.shiftl_spec by lia. apply Z.mod_pow2_bits_high. lia.
  - apply Z.mod_pow2_bits_high. lia.
Qed.

Lemma word_field_kept x v n2 o2 n1 o1 :
  0 <= n1 -> 0 <= o1 -> 0 <= n2 -> 0 <= o2 ->
  o1 + n1 <= o2 \/ o2 + n2 <= o1 ->
  Z.land (Z.shiftr (Z.lor x (u32 (Z.shiftl (Z.land v (2 ^ n2 - 1)) o2))) o1)
         (2 ^ n1 - 1)
  = Z.land (Z.shiftr x o1) (2 ^ n1 - 1).
Proof.
  intros Hn1 Ho1 Hn2 Ho2 Hdisj.
  rewrite !(land_mask _ n1) by done.
  apply Z.bits_inj'. intros k Hk.
  destruct (Z.ltb_spec k n1).
  - rewrite !Z.mod_pow2_bits_low by lia.
    rewrite !Z.shiftr_spec, Z.lor_spec by lia.
    rewrite field_bits_outside by lia. apply orb_false_r.
  - by rewrite !Z.mod_pow2_bits_high by lia.
Qed.

(** [pack_field] changes one of the two payload words only: the word
    [data[1]] for a bit offset of 32 and more, [data[0]] otherwise.  A
    field that starts in [data[0]] and is wider than what is left of it
    is cut at bit 31; nothing of it reaches [data[1]]. *)
Theorem pack_field_one_word data curPos val data' :
  pack_field data curPos val = Ok data' ->
  0 <= numBits curPos <= 31 /\ 0 <= offsetBits curPos <= 63
  /\ (offsetBits curPos <= 31 ->
      snd data' = snd data /\
      fst data' = Z.lor (fst data)
                    ((val mod 2 ^ numBits curPos * 2 ^ offsetBits curPos) mod 2 ^ 32))
  /\ (31 < offsetBits curPos ->
      fst data' = fst data /\
      snd data' = Z.lor (snd data)
                    ((val mod 2 ^ numBits curPos * 2 ^ (offsetBits curPos - 32))
                     mod 2 ^ 32)).
Proof.
  unfold pack_field. rewrite field_mask_cases.
  destruct (Z.leb_spec 0 (numBits curPos)); [|done].
  destruct (Z.ltb_spec (numBits curPos) 32); [|done]. cbn [andb bind].
  destruct (Z.eqb_spec (numBits curPos) 31); [done|]. cbn [bind].
  rewrite land_mask by done. unfold shl_u32, shift_ok.
  destruct (Z.ltb_spec 31 (offsetBits curPos)).
  - destruct (Z.leb_spec 0 (offsetBits curPos - 32)); [|lia].
    destruct (Z.ltb_spec (offsetBits curPos - 32) 32); [|done]. cbn [andb bind].
    intros [= <-]. cbn [fst snd]. unfold u32.
    rewrite Z.shiftl_mul_pow2 by lia.
    split; [lia|]. split; [lia|]. split; [lia|done].
  - destruct (Z.leb_spec 0 (offsetBits curPos)); [|done].
    destruct (Z.ltb_spec (offsetBits curPos) 32); [|lia]. cbn [andb bind].
    intros [= <-]. cbn [fst snd]. unfold u32.
    rewrite Z.shiftl_mul_pow2 by lia.
    split; [lia|]. split; [lia|]. split; [done|lia].
Qed.

Lemma pack_field_one_word_witness :
  pack_field (0, 0) (mkCANPOS 1 0 gain_one 28 8) 0xff = Ok (0xf0000000, 0)
  /\ unpack_field (0xf0000000, 0) (mkCANPOS 1 0 gain_one 28 8) = Ok 0xf.
Proof.
  assert (pack_field (0, 0) (mkCANPOS 1 0 gain_one 28 8) 0xff
          = Ok (0xf0000000, 0)) as Hpack by (vm_compute; reflexivity).
  split; [exact Hpack|].
  destruct (pack_field_one_word _ _ _ _ Hpack) as (_ & _ & Hlow & _).
  destruct Hlow as [_ _]; [simpl; lia|]. vm_compute. reflexivity.
Defined.

(** [unpack_field] yields an unsigned number of [numBits] bits, whatever
    the payload: a field is never read as negative. *)
Theorem unpack_field_range data curPos raw :
  unpack_field data curPos = Ok raw ->
  0 <= numBits curPos <= 31 /\ 0 <= offsetBits curPos <= 63
  /\ 0 <= raw < 2 ^ numBits curPos.
Proof.
  unfold unpack_field, shr_u32, shift_ok. rewrite field_mask_cases.
  destruct (Z.ltb_spec 31 (offsetBits curPos)).
  - destruct (Z.leb_spec 0 (offsetBits curPos - 32)); [|lia].
    destruct (Z.ltb_spec (offsetBits curPos - 32) 32); [|done]. cbn [andb bind].
    destruct (Z.leb_spec 0 (numBits curPos)); [|done].
    destruct (Z.ltb_spec (numBits curPos) 32); [|done]. cbn [andb bind].
    destruct (Z.eqb_spec (numBits curPos) 31); [done|]. cbn [bind].
    intros [= <-]. rewrite land_mask by done.
    pose proof (Z.mod_pos_bound (Z.shiftr (snd data) (offsetBits curPos - 32))
                  (2 ^ numBits curPos)). lia.
  - destruct (Z.leb_spec 0 (offsetBits curPos)); [|done].
    destruct (Z.ltb_spec (offsetBits curPos) 32); [|lia]. cbn [andb bind].
    destruct (Z.leb_spec 0 (numBits curPos)); [|done].
    destruct (Z.ltb_spec (numBits curPos) 32); [|done]. cbn [andb bind].
    destruct (Z.eqb_spec (numBits curPos) 31); [done|]. cbn [bind].
    intros [= <-]. rewrite land_mask by done.
    pose proof (Z.mod_pos_bound (Z.shiftr (fst data) (offsetBits curPos))
                  (2 ^ numBits curPos)). lia.
Qed.

Lemma unpack_field_range_witness :
  unpack_field (0xffffffff, 0xffffffff) (mkCANPOS 1 0 gain_one 40 16) = Ok 0xffff
  /\ 0 <= 0xffff < 2 ^ 16.
Proof.
  assert (unpack_field (0xffffffff, 0xffffffff) (mkCANPOS 1 0 gain_one 40 16)
          = Ok 0xffff) as Hu by (vm_compute; reflexivity).
  split; [exact Hu|].
  by destruct (unpack_field_range _ _ _ Hu) as (_ & _ & Hr).
Defined.

(** Packing a field leaves every field alone whose bit range
    [offsetBits .. offsetBits + numBits - 1] does not meet its own: what
    [unpack_field] reads of the other field is the same before and
    after.  So the fields of a message that do not overlap are decoded
    independently of one another. *)
Theorem pack_field_keeps_disjoint data f1 f2 val data' :
  pack_field data f2 val = Ok data' ->
  0 <= numBits f1 -> 0 <= offsetBits f1 ->
  offsetBits f1 + numBits f1 <= offsetBits f2
  \/ offsetBits f2 + numBits f2 <= offsetBits f1 ->
  unpack_field data' f1 = unpack_field data f1.
Proof.
  intros Hpack Hn1 Ho1 Hdisj.
  unfold pack_field in Hpack. rewrite field_mask_cases in Hpack.
  destruct (Z.leb_spec 0 (numBits f2)); [|done].
  destruct (Z.ltb_spec (numBits f2) 32); [|done]. cbn [andb bind] in Hpack.
  destruct (Z.eqb_spec (numBits f2) 31); [done|]. cbn [bind] in Hpack.
  unfold shl_u32, shift_ok in Hpack.
  unfold unpack_field, shr_u32, shift_ok. rewrite field_mask_cases.
  destruct (Z.ltb_spec 31 (offsetBits f2)).
  - destruct (Z.leb_spec 0 (offsetBits f2 - 32)); [|lia].
    destruct (Z.ltb_spec (offsetBits f2 - 32) 32); [|done].
    cbn [andb bind] in Hpack. injection Hpack as <-. cbn [fst snd].
    destruct (Z.ltb_spec 31 (offsetBits f1)); [|done].
    destruct (Z.leb_spec 0 (offsetBits f1 - 32)); [|lia].
    destruct (Z.ltb_spec (offsetBits f1 - 32) 32); [|done]. cbn [andb bind].
    destruct (Z.leb_spec 0 (numBits f1)); [|done].
    destruct (Z.ltb_spec (numBits f1) 32); [|done]. cbn [andb bind].
    destruct (Z.eqb_spec (numBits f1) 31); [done|]. cbn [bind].
    f_equal. apply word_field_kept; lia.
  - destruct (Z.leb_spec 0 (offsetBits f2)); [|done].
    destruct (Z.ltb_spec (offsetBits f2) 32); [|lia].
    cbn [andb bind] in Hpack. injection Hpack as <-. cbn [fst snd].
    destruct (Z.ltb_spec 31 (offsetBits f1)); [done|].
    destruct (Z.leb_spec 0 (offsetBits f1)); [|lia].
    destruct (Z.ltb_spec (offsetBits f1) 32); [|lia]. cbn [andb bind].
    destruct (Z.leb_spec 0 (numBits f1)); [|done].
    destruct (Z.ltb_spec (numBits f1) 32); [|done]. cbn [andb bind].
    destruct (Z.eqb_spec (numBits f1) 31); [done|]. cbn [bind].
    f_equal. apply word_field_kept; lia.
Qed.

Lemma pack_field_keeps_disjoint_witness :
  let f1 := mkCANPOS 1 0 gain_one 4 12 in
  let f2 := mkCANPOS 2 0 gain_one 16 16 in
  pack_field (0, 0) f1 0xabc = Ok (0xabc0, 0)
  /\ pack_field (0xabc0, 0) f2 0x1234 = Ok (0x1234abc0, 0)
  /\ unpack_field (0x1234abc0, 0) f1 = Ok 0xabc
  /\ unpack_field (0x1234abc0, 0) f2 = Ok 0x1234.
Proof.
  intros f1 f2.
  assert (pack_field (0xabc0, 0) f2 0x1234 = Ok (0x1234abc0, 0)) as Hpack
    by (vm_compute; reflexivity).
  split; [vm_compute; reflexivity|]. split; [exact Hpack|].
  split; [|vm_compute; reflexivity].
  rewrite (pack_field_keeps_disjoint (0xabc0, 0) f1 f2 0x1234 _ Hpack);
    [vm_compute; reflexivity | simpl; lia | simpl; lia | simpl; lia].
Defined.

(** * Can::Add on a tidy table: what the table holds afterwards *)

Lemma add_content_app id item l1 its l2 :
  Forall (fun e => fst e <> id) l1 ->
  add_content id item (l1 ++ (id, its) :: l2) = l1 ++ (id, its ++ [item]) :: l2.
Proof.
  induction 1 as [|e l1 He _ IH]; simpl.
  - by rewrite decide_True.
  - by rewrite decide_False, IH.
Qed.

Lemma add_content_new id item l :
  Forall (fun e => fst e <> id) l ->
  add_content id item l = l ++ [(id, [item])].
Proof.
  induction 1 as [|e l He _ IH]; simpl; [done|].
  by rewrite decide_False, IH.
Qed.

Lemma contents_split A R :
  (length (A ++ R) <= MAX_MESSAGES)%nat ->
  Forall (fun m => msg_active m = true) A ->
  Forall (fun m => msg_active m = false) R ->
  forEachCanMap (A ++ R) = A /\ contents (A ++ R) = content_of <$> A.
Proof.
  intros Hlen HA HR.
  assert (forEachCanMap (A ++ R) = A) as Hact.
  { rewrite forEachCanMap_shape by done. rewrite take_while_app by done.
    by rewrite take_while_false_head, app_nil_r. }
  split; [done|]. unfold contents. by rewrite Hact.
Qed.

Lemma tidy_split canMap :
  table_shape canMap -> tidy canMap ->
  exists R, canMap = forEachCanMap canMap ++ R
    /\ Forall (fun m => canId m = CANID_UNSET
                        /\ Forall (fun p => numBits p = 0) (items m)) R.
Proof.
  intros [Hlen _] (_ & _ & Hrest).
  exists (drop (length (forEachCanMap canMap)) canMap). split; [|done].
  rewrite forEachCanMap_shape by lia. by rewrite take_while_drop.
Qed.

Lemma unset_inactive R :
  Forall (fun m => canId m = CANID_UNSET
                   /\ Forall (fun p => numBits p = 0) (items m)) R ->
  Forall (fun m => msg_active m = false) R.
Proof.
  intros HR. eapply Forall_impl; [exact HR|]. intros m [Hid _].
  unfold msg_active. by rewrite Hid.
Qed.

Lemma message_store m j p item :
  length (items m) = MAX_ITEMS_PER_MESSAGE ->
  tidy_items (items m) ->
  list_find (fun p => numBits p <= 0) (items m) = Some (j, p) ->
  pos_active item = true ->
  let m' := set_items (<[ j := item ]> (items m)) m in
  forEachPosMap m' = forEachPosMap m ++ [item]
  /\ tidy_items (items m') /\ length (items m') = MAX_ITEMS_PER_MESSAGE
  /\ canId m' = canId m.
Proof.
  intros Hlen Htidy Hfree Hitem m'.
  apply first_free_find in Hfree as (Hj & Hp & Hbefore).
  assert (Forall (fun y => pos_active y = false)
            (drop (length (take_while pos_active (items m))) (items m))) as Hinact.
  { eapply Forall_impl; [exact Htidy|]. intros q Hq. unfold pos_active.
    by rewrite Hq. }
  destruct (packed_split pos_active (items m) j p) as (B & S & Hl & HB & HBa & HS);
    try done.
  { unfold pos_active. apply Z.ltb_ge. lia. }
  { intros k y Hk Hlt. unfold pos_active. apply Z.ltb_lt. eauto. }
  assert (take_while pos_active (items m) = B) as Htw.
  { rewrite Hl. apply take_while_stop; [done|].
    unfold pos_active. apply Z.ltb_ge. lia. }
  assert (<[ j := item ]> (items m) = B ++ item :: S) as Hins.
  { rewrite Hl. replace j with (length B + 0)%nat by lia.
    by rewrite insert_app_r. }
  assert (take_while pos_active (B ++ item :: S) = B ++ [item]) as Htw'.
  { rewrite take_while_app by done. cbn [take_while]. rewrite Hitem.
    by rewrite take_while_false_head. }
  subst m'. unfold set_items. cbn [items canId].
  split; [|split; [|split; [by rewrite length_insert|done]]].
  - rewrite !forEachPosMap_shape by (cbn [items]; rewrite ?length_insert; lia).
    cbn [items]. by rewrite Hins, Htw', Htw.
  - unfold tidy_items in *. rewrite Hins, Htw'. rewrite Htw, Hl in Htidy.
    rewrite drop_app_length in Htidy. apply Forall_cons in Htidy as [_ HS0].
    rewrite (cons_middle item B S), app_assoc, drop_app_length. done.
Qed.

Lemma alter_middle {A} (f : A -> A) (l : list A) e x :
  l !! e = Some x -> alter f e l = take e l ++ f x :: drop (S e) l.
Proof.
  intros He. rewrite <- (take_drop_middle l e x He) at 1.
  assert (e = (length (take e l) + 0)%nat) as Hlen
    by (rewrite length_take_le; [lia|]; apply lookup_lt_Some in He; lia).
  rewrite Hlen at 1. by rewrite alter_app_r.
Qed.

Lemma s8_small len : 1 <= len <= 32 -> s8 len = len.
Proof. intros Hl. unfold s8, sint. rewrite Z.mod_small; lia. Qed.

Lemma u32_small cid : 0 <= cid <= 0x1fffffff -> u32 cid = cid.
Proof. intros Hc. unfold u32. rewrite Z.mod_small; lia. Qed.

Lemma tidy_intro t A' R' :
  t = A' ++ R' -> (length t <= MAX_MESSAGES)%nat ->
  Forall (fun m => msg_active m = true) A' ->
  Forall (fun m => tidy_items (items m)) A' ->
  Forall (fun m => forEachPosMap m <> []) A' ->
  Forall (fun m => canId m = CANID_UNSET
                   /\ Forall (fun p => numBits p = 0) (items m)) R' ->
  tidy t /\ forEachCanMap t = A' /\ contents t = content_of <$> A'.
Proof.
  intros -> Hlen Hact Hitems Hfields HR.
  destruct (contents_split A' R' Hlen Hact (unset_inactive R' HR)) as [HA Hc].
  split; [|done]. split; [|split].
  - apply Forall_app. split; [done|].
    eapply Forall_impl; [exact HR|]. intros m [_ Hz]. unfold tidy_items.
    by apply Forall_drop.
  - by rewrite HA.
  - rewrite HA. by rewrite drop_app_length.
Qed.

Lemma Add_tidy_existing canMap e m j p item :
  table_shape canMap -> tidy canMap ->
  first_with_id canMap (canId m) e m -> canId m < CANID_UNSET ->
  list_find (fun p => numBits p <= 0) (items m) = Some (j, p) ->
  pos_active item = true ->
  let t := set_item e j item canMap in
  contents t = add_content (canId m) item (contents canMap)
  /\ tidy t /\ table_shape t /\ active_messages t = Z.of_nat (length (contents t)).
Proof.
  intros Hshape Htidy (He & _ & Hbefore) Hid Hfree Hitem t.
  destruct (tidy_split canMap Hshape Htidy) as (R & Hsplit & HR).
  destruct Hshape as [Hlen Hitems]. destruct Htidy as (Hti & Hne & _).
  remember (forEachCanMap canMap) as A eqn:HA.
  assert (Forall (fun m => msg_active m = true) A) as Hact
    by (rewrite HA; apply take_while_Forall).
  assert (A !! e = Some m) as HeA.
  { rewrite Hsplit in He. apply lookup_app_Some in He as [?|[_ HeR]]; [done|].
    apply list_elem_of_lookup_2 in HeR.
    apply (proj1 (Forall_forall _ _) HR) in HeR as [HeR _].
    unfold CANID_UNSET in *. lia. }
  assert (Forall (fun m => tidy_items (items m)) A /\
          Forall (fun m => length (items m) = MAX_ITEMS_PER_MESSAGE) A)
    as [HtiA HlenA].
  { rewrite Hsplit in Hti, Hitems.
    apply Forall_app in Hti as [? _]. by apply Forall_app in Hitems as [? _]. }
  destruct (message_store m j p item) as (Hpos' & Hti' & Hlen' & Hid');
    try done.
  { apply (proj1 (Forall_forall _ _) HlenA m). by eapply list_elem_of_lookup_2. }
  { apply (proj1 (Forall_forall _ _) HtiA m). by eapply list_elem_of_lookup_2. }
  set (m' := set_items (<[ j := item ]> (items m)) m) in *.
  assert (t = (take e A ++ m' :: drop (S e) A) ++ R) as Ht.
  { subst t. unfold set_item. rewrite Hsplit at 1.
    rewrite alter_app_l by (by apply lookup_lt_Some in HeA).
    by rewrite (alter_middle _ A e m HeA). }
  assert (A = take e A ++ m :: drop (S e) A) as HAmid
    by (by rewrite take_drop_middle).
  assert (length t = length canMap) as Hlent by apply set_item_length.
  destruct (tidy_intro t (take e A ++ m' :: drop (S e) A) R) as (Htidy' & HA' & Hc');
    try done.
  { lia. }
  { apply Forall_app. split; [by apply Forall_take|].
    apply Forall_cons. split; [|by apply Forall_drop].
    unfold msg_active. rewrite Hid'. by apply Z.ltb_lt. }
  { apply Forall_app. split; [by apply Forall_take|].
    apply Forall_cons. split; [done|by apply Forall_drop]. }
  { apply Forall_app. split; [by apply Forall_take|].
    apply Forall_cons. split; [|by apply Forall_drop].
    rewrite Hpos'. by destruct (forEachPosMap m). }
  split; [|split; [done|split]].
  - rewrite Hc'.
    change (contents canMap) with (content_of <$> forEachCanMap canMap).
    rewrite <- HA. rewrite HAmid at 3.
    rewrite !fmap_app, !fmap_cons.
    assert (content_of m' = (canId m, forEachPosMap m ++ [item])) as ->
      by (unfold content_of; by rewrite Hpos', Hid').
    change (content_of m) with (canId m, forEachPosMap m).
    rewrite add_content_app; [done|].
    apply Forall_fmap, Forall_forall. intros m0 Hm0.
    apply list_elem_of_lookup in Hm0 as [k Hk].
    apply lookup_take_Some in Hk as [Hk Hlt]. simpl.
    apply (Hbefore k m0); [|done]. rewrite Hsplit.
    by apply lookup_app_l_Some.
  - split; [lia|]. subst t. unfold set_item. apply Forall_alter; [done|].
    intros x _ Hx. simpl. by rewrite length_insert.
  - unfold active_messages, contents. by rewrite length_fmap.
Qed.

Lemma Add_tidy_new canMap e cid m j p item :
  table_shape canMap -> tidy canMap ->
  FindById canMap cid = None -> FindById canMap CANID_UNSET = Some e ->
  cid < CANID_UNSET ->
  alter (set_canId cid) e canMap !! e = Some m ->
  list_find (fun p => numBits p <= 0) (items m) = Some (j, p) ->
  pos_active item = true ->
  let t := set_item e j item (alter (set_canId cid) e canMap) in
  contents t = add_content cid item (contents canMap)
  /\ tidy t /\ table_shape t /\ active_messages t = Z.of_nat (length (contents t)).
Proof.
  intros Hshape Htidy Hnone Hun Hid He Hfree Hitem t.
  destruct (tidy_split canMap Hshape Htidy) as (R & Hsplit & HR).
  destruct Hshape as [Hlen Hitems]. destruct Htidy as (Hti & Hne & _).
  apply FindById_Some in Hun as (m0 & He0 & Hm0 & Hbefore); [|done].
  assert (forall m', m' ∈ canMap -> canId m' <> cid) as Hfresh
    by by apply FindById_None.
  remember (forEachCanMap canMap) as A eqn:HA.
  assert (Forall (fun m => msg_active m = true) A) as Hact
    by (rewrite HA; apply take_while_Forall).
  assert (e = length A) as ->.
  { destruct (Nat.lt_trichotomy e (length A)) as [Hlt|[?|Hgt]]; [|done|].
    - exfalso. rewrite Hsplit in He0. rewrite lookup_app_l in He0 by done.
      apply list_elem_of_lookup_2 in He0.
      apply (proj1 (Forall_forall _ _) Hact) in He0.
      unfold msg_active in He0. rewrite Hm0 in He0. done.
    - exfalso. destruct R as [|r0 R'].
      + apply lookup_lt_Some in He0. rewrite Hsplit, app_nil_r in He0. lia.
      + apply Forall_cons in HR as [[Hr0 _] _].
        apply (Hbefore (length A) r0); [|done|done].
        rewrite Hsplit. by rewrite list_lookup_middle. }
  destruct R as [|r0 R'].
  { apply lookup_lt_Some in He0. rewrite Hsplit, app_nil_r in He0. lia. }
  assert (r0 = m0) as ->.
  { rewrite Hsplit in He0. rewrite list_lookup_middle in He0 by done.
    by injection He0. }
  apply Forall_cons in HR as [[_ Hzero] HR].
  rewrite list_lookup_alter_eq, He0 in He. simpl in He. injection He as <-.
  assert (forEachPosMap (set_canId cid m0) = []) as Hempty.
  { unfold forEachPosMap. apply take_while_false_head, Forall_take. simpl.
    eapply Forall_impl; [exact Hzero|]. intros q Hq. unfold pos_active.
    by rewrite Hq. }
  destruct (message_store (set_canId cid m0) j p item)
    as (Hpos' & Hti' & Hlen' & Hid'); try done.
  { simpl. apply (proj1 (Forall_forall _ _) Hitems m0).
    by eapply list_elem_of_lookup_2. }
  { unfold tidy_items. simpl. by apply Forall_drop. }
  set (m' := set_items (<[ j := item ]> (items (set_canId cid m0)))
               (set_canId cid m0)) in *.
  rewrite Hempty in Hpos'. change (canId m' = cid) in Hid'.
  change (forEachPosMap m' = [item]) in Hpos'.
  assert (t = (A ++ [m']) ++ R') as Ht.
  { subst t. unfold set_item. rewrite Hsplit at 1.
    replace (length A) with (length A + 0)%nat by lia.
    rewrite !alter_app_r. simpl. by rewrite <- app_assoc. }
  assert (length t = length canMap) as Hlent
    by (subst t; by rewrite set_item_length, length_alter).
  assert (Forall (fun m => tidy_items (items m)) A /\
          Forall (fun m => forEachPosMap m <> []) A) as [HtiA HneA].
  { rewrite Hsplit in Hti. by apply Forall_app in Hti as [? _]. }
  destruct (tidy_intro t (A ++ [m']) R') as (Htidy' & HA' & Hc'); try done.
  { lia. }
  { apply Forall_app. split; [done|]. apply Forall_singleton.
    unfold msg_active. rewrite Hid'. by apply Z.ltb_lt. }
  { apply Forall_app. split; [done|]. by apply Forall_singleton. }
  { apply Forall_app. split; [done|]. apply Forall_singleton.
    by rewrite Hpos'. }
  split; [|split; [done|split]].
  - rewrite Hc'.
    change (contents canMap) with (content_of <$> forEachCanMap canMap).
    rewrite <- HA. rewrite fmap_app. simpl.
    assert (content_of m' = (cid, [item])) as ->
      by (unfold content_of; by rewrite Hpos', Hid').
    rewrite add_content_new; [done|].
    apply Forall_fmap, Forall_forall. intros m1 Hm1. simpl.
    apply Hfresh. rewrite Hsplit. apply elem_of_app. by left.
  - split; [lia|]. subst t. unfold set_item. apply Forall_alter.
    + apply Forall_alter; [done|]. by intros x _ ?.
    + intros x _ Hx. simpl. by rewrite length_insert.
  - unfold active_messages, contents. by rewrite length_fmap.
Qed.

Lemma Add_holds canMap param cid obits len g ofs res t :
  table_shape canMap -> tidy canMap ->
  0 <= cid -> 1 <= len ->
  Add canMap param cid obits len g ofs = Ok (res, t) -> 0 <= res ->
  contents t
  = add_content cid (mkCANPOS (u16 param) ofs g (u8 obits) len) (contents canMap)
  /\ res = Z.of_nat (length (contents t))
  /\ tidy t /\ table_shape t.
Proof.
  intros Hshape Htidy Hcid Hlen Hadd Hres.
  apply Add_Ok_inv in Hadd
    as [(->&_)|[(->&_)|[(->&_)|[(->&_)|
        (Hcid'&_&Hlen'&e&canMap1&m&j&p&Hfound&He&Hfree&Hend)]]]]; try done.
  destruct Hend as [(_ & -> & _)|(_ & -> & ->)]; [done|].
  rewrite s8_small by lia. rewrite u32_small in Hfound by lia.
  set (item := mkCANPOS (u16 param) ofs g (u8 obits) len).
  assert (pos_active item = true) as Hitem
    by (unfold pos_active; simpl; apply Z.ltb_lt; lia).
  assert (cid < CANID_UNSET) as Hlt by (unfold CANID_UNSET; lia).
  destruct Hfound as [[Hid ->]|(Hnone & Hun & ->)].
  - apply FindById_Some in Hid as (m1 & He1 & Hm1 & Hbefore);
      [|by destruct Hshape].
    rewrite He in He1. injection He1 as <-. subst cid.
    by destruct (Add_tidy_existing canMap e m j p item) as (Hc & Ht & Hs & Hn).
  - by destruct (Add_tidy_new canMap e cid m j p item) as (Hc & Ht & Hs & Hn).
Qed.

(** On a tidy table, a call of [Add] with an identifier that is not
    negative and a width of at least one that succeeds appends the
    mapping to the message with the identifier if the table holds one,
    and appends a message with this one mapping otherwise; nothing else
    the table holds changes.  It returns the number of messages the
    table then holds, and the table is tidy again. *)
Theorem Add_contents canMap param cid obits len g ofs res t :
  table_shape canMap -> tidy canMap ->
  0 <= cid -> 1 <= len ->
  Add canMap param cid obits len g ofs = Ok (res, t) -> 0 <= res ->
  contents t
  = add_content cid (mkCANPOS (u16 param) ofs g (u8 obits) len) (contents canMap)
  /\ res = Z.of_nat (length (contents t))
  /\ tidy t /\ table_shape t.
Proof. apply Add_holds. Qed.

Lemma Add_contents_witness :
  exists t,
    Add two_message_map 3 0x200 16 8 gain_one 0 = Ok (2, t)
    /\ contents t
       = [(0x100, [mkCANPOS 1 0 gain_one 0 8; mkCANPOS 2 0 gain_one 8 8]);
          (0x200, [mkCANPOS 1 0 gain_one 0 16; mkCANPOS 3 0 gain_one 16 8])].
Proof.
  eexists. split; [vm_compute; reflexivity|].
  edestruct (Add_contents two_message_map 3 0x200 16 8 gain_one 0)
    as (Hc & _); [..|vm_compute; reflexivity| |rewrite Hc; vm_compute; reflexivity];
    try lia; apply (bool_decide_unpack _); vm_compute; exact I.
Defined.

(** * Can::FindMap after Can::AddSend *)

Lemma find_pos_contents param canMap :
  find_pos param canMap = head (hits param (contents canMap)).
Proof.
  unfold find_pos, hits, contents.
  induction (forEachCanMap canMap) as [|m l IH]; [done|].
  rewrite fmap_cons, !bind_cons. cbn [fst snd content_of].
  destruct (filter (fun p => mapParam p = param) (forEachPosMap m)) as [|p ps];
    [exact IH|done].
Qed.

Lemma hits_add_other q id item cs :
  mapParam item <> q -> hits q (add_content id item cs) = hits q cs.
Proof.
  intros Hq. unfold hits. induction cs as [|e cs IH]; simpl.
  - rewrite filter_cons. by destruct (decide (mapParam item = q)).
  - destruct (decide (fst e = id)); rewrite !bind_cons; simpl.
    + rewrite filter_app, filter_cons, filter_nil.
      destruct (decide (mapParam item = q)); [done|]. by rewrite app_nil_r.
    + by rewrite IH.
Qed.

Lemma hits_add_same id item cs :
  hits (mapParam item) (add_content id item cs) <> []
  /\ (hits (mapParam item) cs = [] ->
      hits (mapParam item) (add_content id item cs)
      = [(s32 id, offsetBits item, numBits item, gain item)]).
Proof.
  unfold hits. induction cs as [|e cs [IH1 IH2]]; simpl.
  - rewrite filter_cons. destruct (decide (mapParam item = mapParam item)); done.
  - destruct (decide (fst e = id)) as [<-|Hne]; rewrite !bind_cons; simpl.
    + rewrite filter_app, filter_cons, filter_nil.
      destruct (decide (mapParam item = mapParam item)); [|done].
      rewrite fmap_app. simpl. split.
      * by destruct (_ <$> filter _ (snd e)).
      * intros Hnil. apply app_eq_nil in Hnil as [Ha Hb].
        apply fmap_nil_inv in Ha. rewrite Ha. simpl. f_equal. exact Hb.
    + split.
      * intros Hnil. apply app_eq_nil in Hnil as [_ Hnil]. by apply IH1.
      * intros Hnil. apply app_eq_nil in Hnil as [Ha Hnil]. rewrite Ha. simpl.
        by apply IH2.
Qed.



(** * Can::Remove and the other parameters *)

Lemma hits_kept q param maps :
  q <> param ->
  hits q (kept param maps) = hits q (content_of <$> maps).
Proof.
  intros Hq. unfold hits. induction maps as [|m maps IH]; [done|].
  rewrite kept_cons, bind_app, fmap_cons, bind_cons, IH. f_equal.
  change (filter (fun p => mapParam p = q) (snd (content_of m)))
    with (filter (fun p => mapParam p = q) (forEachPosMap m)).
  rewrite <- (filter_filter_ne q param (forEachPosMap m)) by done.
  fold (keep param m). change (fst (content_of m)) with (canId m).
  destruct (decide (keep param m = [])) as [->|Hne]; [done|].
  rewrite bind_cons. csimpl. by rewrite app_nil_r.
Qed.

(** [Remove] of one parameter changes nothing of what [FindMap] reports
    of any other parameter, even when it drops messages. *)
Theorem Remove_keeps_others scratch1 scratch2 c param q :
  table_shape scratch1 -> table_shape scratch2 ->
  table_shape (canSendMap c) -> table_shape (canRecvMap c) ->
  q <> param ->
  let c' := snd (Remove scratch1 scratch2 c param) in
  FindMap (canSendMap c') (canRecvMap c') q
  = FindMap (canSendMap c) (canRecvMap c) q.
Proof.
  intros H1 H2 Hs Hr Hq c'. subst c'. unfold Remove.
  destruct (RemoveFromMap_holds scratch1 (canSendMap c) param H1 Hs)
    as (_ & Hcs & _).
  destruct (RemoveFromMap_holds scratch2 (canRecvMap c) param H2 Hr)
    as (_ & Hcr & _).
  destruct (RemoveFromMap scratch1 (canSendMap c) param) as [n1 s'].
  destruct (RemoveFromMap scratch2 (canRecvMap c) param) as [n2 r'].
  cbn [fst snd canSendMap canRecvMap with_maps] in *.
  unfold FindMap. rewrite !find_pos_contents, Hcs, Hcr.
  by rewrite !hits_kept.
Qed.

Lemma Remove_keeps_others_witness :
  let c' := snd (Remove zeroed_map full_map (can_with two_message_map empty_map) 1) in
  FindMap (canSendMap c') (canRecvMap c') 2 = Some (0x100, 8, 8, gain_one, false).
Proof.
  intros c'. subst c'.
  rewrite (Remove_keeps_others zeroed_map full_map
             (can_with two_message_map empty_map) 1 2);
    [vm_compute; reflexivity| .. |lia];
    apply (bool_decide_unpack _); vm_compute; exact I.
Defined.

(** * Mapping through SDO: Can::ProcessSDO *)

Lemma mapping_index_bits idx :
  0x3000 <= idx < 0x4800 ->
  (Z.land idx 0x4000 =? 0x4000) = (0x4000 <=? idx)
  /\ Z.land idx 0x7ff = idx mod 0x800.
Proof.
  intros Hidx. split.
  - assert (Forall (fun i => (Z.land i 0x4000 =? 0x4000) = (0x4000 <=? i))
              (seqZ 0x3000 0x1800)) as Hall
      by (apply (bool_decide_unpack _); vm_compute; exact I).
    rewrite Forall_forall in Hall. apply Hall, elem_of_seqZ. lia.
  - change 0x7ff with (Z.ones 11). by rewrite Z.land_ones.
Qed.

Section SDOMapping.
Context `{Params}.

(** An SDO write to an index of the mapping range ([0x3000 .. 0x47ff],
    sub-index a parameter) adds the parameter to the receive table when
    the index is [0x4000] or more and to the send table otherwise, and
    leaves the other table and the parameters alone.  The identifier is
    the low 11 bits of the index, the bit offset, the width and the gain
    are the bytes 0, 1 and 2-3 of the data, the translation is 0.  The
    call cannot end in [CAN_ERR_INVALID_ID] or [CAN_ERR_INVALID_OFS];
    the reply is a write reply when the result is not negative and an
    abort with [SDO_ERR_RANGE] otherwise. *)
Theorem SDO_mapping_write c ps sdo c' ps' reply :
  0x3000 <= index sdo < 0x4800 -> subIndex sdo < PARAM_LAST ->
  cmd sdo = SDO_WRITE -> 0 <= sdo_data sdo < 2 ^ 32 ->
  SDO_reply c ps sdo = Ok (c', ps', reply) ->
  let cid := index sdo mod 0x800 in
  let obits := sdo_data sdo mod 2 ^ 8 in
  let len := (sdo_data sdo / 2 ^ 8) mod 2 ^ 8 in
  let g := B32.to_bits (B32.of_Z (sdo_data sdo / 2 ^ 16)) in
  ps' = ps
  /\ exists res,
      (if decide (0x4000 <= index sdo)
       then canSendMap c' = canSendMap c /\
            Add (canRecvMap c) (subIndex sdo) cid obits len g 0
            = Ok (res, canRecvMap c')
       else canRecvMap c' = canRecvMap c /\
            Add (canSendMap c) (subIndex sdo) cid obits len g 0
            = Ok (res, canSendMap c'))
      /\ res <> CAN_ERR_INVALID_ID /\ res <> CAN_ERR_INVALID_OFS
      /\ reply = (if 0 <=? res
                  then mkCAN_SDO SDO_WRITE_REPLY (index sdo) (subIndex sdo)
                                 (sdo_data sdo)
                  else mkCAN_SDO SDO_ABORT (index sdo) (subIndex sdo)
                                 SDO_ERR_RANGE).
Proof.
  intros Hidx Hsub Hcmd Hdata Hreply cid obits len g.
  destruct (mapping_index_bits (index sdo) Hidx) as [Hrx Hid].
  unfold SDO_reply in Hreply.
  assert ((0x2000 <=? index sdo) && (index sdo <=? 0x2001)
          && (subIndex sdo <? PARAM_LAST) = false) as Hr1.
  { destruct (Z.leb_spec (index sdo) 0x2001); [lia|].
    by rewrite andb_false_r. }
  assert ((0x3000 <=? index sdo) && (index sdo <? 0x4800)
          && (subIndex sdo <? PARAM_LAST) = true) as Hr2.
  { destruct (Z.leb_spec 0x3000 (index sdo)); [|lia].
    destruct (Z.ltb_spec (index sdo) 0x4800); [|lia].
    by destruct (Z.ltb_spec (subIndex sdo) PARAM_LAST); [|lia]. }
  rewrite Hr1, Hr2, Hcmd, Z.eqb_refl, Hrx, Hid in Hreply.
  change 0xff with (Z.ones 8) in Hreply.
  rewrite !Z.land_ones, !Z.shiftr_div_pow2 in Hreply by lia.
  assert (s32 (sdo_data sdo / 2 ^ 16) = sdo_data sdo / 2 ^ 16) as Hg.
  { unfold s32, sint. rewrite Z.mod_small; [lia|].
    assert (0 <= sdo_data sdo / 2 ^ 16 < 2 ^ 16); [|lia].
    split; [apply Z.div_pos; lia|apply Z.div_lt_upper_bound; lia]. }
  rewrite Hg in Hreply. fold cid obits len g in Hreply.
  assert (forall canMap res t,
            Add canMap (subIndex sdo) cid obits len g 0 = Ok (res, t) ->
            res <> CAN_ERR_INVALID_ID /\ res <> CAN_ERR_INVALID_OFS) as Hcodes.
  { intros canMap res t Hadd.
    assert (0 <= cid < 0x800) by (apply Z.mod_pos_bound; lia).
    assert (0 <= active_messages t) by (unfold active_messages; lia).
    apply Add_Ok_inv in Hadd
      as [?|[?|[?|[?|(?&?&?&e&c1&m&j&p&_&_&_&[?|(?&?&?)])]]]];
      unfold CAN_ERR_INVALID_ID, CAN_ERR_INVALID_OFS, CAN_ERR_INVALID_LEN,
        CAN_ERR_MAXMESSAGES, CAN_ERR_MAXITEMS in *; lia. }
  destruct (Z.leb_spec 0x4000 (index sdo)) as [Hrecv|Hsend].
  - unfold AddRecv in Hreply.
    destruct (Add (canRecvMap c) _ _ _ _ _ _) as [[res t]|] eqn:Hadd; [|done].
    cbn [bind] in Hreply. destruct (Hcodes _ _ _ Hadd) as [? ?].
    destruct (0 <=? res) eqn:Hres; injection Hreply as <- <- <-;
      (split; [done|]); exists res; rewrite Hres;
      (destruct (decide (0x4000 <= index sdo)); [|lia]); by repeat split.
  - unfold AddSend in Hreply.
    destruct (Add (canSendMap c) _ _ _ _ _ _) as [[res t]|] eqn:Hadd; [|done].
    cbn [bind] in Hreply. destruct (Hcodes _ _ _ Hadd) as [? ?].
    destruct (0 <=? res) eqn:Hres; injection Hreply as <- <- <-;
      (split; [done|]); exists res; rewrite Hres;
      (destruct (decide (0x4000 <= index sdo)); [lia|]); by repeat split.
Qed.

End SDOMapping.

Lemma SDO_mapping_write_witness :
  let sdo := mkCAN_SDO SDO_WRITE 0x4123 2 0x00010810 in
  exists c',
    @SDO_reply example_params (can0 []) [0; 0; 0; 0] sdo
    = Ok (c', [0; 0; 0; 0], mkCAN_SDO SDO_WRITE_REPLY 0x4123 2 0x00010810)
    /\ canSendMap c' = empty_map
    /\ FindMap (canSendMap c') (canRecvMap c') 2
       = Some (0x123, 16, 8, gain_one, true).
Proof.
  intros sdo. eexists. split; [vm_compute; reflexivity|].
  match goal with
  | |- canSendMap ?c' = _ /\ _ =>
      destruct (@SDO_mapping_write example_params (can0 []) [0; 0; 0; 0] sdo
                  c' [0; 0; 0; 0] (mkCAN_SDO SDO_WRITE_REPLY 0x4123 2 0x00010810))
        as (_ & res & Hcase & _);
        [simpl; lia|simpl; lia|reflexivity|simpl; lia|vm_compute; reflexivity|]
  end.
  rewrite decide_True in Hcase by (simpl; lia).
  destruct Hcase as [Hsend _]. split; [exact Hsend|]. vm_compute. reflexivity.
Defined.

(** * Persistence: what Can::Save writes *)

Section SaveFootprint.
Context `{Crc} `{Params}.

(** [Save] programs the words [0 .. SENDMAP_WORDS + RECVMAP_WORDS] of
    its flash block and no other word.  Read back as tables, the first
    [SENDMAP_WORDS] words are the send table and the next [RECVMAP_WORDS]
    words the receive table, both with the unique ids in place of the
    parameter numbers; the last word is the checksum of the words before
    it, as they are in the flash.  [Save] ends with [isSaving] clear, with
    the unique ids in memory translated back, and leaves the transmit
    queue, the node id and the transmit state of the peripheral alone. *)
Theorem Save_footprint c fl :
  table_shape (canSendMap c) -> table_shape (canRecvMap c) ->
  table_typed (canSendMap c) -> table_typed (canRecvMap c) ->
  let c' := fst (Save c fl) in
  let fl' := snd (Save c fl) in
  (forall k, (SENDMAP_WORDS + RECVMAP_WORDS < k)%nat -> fl' k = fl k)
  /\ read_maps MAX_MESSAGES (flash_read fl' 0 SENDMAP_WORDS)
     = ReplaceParamEnumByUid (canSendMap c)
  /\ read_maps MAX_MESSAGES (flash_read fl' SENDMAP_WORDS RECVMAP_WORDS)
     = ReplaceParamEnumByUid (canRecvMap c)
  /\ fl' (SENDMAP_WORDS + RECVMAP_WORDS)%nat
     = crc_calculate_block crc_reset_value
         (flash_read fl' 0 (SENDMAP_WORDS + RECVMAP_WORDS))
  /\ canSendMap c' = ReplaceParamUidByEnum (ReplaceParamEnumByUid (canSendMap c))
  /\ canRecvMap c' = ReplaceParamUidByEnum (ReplaceParamEnumByUid (canRecvMap c))
  /\ isSaving c' = false
  /\ sendBuffer c' = sendBuffer c /\ sendCnt c' = sendCnt c
  /\ nodeId c' = nodeId c /\ canDev c' = canDev c.
Proof.
  intros Hs Hr Hts Htr c' fl'.
  destruct (Save_flash c fl Hs Hr) as (Hc & Hwords & Hcrc).
  fold c' in Hc. fold fl' in Hwords, Hcrc.
  assert (length (table_words (ReplaceParamEnumByUid (canSendMap c)))
          = SENDMAP_WORDS) as Hls
    by by apply table_words_length, replace_params_shape.
  assert (length (table_words (ReplaceParamEnumByUid (canRecvMap c)))
          = RECVMAP_WORDS) as Hlr
    by by apply table_words_length, replace_params_shape.
  split.
  { intros k Hk. subst fl'. unfold Save.
    pose proof (SaveToFlash_spec fl crc_reset_value 0 _ SENDMAP_WORDS Hls) as H1.
    destruct (SaveToFlash fl crc_reset_value 0 _ SENDMAP_WORDS)
      as [[c1 dr1] fl1]. cbv zeta in H1; cbn [fst snd] in H1.
    destruct H1 as (_ & _ & Ho1 & _).
    pose proof (SaveToFlash_spec fl1 dr1 SENDMAP_WORDS _ RECVMAP_WORDS Hlr) as H2.
    destruct (SaveToFlash fl1 dr1 SENDMAP_WORDS _ RECVMAP_WORDS)
      as [[c2 dr2] fl2]. cbv zeta in H2; cbn [fst snd] in H2.
    destruct H2 as (_ & _ & Ho2 & _).
    pose proof (SaveToFlash_spec fl2 dr2 (SENDMAP_WORDS + RECVMAP_WORDS) [c2]
                  1 eq_refl) as H3.
    destruct (SaveToFlash fl2 dr2 (SENDMAP_WORDS + RECVMAP_WORDS) [c2] 1)
      as [[c3 dr3] fl3]. cbv zeta in H3; cbn [fst snd] in H3.
    destruct H3 as (_ & _ & Ho3 & _).
    cbn [snd]. rewrite Ho3, Ho2, Ho1 by lia. done. }
  rewrite flash_read_app in Hwords.
  apply app_inj_1 in Hwords as [Hw1 Hw2];
    [|unfold flash_read; by rewrite length_fmap, length_seq, Hls].
  rewrite Nat.add_0_l in Hw2.
  split.
  { rewrite Hw1. apply read_maps_table; [by apply replace_params_shape|].
    apply replace_params_typed; [|done]. intros x. apply u16_range. }
  split.
  { rewrite Hw2. apply read_maps_table; [by apply replace_params_shape|].
    apply replace_params_typed; [|done]. intros x. apply u16_range. }
  split.
  { rewrite flash_read_app, Nat.add_0_l, Hw1, Hw2. exact Hcrc. }
  by rewrite Hc.
Qed.

End SaveFootprint.

Lemma Save_footprint_witness :
  let c := mkCan two_message_map empty_map
             (replicate SENDBUFFER_LEN (mkSENDBUFFER 0 0 (0, 0))) 0 1 true
             (mkCanHw [] [] false) in
  let r := @Save example_crc example_params c erased_flash in
  snd r 700%nat = 0xffffffff
  /\ content_of <$> forEachCanMap
                      (read_maps MAX_MESSAGES (flash_read (snd r) 0 SENDMAP_WORDS))
     = [(0x100, [mkCANPOS 101 0 gain_one 0 8; mkCANPOS 102 0 gain_one 8 8]);
        (0x200, [mkCANPOS 101 0 gain_one 0 16])]
  /\ canSendMap (fst r) = two_message_map
  /\ isSaving (fst r) = false.
Proof.
  intros c r.
  destruct (@Save_footprint example_crc example_params c erased_flash)
    as (Hother & Hsend & _ & _ & Hmem & _ & Hsaving & _);
    [apply (bool_decide_unpack _); vm_compute; exact I ..|].
  fold r in Hother, Hsend, Hmem, Hsaving.
  split; [apply Hother; vm_compute; lia|].
  split; [rewrite Hsend; vm_compute; reflexivity|].
  split; [rewrite Hmem; vm_compute; reflexivity|].
  exact Hsaving.
Defined.

(** * Can::AddRecv and the receive filters *)

Lemma add_content_ids id item cs :
  id ∈ fst <$> add_content id item cs
  /\ forall x, x ∈ fst <$> cs -> x ∈ fst <$> add_content id item cs.
Proof.
  induction cs as [|e cs [IH1 IH2]]; simpl.
  - split; [by apply list_elem_of_singleton|]. intros x Hx. by apply elem_of_nil in Hx.
  - destruct (decide (fst e = id)) as [<-|Hne]; simpl.
    + split; [by apply elem_of_cons; left|done].
    + split; [by apply elem_of_cons; right|].
      intros x Hx. apply elem_of_cons in Hx as [->|Hx]; apply elem_of_cons; auto.
Qed.



(** * The transmit queue stays inside its buffer *)

(** With [sendCnt] at most [SENDBUFFER_LEN], [Send] leaves it at most
    [SENDBUFFER_LEN] and never lowers it; [HandleTx] then reads inside
    the buffer only, ends, never raises [sendCnt] and writes nothing to
    the buffer.  Neither touches the two tables. *)
Theorem queue_within_buffer c :
  length (sendBuffer c) = SENDBUFFER_LEN -> (sendCnt c <= SENDBUFFER_LEN)%nat ->
  (forall id data len,
     let c' := Send c id data len in
     length (sendBuffer c') = SENDBUFFER_LEN
     /\ (sendCnt c <= sendCnt c' <= SENDBUFFER_LEN)%nat
     /\ (sendCnt c' <= S (sendCnt c))%nat
     /\ canSendMap c' = canSendMap c /\ canRecvMap c' = canRecvMap c)
  /\ exists c',
      HandleTx c = Ok c'
      /\ (sendCnt c' <= sendCnt c)%nat /\ sendBuffer c' = sendBuffer c
      /\ canSendMap c' = canSendMap c /\ canRecvMap c' = canRecvMap c.
Proof.
  intros Hlen Hcnt. split.
  - intros id data len c'. subst c'. unfold Send.
    destruct (can_transmit _ _) as [r hw].
    destruct (Z.ltb_spec r 0); destruct (Nat.ltb_spec (sendCnt c) SENDBUFFER_LEN);
      cbn [andb]; destruct (0 <? _)%nat; cbn [with_queue sendBuffer sendCnt
        canSendMap canRecvMap]; rewrite ?length_insert; repeat split; lia.
  - destruct (drain_spec (sendBuffer c) (sendCnt c) (canDev c)) as (hw' & Hd & _);
      [lia|].
    unfold HandleTx. rewrite Hd. cbn [bind].
    eexists. split; [reflexivity|].
    cbn [with_queue sendBuffer sendCnt canSendMap canRecvMap].
    repeat split. lia.
Qed.

Lemma queue_within_buffer_witness :
  let c := foldl (fun c k => Send c (0x100 + Z.of_nat k) (0, 0) 8) (can0 [])
             (seq 0 25) in
  sendCnt c = SENDBUFFER_LEN
  /\ sendCnt (Send c 0x7ff (1, 2) 8) = SENDBUFFER_LEN
  /\ exists c', HandleTx c = Ok c' /\ (sendCnt c' <= sendCnt c)%nat.
Proof.
  intros c.
  assert (length (sendBuffer c) = SENDBUFFER_LEN) as Hl
    by (vm_compute; reflexivity).
  assert (sendCnt c = SENDBUFFER_LEN) as Hfull by (vm_compute; reflexivity).
  clearbody c.
  destruct (queue_within_buffer c Hl) as (Hsend & c' & Htx & Hle & _);
    [rewrite Hfull; constructor|].
  split; [exact Hfull|]. split; [|exists c'; split; assumption].
  destruct (Hsend 0x7ff (1, 2) 8) as (_ & [Hlo Hhi] & _).
  rewrite Hfull in Hlo. apply Nat.le_antisymm; assumption.
Defined.

(** * Can::ReplaceParamEnumByUid and Can::ReplaceParamUidByEnum *)

Lemma replace_params_contents f canMap :
  contents (replace_params f canMap)
  = (fun e : Z * list CANPOS => (fst e, replace_item f <$> snd e))
      <$> contents canMap.
Proof.
  unfold contents. rewrite forEachCanMap_replace, <- !list_fmap_compose.
  apply list_fmap_ext. intros i m _. simpl. by rewrite forEachPosMap_replace.
Qed.

Lemma replace_params_rest f canMap :
  drop (length (forEachCanMap canMap)) (replace_params f canMap)
  = drop (length (forEachCanMap canMap)) canMap
  /\ length (replace_params f canMap) = length canMap.
Proof.
  rewrite replace_params_unfold. split; [|apply for_upto_length].
  unfold for_upto.
  assert (length (forEachCanMap canMap) <= length canMap)%nat as Hle.
  { unfold forEachCanMap.
    pose proof (take_while_length msg_active (take MAX_MESSAGES canMap)).
    rewrite length_take in H. lia. }
  rewrite drop_app_length'; [done|].
  rewrite length_fmap, length_take. lia.
Qed.

Lemma for_upto_lookup {A} n (f : A -> A) (a : list A) i :
  for_upto n f a !! i = (if decide (i < n)%nat then f else id) <$> a !! i.
Proof.
  unfold for_upto. destruct (decide (i < n)%nat).
  - destruct (a !! i) as [x|] eqn:Hx.
    + pose proof (lookup_lt_Some _ _ _ Hx).
      rewrite lookup_app_l by (rewrite length_fmap, length_take; lia).
      by rewrite list_lookup_fmap, lookup_take_lt, Hx by done.
    + apply lookup_ge_None in Hx. simpl. apply lookup_ge_None.
      rewrite length_app, length_fmap, length_take, length_drop. lia.
  - rewrite lookup_app_r by (rewrite length_fmap, length_take; lia).
    rewrite length_fmap, length_take, lookup_drop.
    destruct (decide (n <= length a)%nat).
    + replace (n + (i - n `min` length a))%nat with i by lia.
      by destruct (a !! i).
    + rewrite (lookup_ge_None_2 a i) by lia.
      apply lookup_ge_None_2. lia.
Qed.

Lemma replace_params_lookup f canMap i m :
  canMap !! i = Some m ->
  exists m',
    replace_params f canMap !! i = Some m'
    /\ canId m' = canId m /\ length (items m') = length (items m)
    /\ forall j p,
         items m !! j = Some p ->
         items m' !! j
         = Some (if decide (i < length (forEachCanMap canMap)
                            /\ j < length (forEachPosMap m))%nat
                 then set_mapParam (f (mapParam p)) p else p).
Proof.
  intros Hm. rewrite replace_params_unfold, for_upto_lookup, Hm. simpl.
  destruct (decide (i < length (forEachCanMap canMap))%nat) as [Hi|Hi].
  - exists (replace_msg f m). split; [done|]. split; [done|].
    split; [apply for_upto_length|].
    intros j p Hp. simpl. rewrite for_upto_lookup, Hp. simpl.
    destruct (decide (j < length (forEachPosMap m))%nat).
    + by rewrite decide_True by done.
    + by rewrite decide_False by tauto.
  - exists m. split; [done|]. split; [done|]. split; [done|].
    intros j p Hp. by rewrite decide_False by tauto.
Qed.

Section ReplaceParams.
Context `{Params}.

(** The two translations rewrite the parameter of every active mapping
    of every active message, through [Param::GetAttrib (p)->id] and
    [Param::NumFromId] cut to 16 bits, and nothing else.  Slot by slot:
    every message keeps its identifier and its number of items; the item
    [j] of the message [i] gets the translated parameter when the message
    is among the active ones and the item among its active ones, and is
    unchanged otherwise, in an active message as well as in the others. *)
Theorem ReplaceParam_contents canMap :
  contents (ReplaceParamEnumByUid canMap)
  = (fun e : Z * list CANPOS =>
       (fst e, (fun p => set_mapParam (u16 (Param_AttribId (mapParam p))) p)
                 <$> snd e)) <$> contents canMap
  /\ contents (ReplaceParamUidByEnum canMap)
     = (fun e : Z * list CANPOS =>
          (fst e, (fun p => set_mapParam (u16 (Param_NumFromId (mapParam p))) p)
                    <$> snd e)) <$> contents canMap
  /\ length (ReplaceParamEnumByUid canMap) = length canMap
  /\ length (ReplaceParamUidByEnum canMap) = length canMap
  /\ (forall i m,
        canMap !! i = Some m ->
        exists m',
          ReplaceParamEnumByUid canMap !! i = Some m'
          /\ canId m' = canId m /\ length (items m') = length (items m)
          /\ forall j p,
               items m !! j = Some p ->
               items m' !! j
               = Some (if decide (i < length (forEachCanMap canMap)
                                  /\ j < length (forEachPosMap m))%nat
                       then set_mapParam (u16 (Param_AttribId (mapParam p))) p
                       else p))
  /\ (forall i m,
        canMap !! i = Some m ->
        exists m',
          ReplaceParamUidByEnum canMap !! i = Some m'
          /\ canId m' = canId m /\ length (items m') = length (items m)
          /\ forall j p,
               items m !! j = Some p ->
               items m' !! j
               = Some (if decide (i < length (forEachCanMap canMap)
                                  /\ j < length (forEachPosMap m))%nat
                       then set_mapParam (u16 (Param_NumFromId (mapParam p))) p
                       else p)).
Proof.
  unfold ReplaceParamEnumByUid, ReplaceParamUidByEnum.
  rewrite !replace_params_contents.
  destruct (replace_params_rest (fun p => u16 (Param_AttribId p)) canMap).
  destruct (replace_params_rest (fun p => u16 (Param_NumFromId p)) canMap).
  split; [done|]. split; [done|]. split; [done|]. split; [done|].
  split; intros i m Hm.
  - apply (replace_params_lookup (fun p => u16 (Param_AttribId p)) _ _ _ Hm).
  - apply (replace_params_lookup (fun p => u16 (Param_NumFromId p)) _ _ _ Hm).
Qed.

End ReplaceParams.

Lemma ReplaceParam_contents_witness :
  exists m',
    @ReplaceParamEnumByUid example_params two_message_map !! 0%nat = Some m'
    /\ canId m' = 0x100
    /\ items m' !! 1%nat = Some (mkCANPOS 102 0 gain_one 8 8)
    /\ items m' !! 2%nat = Some (mkCANPOS 0 0 0 0 0).
Proof.
  destruct (@ReplaceParam_contents example_params two_message_map)
    as (_ & _ & _ & _ & Hen & _).
  let m := eval vm_compute in (two_message_map !! 0%nat) in
  match m with
  | Some ?x => destruct (Hen 0%nat x eq_refl) as (m' & Hm' & Hid & _ & Hit)
  end.
  exists m'. split; [exact Hm'|]. split; [exact Hid|]. split.
  - rewrite (Hit 1%nat _ eq_refl). vm_compute. reflexivity.
  - rewrite (Hit 2%nat _ eq_refl). vm_compute. reflexivity.
Defined.

(** * Can::HandleRx and the frame length *)

Section FrameLength.
Context `{Params}.

(** Only the test for an SDO request looks at the length of a received
    frame.  A frame under any other identifier is handled the same
    whatever its length: all fields of a mapped message are decoded from
    the two payload words, and the callback gets no length. *)
Theorem HandleRx_ignores_length frac c ps id len len' data :
  id <> 0x600 + nodeId c ->
  HandleRx_frame frac c ps id len data = HandleRx_frame frac c ps id len' data.
Proof.
  intros Hid. unfold HandleRx_frame.
  by destruct (Z.eqb_spec id (0x600 + nodeId c)).
Qed.

End FrameLength.

Lemma HandleRx_ignores_length_witness :
  let c := can_with empty_map two_message_map in
  @HandleRx_frame example_params 5 c [0; 0; 0; 0] 0x200 1 (0x1234, 0)
  = @HandleRx_frame example_params 5 c [0; 0; 0; 0] 0x200 8 (0x1234, 0)
  /\ @HandleRx_frame example_params 5 c [0; 0; 0; 0] 0x200 1 (0x1234, 0)
     = Ok (c, [0; 0x1234 * 32; 0; 0], None).
Proof.
  intros c. split; [|vm_compute; reflexivity].
  apply (@HandleRx_ignores_length example_params). vm_compute. discriminate.
Defined.
